(** * ttf2dxf: a shallow embedding of [ttf2dxf-1.c]

    The program walks the outline of each glyph of a TrueType font and
    prints a DXF file: one LWPOLYLINE per contour, curves approximated by
    pairs of circular arcs (biarcs), and six DIMENSION records per glyph.

    Modelling choices, all following the C source:
    - [double] is Rocq's primitive binary64 [float]; every arithmetic
      expression keeps the association of the C expression;
    - [long int], [int], [FT_Pos], [FT_Int] and [wchar_t] are [Z].  The
      program compares and copies them; where it computes with them (the
      pixel coordinates of the bitmap tracer) the arithmetic is that of
      mathematical integers, an overflow of a signed integer being
      undefined in C.  The conversions from [double] to an integer type
      are partial functions ([long_of_double], [int_of_double]), because
      C leaves the out-of-range conversion undefined;
    - the globals of the program, the two output streams and the statics of
      [my_draw_bitmap] are the fields of one [state] record, threaded by a
      state monad whose results are: normal return, [exit], undefined
      behaviour, or an exhausted iteration budget of a [while] loop;
    - an output stream is the list of the characters written; the text of
      a [%.4f] conversion is one symbol that carries the double;
    - the functions of libm that have no primitive counterpart ([atan2],
      [tan], [hypot]), FreeType's error table and the FreeType face are
      parameters;
    - one ghost field, [biarc_calls], counts the entries into [biarc]. *)

From Stdlib Require Import ZArith String Ascii List Lia Bool Floats DecimalString.
From Stdlib Require Import Permutation.
Import ListNotations.

Set Implicit Arguments.

Local Open Scope Z_scope.

(* ================================================================== *)
(** * Numeric conversions between [double] and the integer types *)

Module Num.

(** [(double)z] for an integer [z]: the nearest binary64, ties to even. *)
Definition double_of_Z (z : Z) : float :=
  SF2Prim (binary_normalize prec emax z 0 false).

(** The integer part of a finite double (truncation toward zero);
    [None] for NaN and the infinities. *)
Definition trunc_double (f : float) : option Z :=
  match Prim2SF f with
  | S754_zero _ => Some 0
  | S754_finite s m e =>
      let a := Z.shiftl (Z.pos m) e in
      Some (if s then - a else a)
  | S754_infinity _ | S754_nan => None
  end.

Definition INT_MIN : Z := - 2 ^ 31.
Definition INT_MAX : Z := 2 ^ 31 - 1.
Definition LONG_MIN : Z := - 2 ^ 63.
Definition LONG_MAX : Z := 2 ^ 63 - 1.

Definition in_range (lo hi z : Z) : bool := (lo <=? z) && (z <=? hi).

(** [(int)f]: defined only when the truncated value is an [int]. *)
Definition int_of_double (f : float) : option Z :=
  match trunc_double f with
  | Some z => if in_range INT_MIN INT_MAX z then Some z else None
  | None => None
  end.

(** The implicit conversion of [point.x = x] ([double] to [long int]). *)
Definition long_of_double (f : float) : option Z :=
  match trunc_double f with
  | Some z => if in_range LONG_MIN LONG_MAX z then Some z else None
  | None => None
  end.

(** [M_PI] of <math.h>, 3.14159265358979323846 as a binary64. *)
Definition M_PI : float := 0x1.921fb54442d18p+1%float.

(** The literal [1e-10] of [arc], as the compiler rounds it. *)
Definition tiny : float := 0x1.b7cdfd9d7bdbbp-34%float.

End Num.

(* ================================================================== *)
(** * Points and vector arithmetic (source lines 56-81) *)

(** [typedef struct { double x, y; } P;] *)
Record P : Type := mkP { px : float; py : float }.

Module Vec.
Local Open Scope float_scope.

(** [static double max(double a, double b)] *)
Definition max (a b : float) : float := if a <? b then b else a.

Definition dot (a b : P) : float := px a * px b + py a * py b.
Definition mag (a : P) : float := sqrt (dot a a).
Definition scale (a : P) (b : float) : P := mkP (px a * b) (py a * b).
Definition add (a b : P) : P := mkP (px a + px b) (py a + py b).
Definition add3 (a b c : P) : P :=
  mkP (px a + px b + px c) (py a + py b + py c).
Definition add4 (a b c d : P) : P :=
  mkP (px a + px b + px c + px d) (py a + py b + py c + py d).
Definition sub (a b : P) : P := mkP (px a - px b) (py a - py b).

(** [if(m)] holds for every [m] that does not compare equal to zero,
    NaN included. *)
Definition unit (a : P) : P :=
  let m := mag a in
  if negb (m =? 0) then mkP (px a / m) (py a / m) else mkP 0 0.

Definition SQ (a : float) : float := a * a.
Definition CUBE (a : float) : float := a * a * a.

End Vec.

(* ================================================================== *)
(** * The output streams and [printf] *)

(** A character of an output stream.  The text that [%.4f] prints for a
    double is kept as one symbol: the digits are libc's business. *)
Inductive ochar : Type :=
| Ch (c : ascii)
| F4 (d : float).

Fixpoint text (s : string) : list ochar :=
  match s with
  | EmptyString => []
  | String c s' => Ch c :: text s'
  end.

Inductive arg : Type :=
| ADouble (d : float)
| AInt (z : Z)
| AStr (s : string).

Definition decimal (z : Z) : string := NilZero.string_of_int (Z.to_int z).

(** [%c] prints its [int] argument converted to [unsigned char]. *)
Definition char_of_int (z : Z) : ascii := ascii_of_N (Z.to_N (z mod 256)).

(** The conversions the program uses: [%.4f], [%ld], [%d], [%c], [%s].
    A conversion whose argument is missing or of the wrong kind prints
    nothing (no call of the program is like that). *)
Fixpoint format (fmt : string) (args : list arg) : list ochar :=
  match fmt with
  | EmptyString => []
  | String "%" (String "." (String "4" (String "f" rest))) =>
      match args with
      | ADouble d :: args' => F4 d :: format rest args'
      | _ => format rest (tl args)
      end
  | String "%" (String "l" (String "d" rest))
  | String "%" (String "d" rest) =>
      match args with
      | AInt z :: args' => text (decimal z) ++ format rest args'
      | _ => format rest (tl args)
      end
  | String "%" (String "c" rest) =>
      match args with
      | AInt z :: args' => Ch (char_of_int z) :: format rest args'
      | _ => format rest (tl args)
      end
  | String "%" (String "s" rest) =>
      match args with
      | AStr s :: args' => text s ++ format rest args'
      | _ => format rest (tl args)
      end
  | String c rest => Ch c :: format rest args
  end.

(** Line feed, for the format strings. *)
Definition nl : string := String (ascii_of_nat 10) EmptyString.

(* ================================================================== *)
(** * Program state *)

(** [FT_Vector]: a pair of [FT_Pos] ([long]). *)
Record FT_Vector : Type := mkV { vx : Z; vy : Z }.

Record extents : Type := mkExtents {
  minx : Z;
  maxx : Z;
  miny : Z;
  maxy : Z
}.

Record state : Type := mkState {
  (* globals, source lines 43-50 *)
  csteps : Z;
  dsteps : float;
  layer : option string;
  charcode : Z;
  genfont : Z;
  (* globals, source lines 157-167 *)
  last_point : FT_Vector;
  glyph_extents : extents;
  line_extents : extents;
  advance : FT_Vector;
  (* statics of my_draw_bitmap *)
  oldbit : Z;
  odd : Z;
  (* stdout and stderr, oldest character first *)
  out : list ochar;
  err : list ochar;
  (* ghost: how many times biarc has been entered *)
  biarc_calls : nat
}.

Definition set_charcode (c : Z) (s : state) : state :=
  mkState (csteps s) (dsteps s) (layer s) c (genfont s) (last_point s)
    (glyph_extents s) (line_extents s) (advance s) (oldbit s) (odd s)
    (out s) (err s) (biarc_calls s).

Definition set_last_point (p : FT_Vector) (s : state) : state :=
  mkState (csteps s) (dsteps s) (layer s) (charcode s) (genfont s) p
    (glyph_extents s) (line_extents s) (advance s) (oldbit s) (odd s)
    (out s) (err s) (biarc_calls s).

Definition set_glyph_extents (e : extents) (s : state) : state :=
  mkState (csteps s) (dsteps s) (layer s) (charcode s) (genfont s)
    (last_point s) e (line_extents s) (advance s) (oldbit s) (odd s)
    (out s) (err s) (biarc_calls s).

Definition set_line_extents (e : extents) (s : state) : state :=
  mkState (csteps s) (dsteps s) (layer s) (charcode s) (genfont s)
    (last_point s) (glyph_extents s) e (advance s) (oldbit s) (odd s)
    (out s) (err s) (biarc_calls s).

Definition set_advance (a : FT_Vector) (s : state) : state :=
  mkState (csteps s) (dsteps s) (layer s) (charcode s) (genfont s)
    (last_point s) (glyph_extents s) (line_extents s) a (oldbit s) (odd s)
    (out s) (err s) (biarc_calls s).

Definition set_oldbit (b : Z) (s : state) : state :=
  mkState (csteps s) (dsteps s) (layer s) (charcode s) (genfont s)
    (last_point s) (glyph_extents s) (line_extents s) (advance s) b (odd s)
    (out s) (err s) (biarc_calls s).

Definition set_odd (b : Z) (s : state) : state :=
  mkState (csteps s) (dsteps s) (layer s) (charcode s) (genfont s)
    (last_point s) (glyph_extents s) (line_extents s) (advance s) (oldbit s) b
    (out s) (err s) (biarc_calls s).

Definition set_out (o : list ochar) (s : state) : state :=
  mkState (csteps s) (dsteps s) (layer s) (charcode s) (genfont s)
    (last_point s) (glyph_extents s) (line_extents s) (advance s) (oldbit s)
    (odd s) o (err s) (biarc_calls s).

Definition set_err (o : list ochar) (s : state) : state :=
  mkState (csteps s) (dsteps s) (layer s) (charcode s) (genfont s)
    (last_point s) (glyph_extents s) (line_extents s) (advance s) (oldbit s)
    (odd s) (out s) o (biarc_calls s).

Definition set_biarc_calls (n : nat) (s : state) : state :=
  mkState (csteps s) (dsteps s) (layer s) (charcode s) (genfont s)
    (last_point s) (glyph_extents s) (line_extents s) (advance s) (oldbit s)
    (odd s) (out s) (err s) n.

(* ================================================================== *)
(** * The monad of the program *)

Inductive result (A : Type) : Type :=
| Ret (a : A) (s : state)        (* the call returns [a] *)
| Exit (status : Z) (s : state)  (* [exit(status)] was called *)
| Undefined                      (* behaviour undefined in C *)
| OutOfFuel.                     (* a [while] loop outlived its budget *)

Arguments Ret {A} a s.
Arguments Exit {A} status s.
Arguments Undefined {A}.
Arguments OutOfFuel {A}.

Definition M (A : Type) : Type := state -> result A.

Definition ret {A} (a : A) : M A := fun s => Ret a s.

Definition bind {A B} (m : M A) (k : A -> M B) : M B :=
  fun s =>
    match m s with
    | Ret a s' => k a s'
    | Exit c s' => Exit c s'
    | Undefined => Undefined
    | OutOfFuel => OutOfFuel
    end.

Declare Scope prog_scope.
Delimit Scope prog_scope with prog.
Notation "x <- m ;; k" := (bind m (fun x => k))
  (at level 61, m at next level, right associativity) : prog_scope.
Notation "m ;; k" := (bind m (fun _ => k))
  (at level 61, right associativity) : prog_scope.
Local Open Scope prog_scope.

Definition get : M state := fun s => Ret s s.
Definition modify (f : state -> state) : M unit := fun s => Ret tt (f s).
Definition exit {A} (status : Z) : M A := fun s => Exit status s.
Definition undefined {A} : M A := fun _ => Undefined.
Definition out_of_fuel {A} : M A := fun _ => OutOfFuel.

(** A partial conversion lifted to the monad. *)
Definition defined {A} (o : option A) : M A :=
  match o with
  | Some a => ret a
  | None => undefined
  end.

Definition printf (fmt : string) (args : list arg) : M unit :=
  modify (fun s => set_out (out s ++ format fmt args) s).

Definition fprintf_stderr (fmt : string) (args : list arg) : M unit :=
  modify (fun s => set_err (err s ++ format fmt args) s).

(** [for (i = lo; i <= hi; i++) body(i)], the body run on the [n] values
    from [lo] on. *)
Fixpoint for_up (n : nat) (lo : Z) (body : Z -> M unit) : M unit :=
  match n with
  | O => ret tt
  | S n' => body lo ;; for_up n' (lo + 1) body
  end.

(** The functions of libm that the program calls and that have no
    primitive counterpart. *)
Record libm : Type := mkLibm {
  atan2 : float -> float -> float;
  tan : float -> float;
  hypot : float -> float -> float
}.

(* ================================================================== *)
(** * Record emission and the biarc fitter (source lines 83-154) *)

Section Geometry.

Variable L : libm.

(** [void line(P p)] *)
Definition line (p : P) : M unit :=
  printf ("  10" ++ nl ++ "%.4f" ++ nl ++ " 20" ++ nl ++ "%.4f" ++ nl)
         [ADouble (px p); ADouble (py p)].

(** [while(en <= st) en += 2*M_PI;] *)
Fixpoint wind_up (fuel : nat) (st en : float) : option float :=
  if (en <=? st)%float then
    match fuel with
    | O => None
    | S fuel' => wind_up fuel' st (en + 2 * Num.M_PI)%float
    end
  else Some en.

(** [while(en >= st) en -= 2*M_PI;] *)
Fixpoint wind_down (fuel : nat) (st en : float) : option float :=
  if (st <=? en)%float then
    match fuel with
    | O => None
    | S fuel' => wind_down fuel' st (en - 2 * Num.M_PI)%float
    end
  else Some en.

Definition budget {A} (o : option A) : M A :=
  match o with
  | Some a => ret a
  | None => out_of_fuel
  end.

(** [void arc(P p1, P p2, P d)] *)
Definition arc (fuel : nat) (p1 p2 d : P) : M unit :=
  let d := Vec.unit d in
  let p := Vec.sub p2 p1 in
  let den := (2 * (py p * px d - px p * py d))%float in
  if (abs den <? Num.tiny)%float then
    printf ("G1 X[%.4f*#3+#5] Y[%.4f*#3+#6]" ++ nl)
           [ADouble (px p2); ADouble (py p2)]
  else
    let r := (- Vec.dot p p / den)%float in
    let i := (py d * r)%float in
    let j := (- px d * r)%float in
    let c := mkP (px p1 + i) (py p1 + j) in
    let st := atan2 L (py p1 - py c) (px p1 - px c) in
    let en := atan2 L (py p2 - py c) (px p2 - px c) in
    en <- budget (if (r <? 0)%float then wind_up fuel st en
                  else wind_down fuel st en) ;;
    let bulge := tan L (abs (en - st) / 4) in
    let bulge := if (0 <? r)%float then (- bulge)%float else bulge in
    printf ("  42" ++ nl ++ "%.4f" ++ nl ++ " 10" ++ nl ++ "%.4f" ++ nl
            ++ "  20" ++ nl ++ "%.4f" ++ nl)
           [ADouble bulge; ADouble (px p2); ADouble (py p2)].

(** [void biarc(P p0, P ts, P p4, P te, double r)].  The first line
    counts the call in the ghost field; the rest is the source. *)
Definition biarc (fuel : nat) (p0 ts p4 te : P) (r : float) : M unit :=
  modify (fun s => set_biarc_calls (S (biarc_calls s)) s) ;;
  let ts := Vec.unit ts in
  let te := Vec.unit te in
  let v := Vec.sub p0 p4 in
  let c := Vec.dot v v in
  let b := (2 * Vec.dot v (Vec.add (Vec.scale ts r) te))%float in
  let a := (2 * r * (Vec.dot ts te - 1))%float in
  let disc := (b * b - 4 * a * c)%float in
  if (a =? 0)%float || (disc <? 0)%float then line p4
  else
    let disq := sqrt disc in
    let beta1 := ((- b - disq) / 2 / a)%float in
    let beta2 := ((- b + disq) / 2 / a)%float in
    let beta := Vec.max beta1 beta2 in
    if (beta <=? 0)%float then line p4
    else
      let alpha := (beta * r)%float in
      let ab := (alpha + beta)%float in
      let p1 := Vec.add p0 (Vec.scale ts alpha) in
      let p3 := Vec.add p4 (Vec.scale te (- beta)) in
      let p2 := Vec.add (Vec.scale p1 (beta / ab)) (Vec.scale p3 (alpha / ab)) in
      let tm := Vec.sub p3 p2 in
      arc fuel p0 p2 ts ;;
      arc fuel p2 p4 tm.

End Geometry.

(* ================================================================== *)
(** * Error reporting (source lines 169-180) *)

Section Errors.

(** The table [ft_errors] that FT_ERRORS_H expands to, without its
    closing [{ 0, 0 }] entry. *)
Variable ft_errors : list (Z * string).

(** [for(;e->err_msg && e->err_code != f;e++) ;] *)
Fixpoint find_error (tbl : list (Z * string)) (f : Z) : option string :=
  match tbl with
  | [] => None
  | (code, msg) :: tbl' => if code =? f then Some msg else find_error tbl' f
  end.

(** [void handle_ft_error(char *where, int f, int x)] *)
Definition handle_ft_error {A} (where_ : string) (f x : Z) : M A :=
  match find_error ft_errors f with
  | Some msg =>
      fprintf_stderr ("Fatal error in %s: %s (%d) at line:%d" ++ nl)
                     [AStr where_; AStr msg; AInt f; AInt x]
  | None =>
      fprintf_stderr ("Fatal error in %s: %d at line:%d" ++ nl)
                     [AStr where_; AInt f; AInt x]
  end ;;
  exit x.

End Errors.

(* ================================================================== *)
(** * The extents tracker (source lines 182-209) *)

Definition extents_reset (e : extents) : extents :=
  mkExtents 2000000000 (-2000000000) 2000000000 (-2000000000).

Definition extents_add_point (e : extents) (point : FT_Vector) : extents :=
  let e := if maxx e <? vx point
           then mkExtents (minx e) (vx point) (miny e) (maxy e) else e in
  let e := if maxy e <? vy point
           then mkExtents (minx e) (maxx e) (miny e) (vy point) else e in
  let e := if vx point <? minx e
           then mkExtents (vx point) (maxx e) (miny e) (maxy e) else e in
  let e := if vy point <? miny e
           then mkExtents (minx e) (maxx e) (vy point) (maxy e) else e in
  e.

Definition extents_add_extents (e1 e2 : extents) : extents :=
  let e1 := if maxx e1 <? maxx e2
            then mkExtents (minx e1) (maxx e2) (miny e1) (maxy e1) else e1 in
  let e1 := if maxy e1 <? maxy e2
            then mkExtents (minx e1) (maxx e1) (miny e1) (maxy e2) else e1 in
  let e1 := if minx e2 <? minx e1
            then mkExtents (minx e2) (maxx e1) (miny e1) (maxy e1) else e1 in
  let e1 := if miny e2 <? miny e1
            then mkExtents (minx e1) (maxx e1) (miny e2) (maxy e1) else e1 in
  e1.

(* ================================================================== *)
(** * The outline walker (source lines 211-339) *)

(** [void maybe_output_layer()] *)
Definition maybe_output_layer : M unit :=
  s <- get ;;
  if negb (genfont s =? 0) then
    if (charcode s <? 32) || (126 <? charcode s) then
      printf ("  8" ++ nl ++ "_%d" ++ nl) [AInt (charcode s)]
    else
      printf ("  8" ++ nl ++ "%c" ++ nl) [AInt (charcode s)]
  else
    match layer s with
    | Some name => printf ("  8" ++ nl ++ "%s" ++ nl) [AStr name]
    | None => ret tt
    end.

(** [int my_move_to( const FT_Vector* to, void* user )] *)
Definition my_move_to (to : FT_Vector) : M Z :=
  printf ("  0" ++ nl ++ "LWPOLYLINE" ++ nl ++ "  10" ++ nl ++ "%ld.000" ++ nl
          ++ " 20" ++ nl ++ "%ld.000" ++ nl)
         [AInt (vx to); AInt (vy to)] ;;
  maybe_output_layer ;;
  modify (set_last_point to) ;;
  modify (fun s => set_glyph_extents (extents_add_point (glyph_extents s) to) s) ;;
  ret 0.

(** [int my_line_to( const FT_Vector* to, void* user )] *)
Definition my_line_to (to : FT_Vector) : M Z :=
  printf ("  10" ++ nl ++ "%ld.000" ++ nl ++ " 20" ++ nl ++ "%ld.000" ++ nl)
         [AInt (vx to); AInt (vy to)] ;;
  modify (set_last_point to) ;;
  modify (fun s => set_glyph_extents (extents_add_point (glyph_extents s) to) s) ;;
  ret 0.

(** A counted loop that threads the local variables [a] of its body:
    [for (t = lo; ...; t++) a = body(t, a)], for [n] iterations. *)
Fixpoint for_acc {A} (n : nat) (t : Z) (a : A) (body : Z -> A -> M A) : M A :=
  match n with
  | O => ret a
  | S n' => a' <- body t a ;; for_acc n' (t + 1) a' body
  end.

(** The counter of [for (t = 1; t <= n; t++)] is an [int]: the loop is
    defined when the last increment, to [n + 1], does not overflow. *)
Definition counts_to (n : Z) : M unit :=
  if n <? Num.INT_MAX then ret tt else undefined.

Definition ft2p (v : FT_Vector) : P :=
  mkP (Num.double_of_Z (vx v)) (Num.double_of_Z (vy v)).

Section Curves.

Variable L : libm.
Variable fuel : nat.

Let D := Num.double_of_Z.

(** One pass of the length-estimation loop of [my_conic_to] and
    [my_cubic_to], after [x] and [y] have been computed: the locals are
    [point] and [len]. *)
Definition sample (x y : float) (loc : FT_Vector * float)
  : M (FT_Vector * float) :=
  let '(point, len) := loc in
  let len := (len + hypot L (x - D (vx point)) (y - D (vy point)))%float in
  px' <- defined (Num.long_of_double x) ;;
  py' <- defined (Num.long_of_double y) ;;
  let point := mkV px' py' in
  modify (fun s => set_glyph_extents (extents_add_point (glyph_extents s) point) s) ;;
  ret (point, len).

(** The first loop of [my_conic_to] (source lines 261-269). *)
Definition conic_length (control to : FT_Vector) : M float :=
  s <- get ;;
  let last := last_point s in
  let n := csteps s in
  counts_to n ;;
  r <- for_acc (Z.to_nat n) 1 (last, 0%float)
         (fun t loc =>
            let tf := (D t / D n)%float in
            let x := (Vec.SQ (1 - tf) * D (vx last)
                      + 2 * tf * (1 - tf) * D (vx control)
                      + Vec.SQ tf * D (vx to))%float in
            let y := (Vec.SQ (1 - tf) * D (vy last)
                      + 2 * tf * (1 - tf) * D (vy control)
                      + Vec.SQ tf * D (vy to))%float in
            sample x y loc) ;;
  ret (snd r).

(** [int steps = (int)max(2, len/dsteps);] *)
Definition curve_steps (len dsteps : float) : option Z :=
  Num.int_of_double (Vec.max 2 (len / dsteps)).

(** [int my_conic_to( const FT_Vector* control, const FT_Vector* to,
    void* user )].  The array [l] is written once and never read; its
    declaration needs [csteps+1 > 0]. *)
Definition my_conic_to (control to : FT_Vector) : M Z :=
  s <- get ;;
  (if csteps s + 1 <=? 0 then undefined else ret tt) ;;
  len <- conic_length control to ;;
  let p0 := ft2p (last_point s) in
  let p1 := ft2p control in
  let p2 := ft2p to in
  let q0 := Vec.sub p1 p0 in
  let q1 := Vec.sub p2 p1 in
  steps <- defined (curve_steps len (dsteps s)) ;;
  counts_to steps ;;
  for_acc (Z.to_nat steps) 1 (p0, q0)
    (fun t loc =>
       let '(ps, ts) := loc in
       let tf := (D t / D steps)%float in
       let t1 := (1 - tf)%float in
       let p := Vec.add3 (Vec.scale p0 (Vec.SQ t1))
                         (Vec.scale p1 (2 * tf * t1))
                         (Vec.scale p2 (Vec.SQ tf)) in
       let t := Vec.add (Vec.scale q0 t1) (Vec.scale q1 tf) in
       biarc L fuel ps ts p t 1 ;;
       ret (p, t)) ;;
  modify (set_last_point to) ;;
  ret 0.

(** The first loop of [my_cubic_to] (source lines 302-316). *)
Definition cubic_length (control1 control2 to : FT_Vector) : M float :=
  s <- get ;;
  let last := last_point s in
  let n := csteps s in
  counts_to n ;;
  r <- for_acc (Z.to_nat n) 1 (last, 0%float)
         (fun t loc =>
            let tf := (D t / D n)%float in
            let x := (Vec.CUBE (1 - tf) * D (vx last)
                      + Vec.SQ (1 - tf) * 3 * tf * D (vx control1)
                      + Vec.SQ tf * (1 - tf) * 3 * D (vx control2)
                      + Vec.CUBE tf * D (vx to))%float in
            let y := (Vec.CUBE (1 - tf) * D (vy last)
                      + Vec.SQ (1 - tf) * 3 * tf * D (vy control1)
                      + Vec.SQ tf * (1 - tf) * 3 * D (vy control2)
                      + Vec.CUBE tf * D (vy to))%float in
            sample x y loc) ;;
  ret (snd r).

(** [int my_cubic_to(const FT_Vector* control1, const FT_Vector* control2,
    const FT_Vector *to, void* user)] *)
Definition my_cubic_to (control1 control2 to : FT_Vector) : M Z :=
  s <- get ;;
  len <- cubic_length control1 control2 to ;;
  steps <- defined (curve_steps len (dsteps s)) ;;
  let p0 := ft2p (last_point s) in
  let p1 := ft2p control1 in
  let p2 := ft2p control2 in
  let p3 := ft2p to in
  let q0 := Vec.sub p1 p0 in
  let q1 := Vec.sub p2 p1 in
  let q2 := Vec.sub p3 p2 in
  counts_to steps ;;
  for_acc (Z.to_nat steps) 1 (p0, q0)
    (fun t loc =>
       let '(ps, ts) := loc in
       let tf := (D t * 1 / D steps)%float in
       let t1 := (1 - tf)%float in
       let p := Vec.add4 (Vec.scale p0 (Vec.CUBE t1))
                         (Vec.scale p1 (3 * tf * Vec.SQ t1))
                         (Vec.scale p2 (3 * Vec.SQ tf * t1))
                         (Vec.scale p3 (Vec.CUBE tf)) in
       let t := Vec.add3 (Vec.scale q0 (Vec.SQ t1))
                         (Vec.scale q1 (2 * tf * t1))
                         (Vec.scale q2 (Vec.SQ tf)) in
       biarc L fuel ps ts p t 1 ;;
       ret (p, t)) ;;
  modify (set_last_point to) ;;
  ret 0.

End Curves.

(* ================================================================== *)
(** * The bitmap tracer (source lines 341-391) *)

(** [FT_Bitmap]: [buffer] holds the bytes of the rows, [pitch] bytes a
    row. *)
Record FT_Bitmap : Type := mkBitmap {
  rows : Z;
  pitch : Z;
  buffer : list Z
}.

(** The locals of [my_draw_bitmap].  [vbuf] is the array of 100 vectors;
    an element that has not been assigned yet is [None], and so is [v]
    at the start of a row. *)
Record tracer : Type := mkTracer {
  oldv : FT_Vector;
  vbuf : list (option FT_Vector);
  spans : Z;
  v : option FT_Vector
}.

Fixpoint store {A} (n : nat) (a : A) (l : list A) : option (list A) :=
  match l, n with
  | [], _ => None
  | _ :: l', O => Some (a :: l')
  | b :: l', S n' => option_map (cons b) (store n' a l')
  end.

(** [vbuf[spans++] = v;] *)
Definition push_span (w : FT_Vector) (loc : tracer) : M tracer :=
  if spans loc <? 0 then undefined
  else
    match store (Z.to_nat (spans loc)) (Some w) (vbuf loc) with
    | Some vbuf' => ret (mkTracer (oldv loc) vbuf' (spans loc + 1) (v loc))
    | None => undefined
    end.

(** [vbuf + k], dereferenced. *)
Definition span_at (loc : tracer) (k : Z) : M FT_Vector :=
  if k <? 0 then undefined
  else
    match nth_error (vbuf loc) (Z.to_nat k) with
    | Some (Some w) => ret w
    | _ => undefined
    end.

(** The body of the innermost loop (source lines 356-370), for bit
    [bits] of byte [i] of row [j]. *)
Definition trace_bit (x y linescale j i byte bits : Z) (loc : tracer)
  : M tracer :=
  s <- get ;;
  let mask := Z.shiftr 128 bits in
  let bit := Z.land byte mask in
  (if linescale =? 0 then undefined else ret tt) ;;
  let w := mkV (i * 8 + bits + x)
               (Z.quot ((y - j) * 64 * 64) linescale - Z.quot (64 * 32) linescale) in
  loc <- (if (oldbit s =? 0) && negb (bit =? 0) then
            let w := mkV (vx w + 8) (vy w) in
            push_span w (mkTracer w (vbuf loc) (spans loc) (Some w))
          else ret (mkTracer (oldv loc) (vbuf loc) (spans loc) (Some w))) ;;
  loc <- (if negb (oldbit s =? 0) && (bit =? 0) then
            match v loc with
            | Some w =>
                let w := mkV (vx w - 8) (vy w) in
                let loc := mkTracer (oldv loc) (vbuf loc) (spans loc) (Some w) in
                if vx (oldv loc) <? vx w then push_span w loc
                else ret (mkTracer (oldv loc) (vbuf loc) (spans loc - 1) (v loc))
            | None => undefined
            end
          else ret loc) ;;
  modify (set_oldbit bit) ;;
  ret loc.

(** [for(i = 0; i < pitch; i++)] with its inner loop over the eight bits. *)
Definition trace_row_bits (b : FT_Bitmap) (x y linescale j : Z) (loc : tracer)
  : M tracer :=
  let pitch := Z.abs (pitch b) in
  for_acc (Z.to_nat pitch) 0 loc
    (fun i loc =>
       byte <- (if j * pitch + i <? 0 then undefined
                else defined (nth_error (buffer b) (Z.to_nat (j * pitch + i)))) ;;
       for_acc 8 0 loc (trace_bit x y linescale j i byte)).

(** [for (int i=spans-1; i>=0; i--)], the body run on [n] values from
    [i] down. *)
Fixpoint for_down (n : nat) (i : Z) (body : Z -> M unit) : M unit :=
  match n with
  | O => ret tt
  | S n' => body i ;; for_down n' (i - 1) body
  end.

(** One pass of the loop over the rows (source lines 350-389). *)
Definition trace_row (b : FT_Bitmap) (x y linescale j : Z) (loc : tracer)
  : M tracer :=
  modify (set_oldbit 0) ;;
  let loc := mkTracer (oldv loc) (vbuf loc) 0 None in
  loc <- trace_row_bits b x y linescale j loc ;;
  s <- get ;;
  loc <- (if negb (oldbit s =? 0) then
            match v loc with
            | Some w =>
                let w := mkV (vx w - 8) (vy w) in
                push_span w (mkTracer (oldv loc) (vbuf loc) (spans loc) (Some w))
            | None => undefined
            end
          else ret loc) ;;
  modify (fun s => set_odd (if odd s =? 0 then 1 else 0) s) ;;
  let loc := mkTracer (oldv loc) (vbuf loc) (Z.quot (spans loc) 2) (v loc) in
  s <- get ;;
  (if negb (odd s =? 0) then
     for_down (Z.to_nat (spans loc)) (spans loc - 1)
       (fun i =>
          a <- span_at loc (1 + i * 2) ;; my_move_to a ;;
          c <- span_at loc (i * 2) ;; my_line_to c ;;
          ret tt)
   else
     for_up (Z.to_nat (spans loc)) 0
       (fun i =>
          a <- span_at loc (i * 2) ;; my_move_to a ;;
          c <- span_at loc (1 + i * 2) ;; my_line_to c ;;
          ret tt)) ;;
  ret loc.

(** [static void my_draw_bitmap(FT_Bitmap *b, FT_Int x, FT_Int y,
    int linescale)].  The integer arithmetic is that of mathematical
    integers: an overflow of [int] is undefined in C. *)
Definition my_draw_bitmap (b : FT_Bitmap) (x y linescale : Z) : M unit :=
  let loc := mkTracer (mkV 99999 0) (repeat None 100) 0 None in
  for_acc (Z.to_nat (rows b)) 0 loc (trace_row b x y linescale) ;;
  ret tt.

(* ================================================================== *)
(** * FreeType, as far as [render_char] and [main] use it *)

(** The calls [FT_Outline_Decompose] makes on the function table. *)
Inductive segment : Type :=
| MoveTo (to : FT_Vector)
| LineTo (to : FT_Vector)
| ConicTo (control to : FT_Vector)
| CubicTo (control1 control2 to : FT_Vector).

(** A face answers the calls of the program.  The pixel size in force is
    an explicit argument of the calls that depend on it.
    - [FT_Set_Pixel_Sizes w h], [FT_Load_Glyph w h glyph_index] and
      [FT_Render_Glyph w h glyph_index] give the error code of the call;
    - [glyph_bitmap], [glyph_bitmap_left], [glyph_bitmap_top] are the
      fields of [face->glyph] after [FT_Render_Glyph];
    - [outline_walk glyph_index offset] is the sequence of calls that
      [FT_Outline_Decompose] makes for the outline loaded at size (0, 64)
      and translated by [offset], and [outline_error] what it returns when
      every call returned 0;
    - [glyph_advance] is [face->glyph->advance] at size (0, 64). *)
Record FT_Face : Type := mkFace {
  FT_Set_Pixel_Sizes : Z -> Z -> Z;
  FT_Get_Char_Index : Z -> Z;
  FT_Load_Glyph : Z -> Z -> Z -> Z;
  FT_Render_Glyph : Z -> Z -> Z -> Z;
  glyph_bitmap : Z -> Z -> Z -> FT_Bitmap;
  glyph_bitmap_left : Z -> Z -> Z -> Z;
  glyph_bitmap_top : Z -> Z -> Z -> Z;
  outline_walk : Z -> Z -> list segment;
  outline_error : Z -> Z -> Z;
  glyph_advance : Z -> FT_Vector
}.

(** What the library start-up calls of [main] return. *)
Record FT_Library : Type := mkLibrary {
  FT_Init_FreeType : Z;
  FT_New_Face : Z;
  the_face : FT_Face
}.

(* ================================================================== *)
(** * Rendering one character (source lines 393-455) *)

Section Render.

Variable L : libm.
Variable fuel : nat.
Variable ft_errors : list (Z * string).

Definition emit (seg : segment) : M Z :=
  match seg with
  | MoveTo to => my_move_to to
  | LineTo to => my_line_to to
  | ConicTo control to => my_conic_to L fuel control to
  | CubicTo control1 control2 to => my_cubic_to L fuel control1 control2 to
  end.

(** [FT_Outline_Decompose]: the walk stops at the first call that returns
    an error. *)
Fixpoint FT_Outline_Decompose (walk : list segment) (final : Z) : M Z :=
  match walk with
  | [] => ret final
  | seg :: walk' =>
      e <- emit seg ;;
      if e =? 0 then FT_Outline_Decompose walk' final else ret e
  end.

(** [if(error) handle_ft_error(where, error, __LINE__);] *)
Definition check (where_ : string) (error line_ : Z) : M unit :=
  if negb (error =? 0) then handle_ft_error ft_errors where_ error line_
  else ret tt.

(** [static long int render_char(FT_Face face, wchar_t c, long int offset,
    int linescale)] *)
Definition render_char (face : FT_Face) (c offset linescale : Z) : M Z :=
  modify (set_charcode c) ;;
  let h := if negb (linescale =? 0) then linescale else 64 in
  check "FT_Set_Pixel_Sizes" (FT_Set_Pixel_Sizes face 4096 h) 403 ;;
  let glyph_index := FT_Get_Char_Index face c in
  if glyph_index =? 0 then ret (-1)
  else
    check "FT_Load_Glyph" (FT_Load_Glyph face 4096 h glyph_index) 414 ;;
    check "FT_Render_Glyph" (FT_Render_Glyph face 4096 h glyph_index) 416 ;;
    (if 0 <? linescale then
       my_draw_bitmap (glyph_bitmap face 4096 h glyph_index)
                      (glyph_bitmap_left face 4096 h glyph_index + offset)
                      (glyph_bitmap_top face 4096 h glyph_index)
                      linescale
     else ret tt) ;;
    check "FT_Set_Pixel_Sizes" (FT_Set_Pixel_Sizes face 0 64) 426 ;;
    check "FT_Load_Glyph" (FT_Load_Glyph face 0 64 glyph_index) 429 ;;
    error <- FT_Outline_Decompose (outline_walk face glyph_index offset)
                                  (outline_error face glyph_index offset) ;;
    check "FT_Outline_Decompose" error 447 ;;
    modify (set_advance (glyph_advance face glyph_index)) ;;
    ret (vx (glyph_advance face glyph_index)).

(* ================================================================== *)
(** * [main] (source lines 457-566) *)

(** What [mbtowc] makes of the next bytes of the text: a character, or
    -1 for a byte that starts no character. *)
Inductive mbchar : Type :=
| Wide (wc : Z)
| Invalid.

(** The command line after [getopt]: the argument of each option that
    was given, already converted by [atof] or [atoi]. *)
Record options : Type := mkOptions {
  opt_s : option float;
  opt_f : option string;
  opt_l : option Z;
  opt_L : option string;
  the_text : list mbchar
}.

(** The globals as C initialises them. *)
Definition initial_state : state :=
  mkState 10 200%float None 0 0 (mkV 0 0)
          (mkExtents 0 0 0 0) (mkExtents 0 0 0 0) (mkV 0 0) 0 0 [] [] 0.

(** The globals when the option loop of [main] is over (lines 468-501). *)
Definition configured (o : options) : state :=
  mkState 100
          (match opt_s o with Some d => d | None => 200%float end)
          (opt_L o) 0 1 (mkV 0 0)
          (mkExtents 0 0 0 0) (mkExtents 0 0 0 0) (mkV 0 0) 0 0 [] [] 0.

Definition configured_linescale (o : options) : Z :=
  match opt_l o with
  | Some n => if n <? 24 then 24 else n
  | None => 0
  end.

(** One DIMENSION record of the font-generation loop, with the layer that
    follows it. *)
Definition dimension (fmt : string) (value : Z) : M unit :=
  printf fmt [AInt value] ;;
  maybe_output_layer.

(** The body of [for(wc=' '; wc<127; wc++)] (source lines 532-545). *)
Definition genfont_char (face : FT_Face) (offset linescale wc : Z) : M unit :=
  r <- render_char face wc offset linescale ;;
  if r <? 0 then ret tt
  else
    modify (fun s => set_line_extents
                       (extents_add_extents (line_extents s) (glyph_extents s)) s) ;;
    s <- get ;;
    dimension (" 0" ++ nl ++ "DIMENSION" ++ nl ++ " 70" ++ nl ++ "70" ++ nl
               ++ " 1" ++ nl ++ "minx" ++ nl ++ " 13" ++ nl ++ "%ld" ++ nl)
              (minx (glyph_extents s)) ;;
    dimension (" 0" ++ nl ++ "DIMENSION" ++ nl ++ " 70" ++ nl ++ "70" ++ nl
               ++ " 1" ++ nl ++ "maxx" ++ nl ++ "13" ++ nl ++ "%ld" ++ nl)
              (maxx (glyph_extents s)) ;;
    dimension (" 0" ++ nl ++ "DIMENSION" ++ nl ++ " 70" ++ nl ++ "6" ++ nl
               ++ " 1" ++ nl ++ "miny" ++ nl ++ "23" ++ nl ++ "%ld" ++ nl)
              (miny (glyph_extents s)) ;;
    dimension (" 0" ++ nl ++ "DIMENSION" ++ nl ++ " 70" ++ nl ++ "6" ++ nl
               ++ " 1" ++ nl ++ "maxy" ++ nl ++ "23" ++ nl ++ "%ld" ++ nl)
              (maxy (glyph_extents s)) ;;
    dimension (" 0" ++ nl ++ "DIMENSION" ++ nl ++ " 70" ++ nl ++ "70" ++ nl
               ++ " 1" ++ nl ++ "advx" ++ nl ++ "13" ++ nl ++ "%ld" ++ nl)
              (vx (advance s)) ;;
    dimension (" 0" ++ nl ++ "DIMENSION" ++ nl ++ " 70" ++ nl ++ "6" ++ nl
               ++ " 1" ++ nl ++ "advy" ++ nl ++ "23" ++ nl ++ "%ld" ++ nl)
              (vy (advance s)).

(** [if(genfont) { for(wc=' '; wc<127; wc++) ... }] *)
Definition genfont_loop (face : FT_Face) (offset linescale : Z) : M unit :=
  s <- get ;;
  if negb (genfont s =? 0) then
    for_up 95 32 (genfont_char face offset linescale)
  else ret tt.

(** [while(l && *s)] (source lines 549-561); the local [offset] is
    threaded through. *)
Fixpoint text_loop (face : FT_Face) (linescale : Z) (txt : list mbchar)
  (offset : Z) : M Z :=
  match txt with
  | [] => ret offset
  | Invalid :: txt' => text_loop face linescale txt' offset
  | Wide wc :: txt' =>
      modify (fun s => set_glyph_extents (extents_reset (glyph_extents s)) s) ;;
      off <- render_char face wc offset linescale ;;
      offset <- (if 0 <=? off then
                   s <- get ;;
                   let offset := if genfont s =? 0 then offset + off else offset in
                   modify (fun s => set_line_extents
                             (extents_add_extents (line_extents s) (glyph_extents s)) s) ;;
                   ret offset
                 else ret offset) ;;
      text_loop face linescale txt' offset
  end.

(** [main], from the end of the option loop on: the start state is
    [configured o] and [linescale] is [configured_linescale o]. *)
Definition main (o : options) (lib : FT_Library) : M Z :=
  match opt_f o with
  | None =>
      fprintf_stderr ("Please use -f to specify .ttf font file" ++ nl) [] ;;
      ret 99
  | Some _ =>
      let linescale := configured_linescale o in
      let face := the_face lib in
      check "FT_Init_FreeType" (FT_Init_FreeType lib) 506 ;;
      check "FT_New_Face" (FT_New_Face lib) 509 ;;
      check "FT_Set_Pixel_Sizes" (FT_Set_Pixel_Sizes face 0 64) 517 ;;
      printf ("  0" ++ nl ++ "SECTION" ++ nl ++ "  2" ++ nl ++ "ENTITIES" ++ nl) [] ;;
      modify (fun s => set_line_extents (extents_reset (line_extents s)) s) ;;
      genfont_loop face 0 linescale ;;
      text_loop face linescale (the_text o) 0 ;;
      printf ("  0" ++ nl ++ "ENDSEC" ++ nl ++ "  0" ++ nl ++ "EOF" ++ nl) [] ;;
      ret 0
  end.

End Render.

(* ================================================================== *)
(** * Specification-side definitions *)

(** ** Extents: the states reachable from a reset, with the points fed in *)

Definition in_bounds (p : FT_Vector) : Prop :=
  (-2000000000 < vx p < 2000000000) /\ (-2000000000 < vy p < 2000000000).

(** [reach e pts]: [e] is what a tracker holds after a reset followed by
    calls of [extents_add_point] and [extents_add_extents]; [pts] lists
    the points passed in.  The box merged by [extents_add_extents] is
    either a tracker of the same kind, which passes in its own points, or
    any box with its bounds in order, which passes in its two extreme
    corners. *)
Inductive reach : extents -> list FT_Vector -> Prop :=
| reach_reset (e : extents) :
    reach (extents_reset e) []
| reach_point (e : extents) (pts : list FT_Vector) (p : FT_Vector) :
    reach e pts -> in_bounds p ->
    reach (extents_add_point e p) (p :: pts)
| reach_extents (e1 e2 : extents) (pts1 pts2 : list FT_Vector) :
    reach e1 pts1 -> reach e2 pts2 ->
    reach (extents_add_extents e1 e2) (pts2 ++ pts1)
| reach_box (e1 e2 : extents) (pts1 : list FT_Vector) :
    reach e1 pts1 ->
    minx e2 <= maxx e2 -> miny e2 <= maxy e2 ->
    in_bounds (mkV (minx e2) (miny e2)) ->
    in_bounds (mkV (maxx e2) (maxy e2)) ->
    reach (extents_add_extents e1 e2)
          (mkV (minx e2) (miny e2) :: mkV (maxx e2) (maxy e2) :: pts1).

(** The least and the greatest element of a non-empty list. *)
Definition minimum (z : Z) (zs : list Z) : Z := fold_right Z.min z zs.
Definition maximum (z : Z) (zs : list Z) : Z := fold_right Z.max z zs.

(** The smallest axis-aligned box around the points [p :: pts]. *)
Definition bounding_box (p : FT_Vector) (pts : list FT_Vector) : extents :=
  mkExtents (minimum (vx p) (map vx pts)) (maximum (vx p) (map vx pts))
            (minimum (vy p) (map vy pts)) (maximum (vy p) (map vy pts)).

(** [inside e p]: the box [e] contains the point [p]. *)
Definition inside (e : extents) (p : FT_Vector) : Prop :=
  minx e <= vx p <= maxx e /\ miny e <= vy p <= maxy e.

(** [wider e e']: no bound of [e'] is tighter than that of [e]. *)
Definition wider (e e' : extents) : Prop :=
  minx e' <= minx e /\ maxx e <= maxx e' /\
  miny e' <= miny e /\ maxy e <= maxy e'.

(** The bounds that the code maintains, seeded with the two sentinels. *)
Definition seeded (pts : list FT_Vector) : extents :=
  mkExtents (minimum 2000000000 (map vx pts))
            (maximum (-2000000000) (map vx pts))
            (minimum 2000000000 (map vy pts))
            (maximum (-2000000000) (map vy pts)).

(** ** Layer tags *)

(** The text of a DXF group: the code on one line, the value on the
    next. *)
Definition group (code value : string) : list ochar :=
  text (code ++ nl ++ value ++ nl).

(** The layer tag of the glyph being drawn, as the spec words it. *)
Definition layer_tag (genfont charcode : Z) (layer : option string)
  : list ochar :=
  if genfont =? 0 then
    match layer with
    | Some name => group "  8" name
    | None => []
    end
  else if (32 <=? charcode) && (charcode <=? 126)
       then group "  8" (String (ascii_of_N (Z.to_N charcode)) EmptyString)
       else group "  8" ("_" ++ decimal charcode).

(** ** DXF records *)

(** A group whose value is a double printed with [%.4f]. *)
Definition fgroup (code : string) (d : float) : list ochar :=
  text (code ++ nl) ++ [F4 d] ++ text nl.

(** A straight polyline vertex: the coordinates under the codes 10 and
    20, and no bulge. *)
Definition vertex (p : P) : list ochar :=
  fgroup "  10" (px p) ++ fgroup " 20" (py p).

(** An arc vertex: the bulge under the code 42, then the coordinates. *)
Definition bulge_vertex (bulge : float) (p : P) : list ochar :=
  fgroup "  42" bulge ++ fgroup " 10" (px p) ++ fgroup "  20" (py p).

(** The start of a polyline, as [my_move_to] prints it before the layer
    tag. *)
Definition polyline_start (to : FT_Vector) : list ochar :=
  group "  0" "LWPOLYLINE" ++ group "  10" (decimal (vx to) ++ ".000")
  ++ group " 20" (decimal (vy to) ++ ".000").

(** A straight vertex with integer coordinates, as [my_line_to] prints
    it. *)
Definition plain_vertex (to : FT_Vector) : list ochar :=
  group "  10" (decimal (vx to) ++ ".000")
  ++ group " 20" (decimal (vy to) ++ ".000").

(** What [arc] prints when its denominator vanishes: a G-code move. *)
Definition gcode_move (p : P) : list ochar :=
  text "G1 X[" ++ [F4 (px p)] ++ text "*#3+#5] Y[" ++ [F4 (py p)]
  ++ text ("*#3+#6]" ++ nl).

(** The group codes of a stretch of output: the first line, and then
    every second line, with the blanks in front removed.  A well-formed
    DXF stream yields numbers only. *)
Fixpoint lines_of (cur : list ochar) (o : list ochar) : list (list ochar) :=
  match o with
  | [] => match cur with [] => [] | _ => [rev cur] end
  | Ch c :: o' =>
      if Ascii.eqb c (ascii_of_nat 10) then rev cur :: lines_of [] o'
      else lines_of (Ch c :: cur) o'
  | F4 d :: o' => lines_of (F4 d :: cur) o'
  end.

Fixpoint every_other {A} (l : list A) : list A :=
  match l with
  | a :: _ :: l' => a :: every_other l'
  | [a] => [a]
  | [] => []
  end.

Fixpoint unblank (l : list ochar) : list ochar :=
  match l with
  | Ch " " :: l' => unblank l'
  | _ => l
  end.

Definition group_codes (o : list ochar) : list (list ochar) :=
  map unblank (every_other (lines_of [] o)).

(** ** The biarc fit, in the words of the spec *)

(** These definitions are written from the specification, without the
    vector functions of the program: the theorems compare them with what
    [biarc] and [arc] compute. *)

Module BiarcSpec.
Local Open Scope float_scope.

(** A direction scaled to length one; a vector of length zero becomes
    the zero vector. *)
Definition normalized (t : P) : P :=
  let m := sqrt (px t * px t + py t * py t) in
  if m =? 0 then mkP 0 0 else mkP (px t / m) (py t / m).

(** The inner product [u . w]. *)
Definition inner (u w : P) : float := px u * px w + py u * py w.

(** The larger of two numbers. *)
Definition larger (x y : float) : float := if x <? y then y else x.

Section Fit.

Variables (p0 ts p4 te : P) (r : float).

(** The normalized tangents. *)
Definition ts' : P := normalized ts.
Definition te' : P := normalized te.

(** [v = p0 - p4] *)
Definition v : P := mkP (px p0 - px p4) (py p0 - py p4).

(** The coefficients of the quadratic in beta:
    [a = 2r(ts.te - 1)], [b = 2(v.(r ts + te))], [c = v.v]. *)
Definition a : float := 2 * r * (inner ts' te' - 1).
Definition b : float :=
  2 * inner v (mkP (r * px ts' + px te') (r * py ts' + py te')).
Definition c : float := inner v v.
Definition disc : float := b * b - 4 * a * c.

(** The two roots, and the larger of them. *)
Definition beta1 : float := (- b - sqrt disc) / 2 / a.
Definition beta2 : float := (- b + sqrt disc) / 2 / a.
Definition beta : float := larger beta1 beta2.

(** No biarc: [a] is zero, the discriminant is negative, or the larger
    root is not positive. *)
Definition falls_back : bool := (a =? 0) || (disc <? 0) || (beta <=? 0).

(** [alpha = beta r], [p1 = p0 + alpha ts], [p3 = p4 - beta te]. *)
Definition alpha : float := beta * r.
Definition p1 : P := mkP (px p0 + alpha * px ts') (py p0 + alpha * py ts').
Definition p3 : P := mkP (px p4 - beta * px te') (py p4 - beta * py te').

(** The joint: [p1] and [p3] weighted by beta and alpha. *)
Definition p2 : P :=
  mkP (beta / (alpha + beta) * px p1 + alpha / (alpha + beta) * px p3)
      (beta / (alpha + beta) * py p1 + alpha / (alpha + beta) * py p3).

(** The tangent at the joint, [tm = p3 - p2]. *)
Definition tm : P := mkP (px p3 - px p2) (py p3 - py p2).

End Fit.
End BiarcSpec.

(** ** One arc as a bulge, in the words of the spec *)

Module ArcSpec.
Local Open Scope float_scope.

Section Arc.

Variable L : libm.
Variables (p1 p2 d : P).

(** The entry tangent, normalized, and [p = p2 - p1]. *)
Definition d' : P := BiarcSpec.normalized d.
Definition chord : P := mkP (px p2 - px p1) (py p2 - py p1).

(** The perpendicular offset [den = 2(p.y d.x - p.x d.y)]; the two
    points are taken for collinear along the tangent when its magnitude
    is below [1e-10]. *)
Definition den : float := 2 * (py chord * px d' - px chord * py d').
Definition collinear : bool := abs den <? 0x1.b7cdfd9d7bdbbp-34.

(** The signed radius [r = -(p.p)/den] and the centre, off [p1] by the
    radius across the tangent. *)
Definition radius : float := - BiarcSpec.inner chord chord / den.
Definition centre : P :=
  mkP (px p1 + py d' * radius) (py p1 + - px d' * radius).

(** The angles of the two ends, seen from the centre. *)
Definition start : float := atan2 L (py p1 - py centre) (px p1 - px centre).
Definition finish : float := atan2 L (py p2 - py centre) (px p2 - px centre).

(** A full turn, [2 pi]. *)
Definition turn : float := 2 * 0x1.921fb54442d18p+1.

(** The end angle after [k] adjustments: a negative radius sweeps with
    the angle increasing, any other with the angle decreasing. *)
Definition adjusted (k : nat) : float :=
  Nat.iter k (fun en => if radius <? 0 then en + turn else en - turn) finish.

(** The end angle [en] has not gone past the start angle in the
    direction of the sweep. *)
Definition behind (en : float) : bool :=
  if radius <? 0 then en <=? start else start <=? en.

(** [k] adjustments are needed, and no more: the end angle is behind
    the start before each of them, and past it after the last. *)
Definition settles (k : nat) : Prop :=
  (forall j : nat, (j < k)%nat -> behind (adjusted j) = true) /\
  behind (adjusted k) = false.

(** The bulge, [tan(|en - start| / 4)], negated when the radius is
    positive. *)
Definition bulge (k : nat) : float :=
  let t := tan L (abs (adjusted k - start) / 4) in
  if 0 <? radius then - t else t.

(** The number of adjustments when the two angles lie between [-pi]
    and [pi]: none, one or two. *)
Definition turns : nat :=
  if behind finish then (if behind (adjusted 1) then 2%nat else 1%nat)
  else 0%nat.

End Arc.
End ArcSpec.

(** What C requires of [atan2]: an angle between [-pi] and [pi], or a
    NaN (when an argument is one). *)
Definition angle (a : float) : Prop :=
  is_nan a = true \/
  ((- Num.M_PI <=? a)%float = true /\ (a <=? Num.M_PI)%float = true).

Definition atan2_in_range (L : libm) : Prop :=
  forall y x : float, angle (atan2 L y x).

(** ** The values of doubles *)

(** The value of a finite double, in units of [2^-1074]. *)
Definition val (x : spec_float) : Z :=
  match x with
  | S754_finite s m e =>
      if s then - (Z.pos m * 2 ^ (e + 1074)) else Z.pos m * 2 ^ (e + 1074)
  | _ => 0
  end.

Definition finite_or_zero (x : spec_float) : bool :=
  match x with
  | S754_zero _ | S754_finite _ _ _ => true
  | _ => false
  end.

(** The mantissa of [M_PI], and its value. *)
Definition PIm : positive := 7074237752028440.
Definition Vpi : Z := Z.pos PIm * 2 ^ 1023.


(** ** The length estimate and the step count, in the words of the spec *)

Module CurveSpec.
Local Open Scope float_scope.



Section Estimate.

Variable L : libm.




End Estimate.


End CurveSpec.

(** ** Concrete runs *)

(** A libm for the concrete runs below: [hypot] by its defining formula,
    [atan2] and [tan] by placeholders (the runs that use them say so). *)
Definition sample_libm : libm :=
  mkLibm (fun _ _ => 0%float) (fun a => a)
         (fun a b => sqrt (a * a + b * b)%float).

(** The options [-f font.ttf], and nothing else. *)
Definition plain_options : options :=
  mkOptions None (Some "font.ttf"%string) None None [].

(** ** Frame properties of runs *)

(** [keeps f m]: a run of [m] that returns leaves the component [f] of
    the state as it was. *)
Definition keeps {B A : Type} (f : state -> B) (m : M A) : Prop :=
  forall s a s', m s = Ret a s' -> f s' = f s.

(** [grows m]: a run of [m] that returns leaves no bound of
    [glyph_extents] tighter than it was. *)
Definition grows {A : Type} (m : M A) : Prop :=
  forall s a s', m s = Ret a s' -> wider (glyph_extents s) (glyph_extents s').


(** [drawing_frame f]: the component [f] of the state is none of those
    that the drawing callbacks assign. *)
Definition drawing_frame {B : Type} (f : state -> B) : Prop :=
  (forall o s, f (set_out o s) = f s) /\
  (forall p s, f (set_last_point p s) = f s) /\
  (forall e s, f (set_glyph_extents e s) = f s) /\
  (forall n s, f (set_biarc_calls n s) = f s).

(** [tracer_frame f]: nor is it a static of [my_draw_bitmap]. *)
Definition tracer_frame {B : Type} (f : state -> B) : Prop :=
  drawing_frame f /\
  (forall b s, f (set_oldbit b s) = f s) /\
  (forall b s, f (set_odd b s) = f s).

(** ** Diagnostics and DIMENSION records *)

(** The line that [handle_ft_error] writes to stderr. *)
Definition fatal_message (ft_errors : list (Z * string)) (where_ : string)
  (f x : Z) : list ochar :=
  text ("Fatal error in " ++ where_ ++ ": ") ++
  match find_error ft_errors f with
  | Some msg => text (msg ++ " (" ++ decimal f ++ ")")
  | None => text (decimal f)
  end ++
  text (" at line:" ++ decimal x ++ nl).

(** The state in which [handle_ft_error where f x] leaves the program. *)
Definition died (ft_errors : list (Z * string)) (where_ : string) (f x : Z)
  (s : state) : state :=
  set_err (err s ++ fatal_message ft_errors where_ f x) s.

(** The outcome of a fatal FreeType failure at the source line [line_]. *)
Definition fatal {A : Type} (ft_errors : list (Z * string)) (where_ : string)
  (error line_ : Z) (st : state) : result A :=
  Exit line_ (died ft_errors where_ error line_ st).

(** A DIMENSION record: entity type, flag (group 70), the name of the
    metric (group 1) and its value under [code]. *)
Definition dimension_record (flag name code : string) (value : Z)
  : list ochar :=
  group " 0" "DIMENSION" ++ group " 70" flag ++ group " 1" name
  ++ group code (decimal value).

(** The six records of a glyph, each followed by the layer tag [tag]. *)
Definition glyph_dimensions (e : extents) (adv : FT_Vector)
  (tag : list ochar) : list ochar :=
  dimension_record "70" "minx" " 13" (minx e) ++ tag ++
  dimension_record "70" "maxx" "13" (maxx e) ++ tag ++
  dimension_record "6" "miny" "23" (miny e) ++ tag ++
  dimension_record "6" "maxy" "23" (maxy e) ++ tag ++
  dimension_record "70" "advx" "13" (vx adv) ++ tag ++
  dimension_record "6" "advy" "23" (vy adv) ++ tag.

(** ** A two-glyph font for the concrete runs *)

(** Glyph 36 ('A') is the triangle (100,0) (500,0) (300,700); glyph 37
    ('B') is the square from (1000,200) to (1400,600); no other character
    has a glyph.  [fail site code] makes the call at the source line
    [site] of [render_char] return [code]; [fail 0 0] never fails. *)
Definition shifted (offset x y : Z) : FT_Vector := mkV (x + offset) y.

Definition font (site code : Z) : FT_Face :=
  mkFace
    (fun w _ => if ((w =? 4096) && (site =? 403)) || ((w =? 0) && (site =? 426))
                then code else 0)
    (fun c => if c =? 65 then 36 else if c =? 66 then 37 else 0)
    (fun w _ _ => if ((w =? 4096) && (site =? 414)) || ((w =? 0) && (site =? 429))
                  then code else 0)
    (fun _ _ _ => if site =? 416 then code else 0)
    (fun _ _ _ => mkBitmap 0 0 [])
    (fun _ _ _ => 0)
    (fun _ _ _ => 0)
    (fun glyph_index offset =>
       if glyph_index =? 36 then
         [MoveTo (shifted offset 100 0); LineTo (shifted offset 500 0);
          LineTo (shifted offset 300 700); LineTo (shifted offset 100 0)]
       else
         [MoveTo (shifted offset 1000 200); LineTo (shifted offset 1400 200);
          LineTo (shifted offset 1400 600); LineTo (shifted offset 1000 600);
          LineTo (shifted offset 1000 200)])
    (fun _ _ => if site =? 447 then code else 0)
    (fun _ => mkV 1500 0).

(** A cut of FreeType's error table. *)
Definition sample_errors : list (Z * string) :=
  [(0, "no error"); (1, "cannot open resource"); (6, "invalid argument")]%string.

(** The library start-up succeeds and gives the two-glyph font. *)
Definition sample_library : FT_Library := mkLibrary 0 0 (font 0 0).

(** ** The winding toggle of the bitmap tracer *)

(** [odd = !odd;] *)
Definition flip (o : Z) : Z := if o =? 0 then 1 else 0.

(** A call of [my_draw_bitmap] with its arguments. *)
Record tracing : Type := mkTracing {
  t_bitmap : FT_Bitmap;
  t_x : Z;
  t_y : Z;
  t_linescale : Z
}.

(** The bitmap-tracing calls of a run of the program, one after the
    other. *)
Fixpoint trace_bitmaps (calls : list tracing) : M unit :=
  match calls with
  | [] => ret tt
  | c :: calls' =>
      my_draw_bitmap (t_bitmap c) (t_x c) (t_y c) (t_linescale c) ;;
      trace_bitmaps calls'
  end.

(** The number of rows that the calls process. *)
Fixpoint total_rows (calls : list tracing) : Z :=
  match calls with
  | [] => 0
  | c :: calls' => Z.max 0 (rows (t_bitmap c)) + total_rows calls'
  end.

(** One row of 32 pixels, the pixels 2 to 29 set: a single span. *)
Definition bar : FT_Bitmap := mkBitmap 1 4 [63; 255; 255; 252].

(** One row and two rows of 8 pixels, all clear. *)
Definition blank1 : FT_Bitmap := mkBitmap 1 1 [0].
Definition blank2 : FT_Bitmap := mkBitmap 2 1 [0; 0].

(* ================================================================== *)
(** * Further specification-side definitions *)

(** ** Extents as a fold over points *)

(** The box that holds the single point [p]. *)
Definition point_box (p : FT_Vector) : extents :=
  mkExtents (vx p) (vx p) (vy p) (vy p).

(** The tracker [e] after [extents_add_point] has been called on each
    point of [pts], first to last. *)
Definition add_points (e : extents) (pts : list FT_Vector) : extents :=
  fold_left extents_add_point pts e.

(** ** Finite doubles *)

(** A double that is neither NaN nor an infinity. *)
Definition finite (x : float) : bool :=
  match Prim2SF x with
  | S754_zero _ | S754_finite _ _ _ => true
  | S754_infinity _ | S754_nan => false
  end.

(** A coarse libm for concrete runs: [atan2] gives the angle of the
    diagonal of the quadrant its point lies in, a quarter or three
    quarters of [pi] with the sign of [y]. *)
Definition quadrant_libm : libm :=
  mkLibm (fun y x =>
            if (x <? 0)%float
            then (if (y <? 0)%float then (- 0x1.2d97c7f3321d2p+1)%float
                  else 0x1.2d97c7f3321d2p+1%float)
            else (if (y <? 0)%float then (- 0x1.921fb54442d18p-1)%float
                  else 0x1.921fb54442d18p-1%float))
         (fun a => a)
         (fun a b => sqrt (a * a + b * b)%float).

(** ** Outlines *)

(** The point at which a segment ends. *)
Definition segment_end (seg : segment) : FT_Vector :=
  match seg with
  | MoveTo to | LineTo to | ConicTo _ to | CubicTo _ _ to => to
  end.

(** A segment that is drawn without a curve. *)
Definition is_straight (seg : segment) : bool :=
  match seg with
  | MoveTo _ | LineTo _ => true
  | ConicTo _ _ | CubicTo _ _ _ => false
  end.

(** What the callbacks print for a straight segment, [tag] being the
    layer tag in force. *)
Definition straight_record (tag : list ochar) (seg : segment) : list ochar :=
  match seg with
  | MoveTo to => polyline_start to ++ tag
  | LineTo to => plain_vertex to
  | ConicTo _ _ | CubicTo _ _ _ => []
  end.

(** A stretch of output without the text of a [%.4f] conversion. *)
Definition textual (o : list ochar) : bool :=
  forallb (fun c => match c with Ch _ => true | F4 _ => false end) o.

(** [ends Q m]: a run of [m] that returns does so with a value and a
    state that satisfy [Q]. *)
Definition ends {A : Type} (Q : A -> state -> Prop) (m : M A) : Prop :=
  forall s a s', m s = Ret a s' -> Q a s'.

(** ** Blank bitmaps *)

(** Every byte that [my_draw_bitmap] reads from the bitmap is there and
    is zero. *)
Definition blank (b : FT_Bitmap) : Prop :=
  forall k, 0 <= k < rows b * Z.abs (pitch b) ->
    nth_error (buffer b) (Z.to_nat k) = Some 0.

(** ** Outcomes of runs *)

(** The calls of [handle_ft_error] in the source: the name each passes,
    with the line of the call. *)
Definition call_sites : list (string * Z) :=
  [("FT_Set_Pixel_Sizes", 403); ("FT_Load_Glyph", 414);
   ("FT_Render_Glyph", 416); ("FT_Set_Pixel_Sizes", 426);
   ("FT_Load_Glyph", 429); ("FT_Outline_Decompose", 447);
   ("FT_Init_FreeType", 506); ("FT_New_Face", 509);
   ("FT_Set_Pixel_Sizes", 517)]%string.

(** The settings of the program: what the option loop of [main]
    assigns. *)
Definition same_settings (s s' : state) : Prop :=
  csteps s' = csteps s /\ dsteps s' = dsteps s /\
  genfont s' = genfont s /\ layer s' = layer s.

(** [steady s s']: from [s] to [s'] characters have only been added to
    the end of stdout, and stderr and the settings are as they were. *)
Definition steady (s s' : state) : Prop :=
  (exists w, out s' = out s ++ w) /\ err s' = err s /\ same_settings s s'.

(** [fatal_exit ft_errors status s s']: from [s] to [s'] characters have
    only been added to the end of stdout, and stderr has received one
    line, the report of a failed library call from one of the call sites,
    whose line number is [status]. *)
Definition fatal_exit (ft_errors : list (Z * string)) (status : Z)
  (s s' : state) : Prop :=
  (exists w, out s' = out s ++ w) /\
  (exists where_ f,
     f <> 0 /\ In (where_, status) call_sites /\
     err s' = err s ++ fatal_message ft_errors where_ f status) /\
  same_settings s s'.

(** [outcome ft_errors m]: a run of [m] that returns is [steady], and one
    that ends the program is a [fatal_exit]. *)
Definition outcome {A : Type} (ft_errors : list (Z * string)) (m : M A)
  : Prop :=
  forall s,
    match m s with
    | Ret _ s' => steady s s'
    | Exit status s' => fatal_exit ft_errors status s s'
    | Undefined | OutOfFuel => True
    end.

(** ** Runs that draw nothing *)

(** [skipped s s']: nothing has been printed, drawn or merged between
    [s] and [s']. *)
Definition skipped (s s' : state) : Prop :=
  out s' = out s /\ err s' = err s /\ line_extents s' = line_extents s /\
  advance s' = advance s /\ last_point s' = last_point s /\
  genfont s' = genfont s /\ biarc_calls s' = biarc_calls s.

(** A face without a single glyph; every call succeeds. *)
Definition empty_font : FT_Face :=
  mkFace (fun _ _ => 0) (fun _ => 0) (fun _ _ _ => 0) (fun _ _ _ => 0)
         (fun _ _ _ => mkBitmap 0 0 []) (fun _ _ _ => 0) (fun _ _ _ => 0)
         (fun _ _ => []) (fun _ _ => 0) (fun _ => mkV 0 0).

(** ** The pen of the text loop *)

(** How far a character moves the pen when it does: the x advance of its
    glyph, if it has a glyph and the advance is not negative. *)
Definition pen_step (face : FT_Face) (wc : Z) : Z :=
  let g := FT_Get_Char_Index face wc in
  if g =? 0 then 0
  else if 0 <=? vx (glyph_advance face g) then vx (glyph_advance face g)
       else 0.

Fixpoint pen_travel (face : FT_Face) (txt : list mbchar) : Z :=
  match txt with
  | [] => 0
  | Invalid :: txt' => pen_travel face txt'
  | Wide wc :: txt' => pen_step face wc + pen_travel face txt'
  end.

(** ** The hatch lines of the bitmap tracer *)

(** The height at which row [j] of a bitmap is drawn (source line 358). *)
Definition row_y (y linescale j : Z) : Z :=
  Z.quot ((y - j) * 64 * 64) linescale - Z.quot (64 * 32) linescale.

(** [z] is a value of the type [int]. *)
Definition is_int (z : Z) : Prop := Num.INT_MIN <= z <= Num.INT_MAX.

(** No [int] expression of [my_draw_bitmap] overflows: the arguments are
    of the type [int], [abs(b->pitch)] is one, and so is every value on
    the way to [j * pitch + i], to [i*8+bits+x] and to
    [(y-j)*64*64/linescale-64*32/linescale], for every row [j], byte [i]
    and bit [bits] that the loops reach. *)
Definition tracer_ints (b : FT_Bitmap) (x y linescale : Z) : Prop :=
  is_int x /\ is_int y /\ is_int linescale /\
  is_int (pitch b) /\ is_int (Z.abs (pitch b)) /\
  forall j : Z, 0 <= j < rows b ->
    is_int (y - j) /\ is_int ((y - j) * 64) /\ is_int ((y - j) * 64 * 64) /\
    is_int (Z.quot ((y - j) * 64 * 64) linescale) /\
    is_int (Z.quot ((y - j) * 64 * 64) linescale - Z.quot (64 * 32) linescale) /\
    forall i bits : Z, 0 <= i < Z.abs (pitch b) -> 0 <= bits < 8 ->
      is_int (j * Z.abs (pitch b)) /\ is_int (j * Z.abs (pitch b) + i) /\
      is_int (i * 8) /\ is_int (i * 8 + bits) /\ is_int (i * 8 + bits + x).

(** A hatch line of row [j], from [x1] to [x2]: a polyline of two
    vertices at the height of the row. *)
Definition hatch (tag : list ochar) (y linescale : Z) (h : Z * Z * Z)
  : list ochar :=
  let '(j, x1, x2) := h in
  polyline_start (mkV x1 (row_y y linescale j)) ++ tag
  ++ plain_vertex (mkV x2 (row_y y linescale j)).

(** [hatched y linescale lo hi s s']: from [s] to [s'] the output has
    grown by hatch lines of rows [lo] to [hi - 1], and the layer tag is
    still the same. *)
Definition hatched (y linescale lo hi : Z) (s s' : state) : Prop :=
  (exists hs : list (Z * Z * Z),
     out s' = out s ++
       flat_map (hatch (layer_tag (genfont s) (charcode s) (layer s)) y linescale) hs /\
     Forall (fun h => lo <= fst (fst h) < hi) hs) /\
  genfont s' = genfont s /\ charcode s' = charcode s /\ layer s' = layer s.

(** What the tracer knows in the middle of a row drawn at height [Y]:
    the span ends recorded so far, and the current point, are at that
    height. *)
Definition row_inv (Y : Z) (loc : tracer) : Prop :=
  (forall k, 0 <= k < spans loc ->
     exists xx, nth_error (vbuf loc) (Z.to_nat k) = Some (Some (mkV xx Y))) /\
  (forall w, v loc = Some w -> vy w = Y).

(** ** DXF groups *)

(** A stretch of output without a line feed. *)
Definition newline_free (o : list ochar) : bool :=
  forallb (fun c => match c with
                    | Ch a => negb (Ascii.eqb a (ascii_of_nat 10))
                    | F4 _ => true
                    end) o.

(** A DXF group: the code on one line and the value on the next. *)
Definition dxf_group (p : string * list ochar) : list ochar :=
  text (fst p) ++ Ch (ascii_of_nat 10) :: snd p ++ [Ch (ascii_of_nat 10)].

Definition dxf_groups (ps : list (string * list ochar)) : list ochar :=
  flat_map dxf_group ps.

(** The group codes of the records with integer coordinates, as the
    format strings of the program write them. *)
Definition dxf_codes : list string :=
  ["  0"; "  2"; "  8"; "  10"; " 20"; " 0"; " 70"; " 1"; " 13"; "13"; "23"]%string.

(** A group with one of those codes and a value that fits on a line. *)
Definition well_formed (p : string * list ochar) : Prop :=
  In (fst p) dxf_codes /\ newline_free (snd p) = true.

(** [grouped s s']: from [s] to [s'] stdout has grown by well-formed
    groups, and the layer of the glyphs is named as before. *)
Definition grouped (s s' : state) : Prop :=
  (exists ps, out s' = out s ++ dxf_groups ps /\ Forall well_formed ps) /\
  genfont s' = genfont s /\ layer s' = layer s.

(** Every outline of the face is made of straight segments. *)
Definition straight_face (face : FT_Face) : Prop :=
  forall glyph_index offset,
    forallb is_straight (outline_walk face glyph_index offset) = true.

(** ** The records of a drawing *)

(** What the program writes to stdout, one piece at a time: a DXF group,
    or the G-code move that [arc] prints when its denominator vanishes. *)
Inductive item : Type :=
| Group (code : string) (value : list ochar)
| Gcode (p : P).

Definition render (i : item) : list ochar :=
  match i with
  | Group code value => dxf_group (code, value)
  | Gcode p => gcode_move p
  end.

(** All the group codes of the program, those of the arc vertices
    included, as its format strings write them. *)
Definition all_codes : list string :=
  dxf_codes ++ ["  42"; " 10"; "  20"]%string.

(** A group carries one of those codes and a value that fits on a line;
    nothing is asked of a G-code move. *)
Definition item_ok (i : item) : Prop :=
  match i with
  | Group code value => In code all_codes /\ newline_free value = true
  | Gcode _ => True
  end.

(** [drawn s s']: from [s] to [s'] stdout has grown by such pieces, and
    the layer of the glyphs is named as before. *)
Definition drawn (s s' : state) : Prop :=
  (exists items, out s' = out s ++ flat_map render items /\
                 Forall item_ok items) /\
  genfont s' = genfont s /\ layer s' = layer s.

(** [draws m]: a run of [m] that starts with [genfont] set and returns
    has [drawn]. *)
Definition draws {A : Type} (m : M A) : Prop :=
  forall s a s', genfont s <> 0 -> m s = Ret a s' -> drawn s s'.

(* ================================================================== *)
(** * Theorems *)

Unset Implicit Arguments.

(** ** The monad: inversion of a sequence *)

Lemma bind_inv {A B} (m : M A) (k : A -> M B) (s s2 : state) (b : B) :
  bind m k s = Ret b s2 ->
  exists a s1, m s = Ret a s1 /\ k a s1 = Ret b s2.
Proof.
  unfold bind. destruct (m s) as [a s1| | |]; try discriminate.
  intros H. now exists a, s1.
Qed.

Lemma bind_ret_eq {A B} (m : M A) (k : A -> M B) (s s1 : state) (a : A) :
  m s = Ret a s1 -> bind m k s = k a s1.
Proof. unfold bind. now intros ->. Qed.

(** ** Extents *)

Lemma minimum_le (z : Z) (zs : list Z) : minimum z zs <= z.
Proof. induction zs as [|a zs IH]; simpl; lia. Qed.

Lemma maximum_ge (z : Z) (zs : list Z) : z <= maximum z zs.
Proof. induction zs as [|a zs IH]; simpl; lia. Qed.

Lemma minimum_lower (z : Z) (zs : list Z) (a : Z) :
  In a zs -> minimum z zs <= a.
Proof.
  induction zs as [|b zs IH]; simpl; [tauto|].
  intros [->|H]; [lia|]. specialize (IH H). lia.
Qed.

Lemma maximum_upper (z : Z) (zs : list Z) (a : Z) :
  In a zs -> a <= maximum z zs.
Proof.
  induction zs as [|b zs IH]; simpl; [tauto|].
  intros [->|H]; [lia|]. specialize (IH H). lia.
Qed.

Lemma minimum_attained (z : Z) (zs : list Z) :
  minimum z zs = z \/ In (minimum z zs) zs.
Proof.
  induction zs as [|b zs IH]; simpl; [now left|].
  destruct (Z.min_spec b (minimum z zs)) as [[_ ->]|[_ ->]]; tauto.
Qed.

Lemma maximum_attained (z : Z) (zs : list Z) :
  maximum z zs = z \/ In (maximum z zs) zs.
Proof.
  induction zs as [|b zs IH]; simpl; [now left|].
  destruct (Z.max_spec b (maximum z zs)) as [[_ ->]|[_ ->]]; tauto.
Qed.

Lemma minimum_app (z : Z) (l2 l1 : list Z) :
  minimum z (l2 ++ l1) = Z.min (minimum z l2) (minimum z l1).
Proof.
  induction l2 as [|a l2 IH]; simpl.
  - pose proof (minimum_le z l1). lia.
  - rewrite IH. lia.
Qed.

Lemma maximum_app (z : Z) (l2 l1 : list Z) :
  maximum z (l2 ++ l1) = Z.max (maximum z l2) (maximum z l1).
Proof.
  induction l2 as [|a l2 IH]; simpl.
  - pose proof (maximum_ge z l1). lia.
  - rewrite IH. lia.
Qed.

Lemma minimum_seed (a s : Z) (zs : list Z) :
  a <= s -> Z.min a (minimum s zs) = minimum a zs.
Proof. intros H. induction zs as [|b zs IH]; simpl; lia. Qed.

Lemma maximum_seed (a s : Z) (zs : list Z) :
  s <= a -> Z.max a (maximum s zs) = maximum a zs.
Proof. intros H. induction zs as [|b zs IH]; simpl; lia. Qed.

(** What the four comparisons of [extents_add_point] compute. *)
Lemma extents_add_point_eq (e : extents) (p : FT_Vector) :
  extents_add_point e p =
  mkExtents (Z.min (vx p) (minx e)) (Z.max (vx p) (maxx e))
            (Z.min (vy p) (miny e)) (Z.max (vy p) (maxy e)).
Proof.
  unfold extents_add_point.
  destruct (Z.ltb_spec (maxx e) (vx p)); simpl;
  destruct (Z.ltb_spec (maxy e) (vy p)); simpl;
  destruct (Z.ltb_spec (vx p) (minx e)); simpl;
  destruct (Z.ltb_spec (vy p) (miny e)); simpl;
  destruct e; simpl in *; f_equal; lia.
Qed.

Lemma extents_add_extents_eq (e1 e2 : extents) :
  extents_add_extents e1 e2 =
  mkExtents (Z.min (minx e2) (minx e1)) (Z.max (maxx e2) (maxx e1))
            (Z.min (miny e2) (miny e1)) (Z.max (maxy e2) (maxy e1)).
Proof.
  unfold extents_add_extents.
  destruct (Z.ltb_spec (maxx e1) (maxx e2)); simpl;
  destruct (Z.ltb_spec (maxy e1) (maxy e2)); simpl;
  destruct (Z.ltb_spec (minx e2) (minx e1)); simpl;
  destruct (Z.ltb_spec (miny e2) (miny e1)); simpl;
  destruct e1; simpl in *; f_equal; lia.
Qed.

(** A reachable tracker holds the sentinel-seeded bounds of its points,
    and every point fed in lies strictly between the sentinels. *)
Lemma reach_seeded (e : extents) (pts : list FT_Vector) :
  reach e pts -> e = seeded pts /\ Forall in_bounds pts.
Proof.
  induction 1 as [e|e pts p _ [IH IHb] Hp|e1 e2 pts1 pts2 _ [IH1 IHb1] _ [IH2 IHb2]
                 |e1 e2 pts1 _ [IH1 IHb1] Hx Hy Hlo Hhi].
  - split; [reflexivity|constructor].
  - split; [|now constructor].
    rewrite extents_add_point_eq, IH. reflexivity.
  - split; [|apply Forall_app; now split].
    rewrite extents_add_extents_eq, IH1, IH2. unfold seeded; simpl.
    rewrite !map_app, !minimum_app, !maximum_app. reflexivity.
  - split; [|constructor; [exact Hlo|constructor; [exact Hhi|exact IHb1]]].
    rewrite extents_add_extents_eq, IH1. unfold seeded; simpl.
    f_equal; lia.
Qed.

Lemma seeded_bounding_box (p : FT_Vector) (pts : list FT_Vector) :
  in_bounds p -> seeded (p :: pts) = bounding_box p pts.
Proof.
  intros [Hx Hy]. unfold seeded, bounding_box; simpl.
  change (fold_right Z.min 2000000000 (map vx pts)) with (minimum 2000000000 (map vx pts)).
  change (fold_right Z.min 2000000000 (map vy pts)) with (minimum 2000000000 (map vy pts)).
  change (fold_right Z.max (-2000000000) (map vx pts)) with (maximum (-2000000000) (map vx pts)).
  change (fold_right Z.max (-2000000000) (map vy pts)) with (maximum (-2000000000) (map vy pts)).
  rewrite !minimum_seed, !maximum_seed by lia. reflexivity.
Qed.

Lemma bounding_box_inside (p : FT_Vector) (pts : list FT_Vector) (q : FT_Vector) :
  In q (p :: pts) -> inside (bounding_box p pts) q.
Proof.
  intros [<-|H]; unfold inside, bounding_box; simpl.
  - pose proof (minimum_le (vx p) (map vx pts)).
    pose proof (maximum_ge (vx p) (map vx pts)).
    pose proof (minimum_le (vy p) (map vy pts)).
    pose proof (maximum_ge (vy p) (map vy pts)). lia.
  - pose proof (minimum_lower (vx p) (map vx pts) (vx q) (in_map vx _ _ H)).
    pose proof (maximum_upper (vx p) (map vx pts) (vx q) (in_map vx _ _ H)).
    pose proof (minimum_lower (vy p) (map vy pts) (vy q) (in_map vy _ _ H)).
    pose proof (maximum_upper (vy p) (map vy pts) (vy q) (in_map vy _ _ H)). lia.
Qed.

(** Each bound of the bounding box is a coordinate of one of the points,
    so that no box around the points is tighter. *)
Lemma bounding_box_least (p : FT_Vector) (pts : list FT_Vector) (b : extents) :
  (forall q, In q (p :: pts) -> inside b q) -> wider (bounding_box p pts) b.
Proof.
  intros Hb. unfold wider, bounding_box; simpl.
  assert (Hin : forall (f : FT_Vector -> Z) z,
             z = f p \/ In z (map f pts) -> exists q, In q (p :: pts) /\ z = f q).
  { intros f z [->|H]; [exists p; simpl; tauto|].
    apply in_map_iff in H as [q [<- Hq]]. exists q; simpl; tauto. }
  repeat split.
  - destruct (Hin vx _ (minimum_attained (vx p) (map vx pts))) as [q [Hq ->]].
    apply Hb in Hq. unfold inside in Hq. lia.
  - destruct (Hin vx _ (maximum_attained (vx p) (map vx pts))) as [q [Hq ->]].
    apply Hb in Hq. unfold inside in Hq. lia.
  - destruct (Hin vy _ (minimum_attained (vy p) (map vy pts))) as [q [Hq ->]].
    apply Hb in Hq. unfold inside in Hq. lia.
  - destruct (Hin vy _ (maximum_attained (vy p) (map vy pts))) as [q [Hq ->]].
    apply Hb in Hq. unfold inside in Hq. lia.
Qed.

(** C3.  After a reset and any sequence of [extents_add_point] and
    [extents_add_extents] calls on points strictly between -2e9 and 2e9,
    the tracker is the bounding box of the points passed in: it holds
    their coordinate-wise minima and maxima, contains each of them, and no
    box that contains them all is tighter.  Neither operation ever
    tightens a bound, and the first point after a reset gives the box
    {p.x, p.x, p.y, p.y}. *)
Theorem extents_bounding_box (e : extents) (pts : list FT_Vector) :
  reach e pts ->
  match pts with
  | [] => e = extents_reset e
  | p :: pts' =>
      e = bounding_box p pts' /\
      (forall q, In q pts -> inside e q) /\
      (forall b, (forall q, In q pts -> inside b q) -> wider e b)
  end /\
  (forall p, wider e (extents_add_point e p)) /\
  (forall e2, wider e (extents_add_extents e e2)) /\
  (forall e0 p, in_bounds p ->
     extents_add_point (extents_reset e0) p =
     mkExtents (vx p) (vx p) (vy p) (vy p)).
Proof.
  intros H. apply reach_seeded in H as [-> Hb].
  split; [|split; [|split]].
  - destruct pts as [|p pts']; [reflexivity|].
    inversion Hb as [|? ? Hp _]; subst.
    rewrite (seeded_bounding_box p pts' Hp).
    split; [reflexivity|split].
    + intros q. apply bounding_box_inside.
    + intros b. apply bounding_box_least.
  - intros p. rewrite extents_add_point_eq. unfold wider; simpl. lia.
  - intros e2. rewrite extents_add_extents_eq. unfold wider; simpl. lia.
  - intros e0 p [Hx Hy]. rewrite extents_add_point_eq. simpl. f_equal; lia.
Qed.

(** A run of the tracker: reset, three points, and a merge of a second
    tracker that saw one point. *)
Lemma extents_bounding_box_witness :
  extents_add_extents
    (extents_add_point
       (extents_add_point
          (extents_add_point (extents_reset (mkExtents 0 0 0 0)) (mkV 5 (-3)))
          (mkV (-7) 40))
       (mkV 12 9))
    (extents_add_point (extents_reset (mkExtents 1 2 3 4)) (mkV 100 (-50)))
  = bounding_box (mkV 100 (-50)) [mkV 12 9; mkV (-7) 40; mkV 5 (-3)].
Proof.
  refine (proj1 (proj1 (@extents_bounding_box _
            ([mkV 100 (-50)] ++ [mkV 12 9; mkV (-7) 40; mkV 5 (-3)]) _))).
  apply reach_extents.
  - repeat (apply reach_point; [|unfold in_bounds; simpl; lia]).
    apply reach_reset.
  - apply reach_point; [apply reach_reset|unfold in_bounds; simpl; lia].
Defined.

(** ** Layer tags *)

Lemma text_cons (c : ascii) (s : string) : text (String c s) = Ch c :: text s.
Proof. reflexivity. Qed.

Lemma text_nil : text EmptyString = [].
Proof. reflexivity. Qed.

Lemma text_app (s1 s2 : string) : text (s1 ++ s2) = text s1 ++ text s2.
Proof.
  induction s1 as [|c s1 IH]; [reflexivity|].
  simpl. now rewrite IH.
Qed.

(** Both sides of an equation between outputs, as right-nested lists. *)
Ltac norm_text :=
  repeat (progress (rewrite ?text_app, ?text_cons, ?text_nil, <- ?app_assoc; simpl)).

(** [maybe_output_layer] appends the layer tag to stdout and does nothing
    else. *)
Lemma maybe_output_layer_eq (s : state) :
  maybe_output_layer s =
  Ret tt (set_out (out s ++ layer_tag (genfont s) (charcode s) (layer s)) s).
Proof.
  unfold maybe_output_layer, layer_tag, bind, get, printf, modify, group.
  destruct (Z.eqb_spec (genfont s) 0) as [Hg|Hg]; simpl.
  - destruct (layer s) as [name|]; simpl.
    + norm_text. reflexivity.
    + rewrite app_nil_r. destruct s; reflexivity.
  - destruct (Z.ltb_spec (charcode s) 32) as [H1|H1];
    destruct (Z.ltb_spec 126 (charcode s)) as [H2|H2];
    destruct (Z.leb_spec 32 (charcode s));
    destruct (Z.leb_spec (charcode s) 126); try lia; simpl;
    norm_text; try reflexivity.
    unfold char_of_int. rewrite Z.mod_small by lia. reflexivity.
Qed.

(** C7.  [maybe_output_layer] prints the layer tag and nothing else.  In
    font-generation mode the tag is group 8 with the character itself
    when its code is in [' ', '~'], and with an underscore and the
    decimal code otherwise; out of that mode it is group 8 with the
    user's layer name when there is one; when neither applies nothing is
    printed and the state is as before. *)
Theorem maybe_output_layer_tag (s : state) :
  let tag := layer_tag (genfont s) (charcode s) (layer s) in
  maybe_output_layer s = Ret tt (set_out (out s ++ tag) s) /\
  (genfont s <> 0 -> 32 <= charcode s <= 126 ->
   tag = group "  8" (String (ascii_of_N (Z.to_N (charcode s))) EmptyString)) /\
  (genfont s <> 0 -> charcode s < 32 \/ 126 < charcode s ->
   tag = group "  8" ("_" ++ decimal (charcode s))) /\
  (genfont s = 0 -> forall name, layer s = Some name ->
   tag = group "  8" name) /\
  (genfont s = 0 -> layer s = None ->
   tag = [] /\ maybe_output_layer s = Ret tt s).
Proof.
  intros tag. split; [apply maybe_output_layer_eq|].
  unfold tag, layer_tag. split; [|split; [|split]].
  - intros Hg Hc. destruct (Z.eqb_spec (genfont s) 0); [contradiction|].
    destruct (Z.leb_spec 32 (charcode s)); [|lia].
    destruct (Z.leb_spec (charcode s) 126); [reflexivity|lia].
  - intros Hg Hc. destruct (Z.eqb_spec (genfont s) 0); [contradiction|].
    destruct (Z.leb_spec 32 (charcode s)); [|reflexivity].
    destruct (Z.leb_spec (charcode s) 126); [lia|reflexivity].
  - intros -> name ->. reflexivity.
  - intros Hg Hl. rewrite maybe_output_layer_eq, Hg, Hl. simpl.
    rewrite app_nil_r. split; [reflexivity|]. destruct s; reflexivity.
Qed.

(** The tags of 'A' and of the character 200 in font-generation mode, of
    the user layer [cut] out of it, and of no layer at all. *)
Lemma maybe_output_layer_tag_witness :
  layer_tag 1 65 None = group "  8" "A" /\
  layer_tag 1 200 None = group "  8" "_200" /\
  layer_tag 0 65 (Some "cut"%string) = group "  8" "cut" /\
  maybe_output_layer initial_state = Ret tt initial_state.
Proof.
  pose (s1 := set_charcode 65 (configured plain_options)).
  pose (s2 := set_charcode 200 (configured plain_options)).
  pose (s3 := mkState 10 200%float (Some "cut"%string) 65 0 (mkV 0 0)
                (mkExtents 0 0 0 0) (mkExtents 0 0 0 0) (mkV 0 0) 0 0 [] [] 0).
  split; [|split; [|split]].
  - refine (proj1 (proj2 (maybe_output_layer_tag s1)) _ _); simpl; lia.
  - refine (proj1 (proj2 (proj2 (maybe_output_layer_tag s2))) _ _); simpl; lia.
  - refine (proj1 (proj2 (proj2 (proj2 (maybe_output_layer_tag s3)))) _ _ _);
      reflexivity.
  - refine (proj2 (proj2 (proj2 (proj2 (proj2 (maybe_output_layer_tag initial_state))))
                     _ _)); reflexivity.
Defined.

(** ** Floating-point identities *)

Lemma SFopp_binary_round_aux (s : bool) (m e : Z) (l : location) :
  SFopp (binary_round_aux prec emax s m e l) =
  binary_round_aux prec emax (negb s) m e l.
Proof.
  unfold binary_round_aux.
  destruct (shr_fexp prec emax m e l) as [mrs' e'].
  destruct (shr_fexp prec emax _ e' loc_Exact) as [mrs'' e''].
  destruct (shr_m mrs''); try reflexivity.
  destruct (e'' <=? emax - prec); reflexivity.
Qed.

(** [y * (-b) = -(y * b)], exactly, for all doubles. *)
Lemma mul_opp_r (y b : float) : (y * (- b) = - (y * b))%float.
Proof.
  apply Prim2SF_inj. rewrite opp_spec, !mul_spec, opp_spec.
  unfold SF64mul, SFmul.
  destruct (Prim2SF y) as [sy| sy| |sy my ey], (Prim2SF b) as [sb|sb| |sb mb eb];
    simpl; rewrite ?SFopp_binary_round_aux; try reflexivity;
    destruct sy, sb; reflexivity.
Qed.

(** [x + (-y) = x - y], exactly, for all doubles. *)
Lemma add_opp_r (x y : float) : (x + (- y) = x - y)%float.
Proof.
  apply Prim2SF_inj. rewrite add_spec, sub_spec, opp_spec.
  unfold SF64add, SF64sub, SFadd, SFsub.
  destruct (Prim2SF x) as [sx| sx| |sx mx ex], (Prim2SF y) as [sy|sy| |sy my ey];
    simpl; try reflexivity; destruct sx, sy; reflexivity.
Qed.

(** ** Records and the biarc fitter *)

Lemma printf_eq (fmt : string) (args : list arg) (s : state) :
  printf fmt args s = Ret tt (set_out (out s ++ format fmt args) s).
Proof. reflexivity. Qed.

Lemma line_eq (p : P) (s : state) :
  line p s = Ret tt (set_out (out s ++ vertex p) s).
Proof. reflexivity. Qed.

(** The codes of a straight vertex are 10 and 20; a bulge would show as
    the code 42, and the G-code move of [arc] has no group code at all. *)
Lemma group_codes_records (bulge : float) (p : P) :
  group_codes (vertex p) = [text "10"; text "20"] /\
  group_codes (bulge_vertex bulge p) = [text "42"; text "10"; text "20"] /\
  group_codes (gcode_move p) =
    [text "G1 X[" ++ [F4 (px p)] ++ text "*#3+#5] Y[" ++ [F4 (py p)] ++ text "*#3+#6]"].
Proof. repeat split. Qed.

(** When the denominator of [arc] is below the threshold, it prints the
    G-code move and nothing else. *)
Lemma arc_degenerate (L : libm) (fuel : nat) (p1 p2 d : P) (s : state) :
  let u := Vec.unit d in
  let p := Vec.sub p2 p1 in
  (abs (2 * (py p * px u - px p * py u)) <? Num.tiny)%float = true ->
  arc L fuel p1 p2 d s = Ret tt (set_out (out s ++ gcode_move p2) s).
Proof.
  intros u p H. unfold arc. fold u p. rewrite H. reflexivity.
Qed.

(** [arc] prints one record when it returns: the G-code move, or a vertex
    with a bulge. *)
Lemma arc_one_record (L : libm) (fuel : nat) (p1 p2 d : P) (s s' : state) :
  arc L fuel p1 p2 d s = Ret tt s' ->
  exists rec, s' = set_out (out s ++ rec) s /\
    (rec = gcode_move p2 \/ exists bulge, rec = bulge_vertex bulge p2).
Proof.
  unfold arc.
  destruct (abs _ <? Num.tiny)%float.
  - intros [= <-]. eexists; split; [reflexivity|now left].
  - unfold bind.
    match goal with |- context [budget ?o] => destruct o as [en|] end;
      simpl; [|discriminate].
    intros [= <-]. eexists; split; [reflexivity|right].
    eexists; reflexivity.
Qed.

(** ** Rounding: a lower bound *)

Lemma digits2_pos_lower (m : positive) :
  2 ^ (Z.pos (digits2_pos m) - 1) <= Z.pos m.
Proof.
  induction m as [m IH|m IH|]; simpl digits2_pos.
  - rewrite Pos2Z.inj_succ.
    replace (Z.succ (Z.pos (digits2_pos m)) - 1) with (Z.succ (Z.pos (digits2_pos m) - 1)) by lia.
    rewrite Z.pow_succ_r by lia. lia.
  - rewrite Pos2Z.inj_succ.
    replace (Z.succ (Z.pos (digits2_pos m)) - 1) with (Z.succ (Z.pos (digits2_pos m) - 1)) by lia.
    rewrite Z.pow_succ_r by lia. lia.
  - simpl. lia.
Qed.

Lemma digits2_pos_upper (m : positive) :
  Z.pos m < 2 ^ Z.pos (digits2_pos m).
Proof.
  induction m as [m IH|m IH|]; simpl digits2_pos.
  - rewrite Pos2Z.inj_succ, Z.pow_succ_r by lia. lia.
  - rewrite Pos2Z.inj_succ, Z.pow_succ_r by lia. lia.
  - simpl. lia.
Qed.

(** The number of digits is determined by the two bounds. *)
Lemma digits2_pos_unique (m : positive) (d : Z) :
  2 ^ (d - 1) <= Z.pos m < 2 ^ d -> Z.pos (digits2_pos m) = d.
Proof.
  intros [Hl Hu].
  pose proof (digits2_pos_lower m) as L. pose proof (digits2_pos_upper m) as U.
  assert (Hd : 0 < d).
  { destruct (Z.ltb_spec 0 d) as [|Hd]; [assumption|].
    destruct (Z.eq_dec d 0) as [->|Hn]; [simpl in Hu; lia|].
    rewrite Z.pow_neg_r in Hu by lia. lia. }
  destruct (Z.lt_trichotomy (Z.pos (digits2_pos m)) d) as [H|[H|H]]; [|exact H|].
  - assert (2 ^ Z.pos (digits2_pos m) <= 2 ^ (d - 1)) by (apply Z.pow_le_mono_r; lia).
    lia.
  - assert (2 ^ d <= 2 ^ (Z.pos (digits2_pos m) - 1)) by (apply Z.pow_le_mono_r; lia).
    lia.
Qed.

(** ** Shifting to the right is dividing *)

Lemma shr_1_m (mrs : shr_record) :
  0 <= shr_m mrs -> shr_m (shr_1 mrs) = shr_m mrs / 2.
Proof.
  destruct mrs as [m r s].
  destruct m as [|[p|p|]|p]; cbn [shr_1 shr_m]; intros H; try lia.
  - reflexivity.
  - apply (Z.div_unique _ 2 _ 1); lia.
  - apply (Z.div_unique _ 2 _ 0); lia.
  - reflexivity.
Qed.

Lemma iter_pos_shr (p : positive) :
  forall mrs : shr_record, 0 <= shr_m mrs ->
    shr_m (iter_pos shr_1 p mrs) = shr_m mrs / 2 ^ Z.pos p.
Proof.
  induction p as [p IH|p IH|]; intros mrs H; simpl iter_pos;
    try assert (Hp : 0 < 2 ^ Z.pos p) by (apply Z.pow_pos_nonneg; lia).
  - assert (E : 2 ^ Z.pos p~1 = 2 * (2 ^ Z.pos p * 2 ^ Z.pos p)).
    { rewrite <- Z.pow_add_r, <- (Z.pow_succ_r 2) by lia. f_equal. lia. }
    assert (H1 : 0 <= shr_m (shr_1 mrs))
      by (rewrite shr_1_m by assumption; apply Z.div_pos; lia).
    assert (H2 : 0 <= shr_m (iter_pos shr_1 p (shr_1 mrs)))
      by (rewrite IH by assumption; apply Z.div_pos; lia).
    rewrite IH, IH, shr_1_m by assumption.
    rewrite !Z.div_div by lia. rewrite E. reflexivity.
  - assert (E : 2 ^ Z.pos p~0 = 2 ^ Z.pos p * 2 ^ Z.pos p).
    { rewrite <- Z.pow_add_r by lia. f_equal. lia. }
    assert (H2 : 0 <= shr_m (iter_pos shr_1 p mrs))
      by (rewrite IH by assumption; apply Z.div_pos; lia).
    rewrite IH, IH by assumption.
    rewrite !Z.div_div by lia. rewrite E. reflexivity.
  - rewrite shr_1_m by assumption. reflexivity.
Qed.

Lemma round_nearest_even_range (m : Z) (l : location) :
  round_nearest_even m l = m \/ round_nearest_even m l = m + 1.
Proof.
  unfold round_nearest_even.
  destruct l as [|[| |]]; try (now left); [|now right].
  destruct (Z.even m); [now left|now right].
Qed.

Lemma fexp_normal (d e : Z) :
  -1074 <= e -> 53 <= d -> fexp prec emax (d + e) = e + (d - 53).
Proof.
  intros He Hd. unfold fexp, emin, prec, emax. lia.
Qed.

(** The first step of rounding a mantissa of at least 53 digits: the
    digits beyond the 53rd are shifted out. *)
Lemma shr_fexp_shift (m : positive) (e : Z) :
  -1074 <= e -> 53 <= Z.pos (digits2_pos m) ->
  exists mrs,
    shr_fexp prec emax (Z.pos m) e loc_Exact
      = (mrs, e + (Z.pos (digits2_pos m) - 53)) /\
    shr_m mrs = Z.pos m / 2 ^ (Z.pos (digits2_pos m) - 53).
Proof.
  intros He Hd. unfold shr_fexp. cbn [Zdigits2].
  rewrite fexp_normal by assumption.
  replace (e + (Z.pos (digits2_pos m) - 53) - e)
    with (Z.pos (digits2_pos m) - 53) by lia.
  destruct (Z.pos (digits2_pos m) - 53) as [|p|p] eqn:En; [| |lia].
  - eexists. split; [unfold shr; rewrite Z.add_0_r; reflexivity|].
    cbn [shr_record_of_loc shr_m]. rewrite Z.div_1_r. reflexivity.
  - eexists. split; [unfold shr; reflexivity|].
    rewrite iter_pos_shr by (cbn; lia). reflexivity.
Qed.

(** Rounding a positive integer of at least 53 digits: the result is
    infinite, or its magnitude is at least the integer cut to 53
    digits. *)
Lemma binary_round_lower (s : bool) (S : positive) (e : Z) :
  -1074 <= e -> 2 ^ 52 <= Z.pos S ->
  let n := Z.pos (digits2_pos S) - 53 in
  2 ^ 52 <= Z.pos S / 2 ^ n /\
  (binary_round prec emax s S e = S754_infinity s \/
   exists m' e', binary_round prec emax s S e = S754_finite s m' e' /\
     e + n <= e' /\
     (Z.pos S / 2 ^ n) * 2 ^ (e + n + 1074) <= Z.pos m' * 2 ^ (e' + 1074)).
Proof.
  intros He HS n.
  pose proof (digits2_pos_lower S) as L. pose proof (digits2_pos_upper S) as U.
  assert (Hd : 53 <= Z.pos (digits2_pos S)).
  { destruct (Z.le_gt_cases 53 (Z.pos (digits2_pos S))) as [|H]; [assumption|].
    assert (2 ^ Z.pos (digits2_pos S) <= 2 ^ 52) by (apply Z.pow_le_mono_r; lia).
    lia. }
  assert (Hn : 0 <= n) by (unfold n; lia).
  assert (Hpn : 0 < 2 ^ n) by (apply Z.pow_pos_nonneg; lia).
  assert (Hsplit : 2 ^ (Z.pos (digits2_pos S) - 1) = 2 ^ 52 * 2 ^ n).
  { rewrite <- Z.pow_add_r by lia. f_equal. unfold n. lia. }
  assert (Hsplit' : 2 ^ Z.pos (digits2_pos S) = 2 ^ 53 * 2 ^ n).
  { rewrite <- Z.pow_add_r by lia. f_equal. unfold n. lia. }
  assert (Hm1 : 2 ^ 52 <= Z.pos S / 2 ^ n < 2 ^ 53).
  { split.
    - apply Z.div_le_lower_bound; [assumption|]. rewrite Z.mul_comm. lia.
    - apply Z.div_lt_upper_bound; [assumption|]. rewrite Z.mul_comm. lia. }
  split; [apply Hm1|].
  unfold binary_round.
  rewrite fexp_normal by assumption. fold n.
  assert (Hal : shl_align S e (e + n) = (S, e)).
  { unfold shl_align. replace (e + n - e) with n by lia.
    destruct n; try reflexivity. lia. }
  rewrite Hal. unfold binary_round_aux.
  destruct (shr_fexp_shift S e He Hd) as (mrs & -> & Hmrs). fold n in Hmrs |- *.
  set (m1 := Z.pos S / 2 ^ n) in *.
  set (r := round_nearest_even (shr_m mrs) (loc_of_shr_record mrs)).
  assert (Hr : r = m1 \/ r = m1 + 1)
    by (unfold r; rewrite Hmrs; apply round_nearest_even_range).
  assert (Hrpos : 2 ^ 52 <= r <= 2 ^ 53) by lia.
  destruct r as [|pr|pr] eqn:Er; [lia| |lia].
  assert (He' : -1074 <= e + n) by lia.
  destruct (Z.eq_dec (Z.pos pr) (2 ^ 53)) as [Htop|Hlow].
  - (* the mantissa has been rounded up to 2^53: one more shift *)
    injection Htop as ->.
    change (shr_fexp prec emax (Z.pos 9007199254740992) (e + n) loc_Exact)
      with (shr (shr_record_of_loc (Z.pos 9007199254740992) loc_Exact) (e + n)
                (fexp prec emax (54 + (e + n)) - (e + n))).
    rewrite (fexp_normal 54 (e + n)) by lia.
    replace (e + n + (54 - 53) - (e + n)) with 1 by lia.
    cbn [shr shr_record_of_loc iter_pos shr_1 shr_m].
    destruct (e + n + 1 <=? emax - prec); [right|now left].
    eexists _, _. split; [reflexivity|]. split; [lia|].
    replace (e + n + 1 + 1074) with (Z.succ (e + n + 1074)) by lia.
    rewrite Z.pow_succ_r by lia.
    assert (0 < 2 ^ (e + n + 1074)) by (apply Z.pow_pos_nonneg; lia).
    change (2 ^ 53) with 9007199254740992 in *. nia.
  - assert (Hdr : Z.pos (digits2_pos pr) = 53)
      by (apply digits2_pos_unique; change (53 - 1) with 52; lia).
    destruct (shr_fexp_shift pr (e + n) He' ltac:(lia)) as (mrs' & -> & Hmrs').
    rewrite Hdr in Hmrs' |- *. change (53 - 53) with 0 in *.
    rewrite Z.pow_0_r, Z.div_1_r in Hmrs'. rewrite Hmrs'.
    rewrite Z.add_0_r.
    destruct (e + n <=? emax - prec); [right|now left].
    eexists _, _. split; [reflexivity|]. split; [lia|].
    apply Z.mul_le_mono_nonneg_r; [apply Z.pow_nonneg; lia|lia].
Qed.


Lemma bounded_range (m : positive) (e : Z) :
  bounded prec emax m e = true ->
  -1074 <= e /\ Z.pos m < 2 ^ 53 /\ (-1074 < e -> 2 ^ 52 <= Z.pos m).
Proof.
  unfold bounded, canonical_mantissa, fexp, emin, prec, emax.
  intros H. apply andb_prop in H as [H _]. apply Z.eqb_eq in H.
  pose proof (digits2_pos_lower m) as L. pose proof (digits2_pos_upper m) as U.
  split; [lia|]. split.
  - assert (2 ^ Z.pos (digits2_pos m) <= 2 ^ 53) by (apply Z.pow_le_mono_r; lia).
    lia.
  - intros He. assert (Z.pos (digits2_pos m) = 53) as E by lia.
    rewrite E in L. exact L.
Qed.

(** Among valid doubles the one with the larger exponent is larger. *)
Lemma bounded_exp_lt (m1 m2 : positive) (e1 e2 : Z) :
  bounded prec emax m1 e1 = true -> bounded prec emax m2 e2 = true ->
  e1 < e2 ->
  Z.pos m1 * 2 ^ (e1 + 1074) < Z.pos m2 * 2 ^ (e2 + 1074).
Proof.
  intros H1 H2 Hlt.
  apply bounded_range in H1 as (He1 & Hm1 & _).
  apply bounded_range in H2 as (He2 & _ & Hm2).
  specialize (Hm2 ltac:(lia)).
  assert (Hp : 0 < 2 ^ (e1 + 1074)) by (apply Z.pow_pos_nonneg; lia).
  assert (Hq : 2 * 2 ^ (e1 + 1074) <= 2 ^ (e2 + 1074)).
  { rewrite <- Z.pow_succ_r by lia. apply Z.pow_le_mono_r; lia. }
  change (2 ^ 53) with 9007199254740992 in *.
  change (2 ^ 52) with 4503599627370496 in *. nia.
Qed.


(** On valid finite doubles the comparison is that of the values. *)
Lemma SFcompare_val (x y : spec_float) :
  valid_binary x = true -> valid_binary y = true ->
  finite_or_zero x = true -> finite_or_zero y = true ->
  SFcompare x y = Some (val x ?= val y).
Proof.
  destruct x as [sx|sx| |sx mx ex], y as [sy|sy| |sy my ey]; try discriminate;
    intros Vx Vy _ _; unfold valid_binary in Vx, Vy;
    cbn [SpecFloat.valid_binary] in Vx, Vy; cbn [SFcompare val].
  - reflexivity.
  - assert (0 < Z.pos my * 2 ^ (ey + 1074))
      by (apply Z.mul_pos_pos; [lia|apply Z.pow_pos_nonneg;
          apply bounded_range in Vy; lia]).
    f_equal. destruct sy; symmetry.
    + apply Z.compare_gt_iff. lia.
    + apply Z.compare_lt_iff. lia.
  - assert (0 < Z.pos mx * 2 ^ (ex + 1074))
      by (apply Z.mul_pos_pos; [lia|apply Z.pow_pos_nonneg;
          apply bounded_range in Vx; lia]).
    f_equal. destruct sx; symmetry.
    + apply Z.compare_lt_iff. lia.
    + apply Z.compare_gt_iff. lia.
  - assert (Px : 0 < Z.pos mx * 2 ^ (ex + 1074))
      by (apply Z.mul_pos_pos; [lia|apply Z.pow_pos_nonneg;
          apply bounded_range in Vx; lia]).
    assert (Py : 0 < Z.pos my * 2 ^ (ey + 1074))
      by (apply Z.mul_pos_pos; [lia|apply Z.pow_pos_nonneg;
          apply bounded_range in Vy; lia]).
    assert (Heq : ex = ey ->
                  (Z.pos mx * 2 ^ (ex + 1074) ?= Z.pos my * 2 ^ (ey + 1074))
                  = Pos.compare_cont Eq mx my).
    { intros ->. rewrite <- Zmult_compare_compat_r
        by (apply Z.lt_gt, Z.pow_pos_nonneg; apply bounded_range in Vy; lia).
      reflexivity. }
    f_equal. destruct sx, sy.
    + (* both negative *)
      destruct (Z.compare_spec ex ey) as [E|E|E]; symmetry.
      * rewrite Z.compare_opp, Z.compare_antisym, (Heq E). reflexivity.
      * apply Z.compare_gt_iff.
        pose proof (bounded_exp_lt _ _ _ _ Vx Vy E). lia.
      * apply Z.compare_lt_iff.
        pose proof (bounded_exp_lt _ _ _ _ Vy Vx E). lia.
    + symmetry. apply Z.compare_lt_iff. lia.
    + symmetry. apply Z.compare_gt_iff. lia.
    + destruct (Z.compare_spec ex ey) as [E|E|E]; symmetry.
      * apply Heq, E.
      * apply Z.compare_lt_iff. apply (bounded_exp_lt _ _ _ _ Vx Vy E).
      * apply Z.compare_gt_iff. apply (bounded_exp_lt _ _ _ _ Vy Vx E).
Qed.

(** ** Aligning two mantissas *)

Lemma iter_xO (d m : positive) :
  Z.pos (Pos.iter xO m d) = Z.pos m * 2 ^ Z.pos d.
Proof.
  induction d as [|d IH] using Pos.peano_ind.
  - simpl. lia.
  - rewrite Pos.iter_succ, Pos2Z.inj_xO, IH, Pos2Z.inj_succ, Z.pow_succ_r by lia.
    lia.
Qed.

Lemma shl_align_val (m : positive) (e ez : Z) :
  -1074 <= ez -> ez <= e ->
  Z.pos (fst (shl_align m e ez)) * 2 ^ (ez + 1074) = Z.pos m * 2 ^ (e + 1074).
Proof.
  intros Hz He. unfold shl_align.
  destruct (ez - e) as [|d|d] eqn:E; cbn [fst].
  - assert (ez = e) by lia. subst. reflexivity.
  - lia.
  - rewrite iter_xO, <- Z.mul_assoc, <- Z.pow_add_r by lia.
    f_equal. f_equal. lia.
Qed.

(** Rounding an integer [S] of at least 53 digits at the exponent [e]:
    the result has the sign of [S], and its magnitude is at least every
    valid double that is at most the magnitude of [S]. *)
Lemma binary_normalize_lower (S e : Z) (mb : positive) (eb : Z) :
  -1074 <= e -> 2 ^ 52 <= Z.abs S ->
  bounded prec emax mb eb = true ->
  Z.pos mb * 2 ^ (eb + 1074) <= Z.abs S * 2 ^ (e + 1074) ->
  binary_normalize prec emax S e false = S754_infinity (S <? 0) \/
  exists m' e',
    binary_normalize prec emax S e false = S754_finite (S <? 0) m' e' /\
    Z.pos mb * 2 ^ (eb + 1074) <= Z.pos m' * 2 ^ (e' + 1074).
Proof.
  intros He HS Vb Hb.
  assert (Hgen : forall (s : bool) (p : positive),
             2 ^ 52 <= Z.pos p ->
             Z.pos mb * 2 ^ (eb + 1074) <= Z.pos p * 2 ^ (e + 1074) ->
             binary_round prec emax s p e = S754_infinity s \/
             exists m' e',
               binary_round prec emax s p e = S754_finite s m' e' /\
               Z.pos mb * 2 ^ (eb + 1074) <= Z.pos m' * 2 ^ (e' + 1074)).
  { intros s p Hp Hbp.
    destruct (binary_round_lower s p e He Hp) as (Hm1 & [Hinf|(m' & e' & -> & He' & Hv)]);
      [now left|right].
    exists m', e'. split; [reflexivity|].
    eapply Z.le_trans; [|exact Hv].
    set (n := Z.pos (digits2_pos p) - 53) in *.
    assert (Hn : 0 <= n).
    { pose proof (digits2_pos_upper p) as U.
      destruct (Z.le_gt_cases 53 (Z.pos (digits2_pos p))) as [|H]; [unfold n; lia|].
      assert (2 ^ Z.pos (digits2_pos p) <= 2 ^ 52) by (apply Z.pow_le_mono_r; lia).
      lia. }
    assert (Hpn : 0 < 2 ^ n) by (apply Z.pow_pos_nonneg; lia).
    assert (Hpe : 0 < 2 ^ (e + 1074)) by (apply Z.pow_pos_nonneg; lia).
    assert (Hsp : 2 ^ (e + n + 1074) = 2 ^ n * 2 ^ (e + 1074)).
    { rewrite <- Z.pow_add_r by lia. f_equal. lia. }
    apply bounded_range in Vb as (Heb & Hmb & _).
    destruct (Z.le_gt_cases (e + n) eb) as [Hge|Hlt].
    - (* [b] lies on the grid of the result *)
      assert (Hk : 2 ^ (eb + 1074) = 2 ^ (eb - e - n) * 2 ^ (e + n + 1074)).
      { rewrite <- Z.pow_add_r by lia. f_equal. lia. }
      rewrite Hk, Z.mul_assoc.
      apply Z.mul_le_mono_nonneg_r; [apply Z.pow_nonneg; lia|].
      apply Z.div_le_lower_bound; [assumption|].
      rewrite Hk, Hsp in Hbp.
      assert (0 <= 2 ^ (eb - e - n)) by (apply Z.pow_nonneg; lia).
      nia.
    - (* [b] has a smaller exponent than the result *)
      assert (Hq : 2 * 2 ^ (eb + 1074) <= 2 ^ (e + n + 1074)).
      { rewrite <- Z.pow_succ_r by lia. apply Z.pow_le_mono_r; lia. }
      assert (0 < 2 ^ (eb + 1074)) by (apply Z.pow_pos_nonneg; lia).
      change (2 ^ 53) with 9007199254740992 in *.
      change (2 ^ 52) with 4503599627370496 in *. nia. }
  destruct S as [|p|p]; cbn [binary_normalize Z.abs] in *.
  - change (2 ^ 52) with 4503599627370496 in HS. lia.
  - apply Hgen; assumption.
  - apply Hgen; assumption.
Qed.


Lemma SFleb_val (x y : spec_float) :
  valid_binary x = true -> valid_binary y = true ->
  finite_or_zero x = true -> finite_or_zero y = true ->
  SFleb x y = (val x <=? val y).
Proof.
  intros Vx Vy Fx Fy. unfold SFleb, Z.leb.
  rewrite (SFcompare_val x y Vx Vy Fx Fy).
  destruct (val x ?= val y); reflexivity.
Qed.

Lemma SFadd_finite (sx : bool) (mx : positive) (ex : Z)
  (sy : bool) (my : positive) (ey : Z) :
  -1074 <= ex -> -1074 <= ey ->
  exists S,
    SFadd prec emax (S754_finite sx mx ex) (S754_finite sy my ey)
      = binary_normalize prec emax S (Z.min ex ey) false /\
    S * 2 ^ (Z.min ex ey + 1074)
      = val (S754_finite sx mx ex) + val (S754_finite sy my ey).
Proof.
  intros Hx Hy. eexists. split; [reflexivity|].
  cbn [val]. rewrite Z.mul_add_distr_r.
  assert (Ex := shl_align_val mx ex (Z.min ex ey) ltac:(lia) ltac:(lia)).
  assert (Ey := shl_align_val my ey (Z.min ex ey) ltac:(lia) ltac:(lia)).
  destruct sx, sy; unfold cond_Zopp; rewrite ?Z.mul_opp_l, Ex, Ey; reflexivity.
Qed.

Lemma SFsub_finite (sx : bool) (mx : positive) (ex : Z)
  (sy : bool) (my : positive) (ey : Z) :
  -1074 <= ex -> -1074 <= ey ->
  exists S,
    SFsub prec emax (S754_finite sx mx ex) (S754_finite sy my ey)
      = binary_normalize prec emax S (Z.min ex ey) false /\
    S * 2 ^ (Z.min ex ey + 1074)
      = val (S754_finite sx mx ex) - val (S754_finite sy my ey).
Proof.
  intros Hx Hy. eexists. split; [reflexivity|].
  cbn [val]. rewrite Z.mul_sub_distr_r.
  assert (Ex := shl_align_val mx ex (Z.min ex ey) ltac:(lia) ltac:(lia)).
  assert (Ey := shl_align_val my ey (Z.min ex ey) ltac:(lia) ltac:(lia)).
  destruct sx, sy; unfold cond_Zopp; rewrite ?Z.mul_opp_l, Ex, Ey; reflexivity.
Qed.

(** The sum or difference [V] of two values, held exactly as [S] at the
    exponent [ez], rounds to a double of the sign of [V] whose magnitude
    is at least every valid double that is at most [|V|]. *)
Lemma normalize_lower (S ez V : Z) (mb : positive) (eb : Z) :
  S * 2 ^ (ez + 1074) = V -> -1074 <= ez ->
  2 ^ 52 * 2 ^ (ez + 1074) <= Z.abs V ->
  bounded prec emax mb eb = true ->
  Z.pos mb * 2 ^ (eb + 1074) <= Z.abs V ->
  binary_normalize prec emax S ez false = S754_infinity (V <? 0) \/
  exists m' e',
    binary_normalize prec emax S ez false = S754_finite (V <? 0) m' e' /\
    Z.pos mb * 2 ^ (eb + 1074) <= Z.pos m' * 2 ^ (e' + 1074).
Proof.
  intros HV Hez H52 Vb Hb.
  assert (Hp : 0 < 2 ^ (ez + 1074)) by (apply Z.pow_pos_nonneg; lia).
  assert (Ha : Z.abs V = Z.abs S * 2 ^ (ez + 1074))
    by (rewrite <- HV, Z.abs_mul, (Z.abs_eq (2 ^ _)); lia).
  assert (Hs : (V <? 0) = (S <? 0)).
  { rewrite <- HV. destruct (Z.ltb_spec S 0), (Z.ltb_spec (S * 2 ^ (ez + 1074)) 0);
      try reflexivity; nia. }
  rewrite Hs. apply binary_normalize_lower; try assumption.
  - rewrite Ha in H52. nia.
  - rewrite <- Ha. exact Hb.
Qed.

(** ** Two full turns *)


Lemma Prim2SF_pi : Prim2SF Num.M_PI = S754_finite false PIm (-51).
Proof. reflexivity. Qed.

Lemma Prim2SF_turn : Prim2SF (2 * Num.M_PI) = S754_finite false PIm (-50).
Proof. reflexivity. Qed.

Lemma Vpi_pos : 2 ^ 52 * 2 ^ 1023 <= Vpi /\ Vpi < 2 ^ 53 * 2 ^ 1023.
Proof.
  unfold Vpi, PIm. assert (0 < 2 ^ 1023) by (apply Z.pow_pos_nonneg; lia).
  change (2 ^ 52) with 4503599627370496. change (2 ^ 53) with 9007199254740992.
  split; nia.
Qed.

(** An angle between [-pi] and [pi] is a finite double or a zero. *)
Lemma in_turn_val (a : float) :
  (- Num.M_PI <=? a)%float = true -> (a <=? Num.M_PI)%float = true ->
  finite_or_zero (Prim2SF a) = true /\ - Vpi <= val (Prim2SF a) <= Vpi.
Proof.
  rewrite !leb_spec, opp_spec, Prim2SF_pi. cbn [SFopp negb].
  pose proof (Prim2SF_valid a) as Va.
  destruct (Prim2SF a) as [s|s| |s m e] eqn:E.
  - intros _ _. split; [reflexivity|]. cbn [val]. pose proof Vpi_pos.
    assert (0 < 2 ^ 52 * 2 ^ 1023) by (apply Z.mul_pos_pos; apply Z.pow_pos_nonneg; lia).
    lia.
  - destruct s; [discriminate|]. intros _ H. discriminate.
  - discriminate.
  - intros H1 H2. split; [reflexivity|].
    rewrite SFleb_val in H1, H2 by (try reflexivity; assumption).
    apply Z.leb_le in H1, H2.
    change (val (S754_finite true PIm (-51))) with (- Vpi) in H1.
    change (val (S754_finite false PIm (-51))) with Vpi in H2.
    split; assumption.
Qed.

(** A valid double of magnitude at most [pi] has an exponent of at
    most -51. *)
Lemma small_exponent (s : bool) (m : positive) (e : Z) :
  bounded prec emax m e = true ->
  - Vpi <= val (S754_finite s m e) <= Vpi -> -1074 <= e <= -51.
Proof.
  intros V H. pose proof (bounded_range m e V) as (He & Hm & Hn).
  split; [assumption|].
  destruct (Z.le_gt_cases e (-51)) as [|Hgt]; [assumption|exfalso].
  specialize (Hn ltac:(lia)).
  assert (Hq : 2 * 2 ^ 1023 <= 2 ^ (e + 1074)).
  { rewrite <- Z.pow_succ_r by lia. apply Z.pow_le_mono_r; lia. }
  pose proof Vpi_pos as [_ Hv].
  assert (0 < 2 ^ 1023) by (apply Z.pow_pos_nonneg; lia).
  cbn [val] in H.
  change (2 ^ 53) with 9007199254740992 in *.
  change (2 ^ 52) with 4503599627370496 in *.
  destruct s; nia.
Qed.

Lemma bounded_pi : bounded prec emax PIm (-51) = true /\
                   bounded prec emax PIm (-50) = true.
Proof. split; reflexivity. Qed.

(** Adding a full turn to a finite double [x]: when the sum [V] of the
    values is positive and large enough for its exponent, the result is
    [+infinity] or a positive double that is at least every valid
    double below [V]. *)
Lemma add_turn_lower (x : float) (mb : positive) (eb : Z) :
  finite_or_zero (Prim2SF x) = true ->
  (forall s m e, Prim2SF x = S754_finite s m e ->
     2 ^ 52 * 2 ^ (Z.min e (-50) + 1074) <= val (Prim2SF x) + 2 * Vpi) ->
  bounded prec emax mb eb = true ->
  Z.pos mb * 2 ^ (eb + 1074) <= val (Prim2SF x) + 2 * Vpi ->
  Prim2SF (x + 2 * Num.M_PI) = S754_infinity false \/
  exists m' e',
    Prim2SF (x + 2 * Num.M_PI) = S754_finite false m' e' /\
    Z.pos mb * 2 ^ (eb + 1074) <= Z.pos m' * 2 ^ (e' + 1074).
Proof.
  intros Fx Hexp Vb Hb.
  assert (VT : val (S754_finite false PIm (-50)) = 2 * Vpi).
  { unfold Vpi. cbn [val]. change (-50 + 1074) with (Z.succ 1023).
    rewrite Z.pow_succ_r by lia. lia. }
  rewrite add_spec, Prim2SF_turn. unfold SF64add.
  pose proof (Prim2SF_valid x) as Vx.
  destruct (Prim2SF x) as [s|s| |s m e] eqn:E;
    [|discriminate Fx|discriminate Fx|].
  - right. exists PIm, (-50). split; [reflexivity|].
    cbn [val] in Hb. rewrite <- VT in Hb. exact Hb.
  - unfold valid_binary in Vx. cbn [SpecFloat.valid_binary] in Vx.
    pose proof (bounded_range m e Vx) as (He & _).
    destruct (SFadd_finite s m e false PIm (-50) He ltac:(lia))
      as (S & -> & HS).
    rewrite VT in HS.
    specialize (Hexp s m e eq_refl).
    assert (Hpos : 0 < Z.pos mb * 2 ^ (eb + 1074)).
    { apply Z.mul_pos_pos; [lia|].
      apply Z.pow_pos_nonneg; [lia|apply bounded_range in Vb; lia]. }
    set (V := val (S754_finite s m e) + 2 * Vpi) in *.
    assert (HV : (V <? 0) = false) by (apply Z.ltb_ge; lia).
    assert (R := normalize_lower S (Z.min e (-50)) V mb eb HS ltac:(lia)).
    rewrite HV, Z.abs_eq in R by lia. exact (R Hexp Vb Hb).
Qed.

(** The same for taking a full turn away. *)
Lemma sub_turn_lower (x : float) (mb : positive) (eb : Z) :
  finite_or_zero (Prim2SF x) = true ->
  (forall s m e, Prim2SF x = S754_finite s m e ->
     2 ^ 52 * 2 ^ (Z.min e (-50) + 1074) <= 2 * Vpi - val (Prim2SF x)) ->
  bounded prec emax mb eb = true ->
  Z.pos mb * 2 ^ (eb + 1074) <= 2 * Vpi - val (Prim2SF x) ->
  Prim2SF (x - 2 * Num.M_PI) = S754_infinity true \/
  exists m' e',
    Prim2SF (x - 2 * Num.M_PI) = S754_finite true m' e' /\
    Z.pos mb * 2 ^ (eb + 1074) <= Z.pos m' * 2 ^ (e' + 1074).
Proof.
  intros Fx Hexp Vb Hb.
  assert (VT : val (S754_finite false PIm (-50)) = 2 * Vpi).
  { unfold Vpi. cbn [val]. change (-50 + 1074) with (Z.succ 1023).
    rewrite Z.pow_succ_r by lia. lia. }
  rewrite sub_spec, Prim2SF_turn. unfold SF64sub.
  pose proof (Prim2SF_valid x) as Vx.
  destruct (Prim2SF x) as [s|s| |s m e] eqn:E;
    [|discriminate Fx|discriminate Fx|].
  - right. exists PIm, (-50). split; [reflexivity|].
    cbn [val] in Hb. rewrite <- VT in Hb. cbn [val] in Hb. lia.
  - unfold valid_binary in Vx. cbn [SpecFloat.valid_binary] in Vx.
    pose proof (bounded_range m e Vx) as (He & _).
    destruct (SFsub_finite s m e false PIm (-50) He ltac:(lia))
      as (S & -> & HS).
    rewrite VT in HS.
    specialize (Hexp s m e eq_refl).
    assert (Hpos : 0 < Z.pos mb * 2 ^ (eb + 1074)).
    { apply Z.mul_pos_pos; [lia|].
      apply Z.pow_pos_nonneg; [lia|apply bounded_range in Vb; lia]. }
    set (V := val (S754_finite s m e) - 2 * Vpi) in *.
    assert (HV : (V <? 0) = true) by (apply Z.ltb_lt; lia).
    assert (R := normalize_lower S (Z.min e (-50)) V mb eb HS ltac:(lia)).
    rewrite HV, Z.abs_neq in R by lia.
    apply R; [lia|exact Vb|lia].
Qed.

Lemma pow_1024 : 2 ^ (-50 + 1074) = 2 * 2 ^ 1023.
Proof. change (-50 + 1074) with (Z.succ 1023). rewrite Z.pow_succ_r by lia. reflexivity. Qed.

(** Two full turns added to an angle between [-pi] and [pi] take it
    above every such angle. *)
Lemma up_two_turns (st en : float) :
  (- Num.M_PI <=? st)%float = true -> (st <=? Num.M_PI)%float = true ->
  (- Num.M_PI <=? en)%float = true -> (en <=? Num.M_PI)%float = true ->
  (en + 2 * Num.M_PI + 2 * Num.M_PI <=? st)%float = false.
Proof.
  intros S1 S2 E1 E2.
  destruct (in_turn_val st S1 S2) as (Fst & Hst).
  destruct (in_turn_val en E1 E2) as (Fen & Hen).
  destruct bounded_pi as [Bpi Bturn].
  pose proof Vpi_pos as [Vlo Vhi].
  assert (P1023 : 0 < 2 ^ 1023) by (apply Z.pow_pos_nonneg; lia).
  assert (Vpi51 : Z.pos PIm * 2 ^ (-51 + 1074) = Vpi) by reflexivity.
  assert (Vpi50 : Z.pos PIm * 2 ^ (-50 + 1074) = 2 * Vpi)
    by (rewrite pow_1024; unfold Vpi; lia).
  (* the first turn *)
  assert (H1 : Prim2SF (en + 2 * Num.M_PI) = S754_infinity false \/
               exists m' e',
                 Prim2SF (en + 2 * Num.M_PI) = S754_finite false m' e' /\
                 Vpi <= Z.pos m' * 2 ^ (e' + 1074)).
  { rewrite <- Vpi51. apply add_turn_lower; try assumption.
    - intros s m e E. pose proof (Prim2SF_valid en) as Ven. rewrite E in *.
      unfold valid_binary in Ven. cbn [SpecFloat.valid_binary] in Ven.
      pose proof (small_exponent s m e Ven Hen) as He.
      rewrite Z.min_l by lia.
      assert (2 ^ (e + 1074) <= 2 ^ 1023) by (apply Z.pow_le_mono_r; lia).
      assert (0 < 2 ^ (e + 1074)) by (apply Z.pow_pos_nonneg; lia).
      change (2 ^ 52) with 4503599627370496 in *. nia.
    - rewrite Vpi51. lia. }
  (* the second turn *)
  assert (H2 : Prim2SF (en + 2 * Num.M_PI + 2 * Num.M_PI) = S754_infinity false \/
               exists m' e',
                 Prim2SF (en + 2 * Num.M_PI + 2 * Num.M_PI) = S754_finite false m' e' /\
                 2 * Vpi <= Z.pos m' * 2 ^ (e' + 1074)).
  { destruct H1 as [H1|(m1 & e1 & H1 & Hv1)].
    - left. rewrite add_spec, H1, Prim2SF_turn. reflexivity.
    - rewrite <- Vpi50. apply add_turn_lower; try assumption.
      + rewrite H1. reflexivity.
      + intros s m e E. rewrite E. rewrite H1 in E. injection E as <- <- <-.
        cbn [val].
        assert (2 ^ (Z.min e1 (-50) + 1074) <= 2 ^ (-50 + 1074))
          by (apply Z.pow_le_mono_r; lia).
        rewrite pow_1024 in *.
        change (2 ^ 52) with 4503599627370496 in *. nia.
      + rewrite H1. cbn [val]. rewrite Vpi50. lia. }
  rewrite leb_spec.
  destruct H2 as [H2|(m2 & e2 & H2 & Hv2)].
  - rewrite H2.
    destruct (Prim2SF st); [reflexivity|discriminate Fst|discriminate Fst|reflexivity].
  - pose proof (Prim2SF_valid (en + 2 * Num.M_PI + 2 * Num.M_PI)) as V2.
    rewrite H2 in V2 |- *.
    rewrite (SFleb_val _ _ V2 (Prim2SF_valid st) eq_refl Fst).
    apply Z.leb_gt. cbn [val]. lia.
Qed.

(** Two full turns taken from an angle between [-pi] and [pi] take it
    below every such angle. *)
Lemma down_two_turns (st en : float) :
  (- Num.M_PI <=? st)%float = true -> (st <=? Num.M_PI)%float = true ->
  (- Num.M_PI <=? en)%float = true -> (en <=? Num.M_PI)%float = true ->
  (st <=? en - 2 * Num.M_PI - 2 * Num.M_PI)%float = false.
Proof.
  intros S1 S2 E1 E2.
  destruct (in_turn_val st S1 S2) as (Fst & Hst).
  destruct (in_turn_val en E1 E2) as (Fen & Hen).
  destruct bounded_pi as [Bpi Bturn].
  pose proof Vpi_pos as [Vlo Vhi].
  assert (P1023 : 0 < 2 ^ 1023) by (apply Z.pow_pos_nonneg; lia).
  assert (Vpi51 : Z.pos PIm * 2 ^ (-51 + 1074) = Vpi) by reflexivity.
  assert (Vpi50 : Z.pos PIm * 2 ^ (-50 + 1074) = 2 * Vpi)
    by (rewrite pow_1024; unfold Vpi; lia).
  assert (H1 : Prim2SF (en - 2 * Num.M_PI) = S754_infinity true \/
               exists m' e',
                 Prim2SF (en - 2 * Num.M_PI) = S754_finite true m' e' /\
                 Vpi <= Z.pos m' * 2 ^ (e' + 1074)).
  { rewrite <- Vpi51. apply sub_turn_lower; try assumption.
    - intros s m e E. pose proof (Prim2SF_valid en) as Ven. rewrite E in *.
      unfold valid_binary in Ven. cbn [SpecFloat.valid_binary] in Ven.
      pose proof (small_exponent s m e Ven Hen) as He.
      rewrite Z.min_l by lia.
      assert (2 ^ (e + 1074) <= 2 ^ 1023) by (apply Z.pow_le_mono_r; lia).
      assert (0 < 2 ^ (e + 1074)) by (apply Z.pow_pos_nonneg; lia).
      change (2 ^ 52) with 4503599627370496 in *. nia.
    - rewrite Vpi51. lia. }
  assert (H2 : Prim2SF (en - 2 * Num.M_PI - 2 * Num.M_PI) = S754_infinity true \/
               exists m' e',
                 Prim2SF (en - 2 * Num.M_PI - 2 * Num.M_PI) = S754_finite true m' e' /\
                 2 * Vpi <= Z.pos m' * 2 ^ (e' + 1074)).
  { destruct H1 as [H1|(m1 & e1 & H1 & Hv1)].
    - left. rewrite sub_spec, H1, Prim2SF_turn. reflexivity.
    - rewrite <- Vpi50. apply sub_turn_lower; try assumption.
      + rewrite H1. reflexivity.
      + intros s m e E. rewrite E. rewrite H1 in E. injection E as <- <- <-.
        cbn [val].
        assert (2 ^ (Z.min e1 (-50) + 1074) <= 2 ^ (-50 + 1074))
          by (apply Z.pow_le_mono_r; lia).
        rewrite pow_1024 in *.
        change (2 ^ 52) with 4503599627370496 in *. nia.
      + rewrite H1. cbn [val]. rewrite Vpi50. lia. }
  rewrite leb_spec.
  destruct H2 as [H2|(m2 & e2 & H2 & Hv2)].
  - rewrite H2.
    destruct (Prim2SF st); [reflexivity|discriminate Fst|discriminate Fst|reflexivity].
  - pose proof (Prim2SF_valid (en - 2 * Num.M_PI - 2 * Num.M_PI)) as V2.
    rewrite H2 in V2 |- *.
    rewrite (SFleb_val _ _ (Prim2SF_valid st) V2 Fst eq_refl).
    apply Z.leb_gt. cbn [val]. lia.
Qed.
(** ** The fit and the arc against their specifications *)

(** [x * y = y * x], exactly, for all doubles. *)
Lemma mul_comm (x y : float) : (x * y = y * x)%float.
Proof.
  apply Prim2SF_inj. rewrite !mul_spec.
  unfold SF64mul, SFmul.
  destruct (Prim2SF x) as [sx| sx| |sx mx ex], (Prim2SF y) as [sy|sy| |sy my ey];
    try reflexivity; try (rewrite xorb_comm; reflexivity).
  rewrite xorb_comm, Pos.mul_comm, Z.add_comm. reflexivity.
Qed.

Lemma unit_normalized (t : P) : Vec.unit t = BiarcSpec.normalized t.
Proof.
  unfold Vec.unit, BiarcSpec.normalized, Vec.mag, Vec.dot.
  destruct (_ =? 0)%float; reflexivity.
Qed.

Lemma max_larger (x y : float) : Vec.max x y = BiarcSpec.larger x y.
Proof. reflexivity. Qed.

(** What [biarc] computes is what the specification names. *)
Lemma biarc_b (p0 ts p4 te : P) (r : float) :
  (2 * Vec.dot (Vec.sub p0 p4)
         (Vec.add (Vec.scale (Vec.unit ts) r) (Vec.unit te)))%float
  = BiarcSpec.b p0 ts p4 te r.
Proof.
  unfold BiarcSpec.b, BiarcSpec.inner, BiarcSpec.v, BiarcSpec.ts', BiarcSpec.te'.
  rewrite !unit_normalized.
  unfold Vec.dot, Vec.sub, Vec.add, Vec.scale; cbn [px py].
  rewrite (mul_comm r (px _)), (mul_comm r (py _)). reflexivity.
Qed.

Lemma biarc_p1 (p0 ts p4 te : P) (r : float) :
  Vec.add p0 (Vec.scale (BiarcSpec.ts' ts) (BiarcSpec.alpha p0 ts p4 te r))
  = BiarcSpec.p1 p0 ts p4 te r.
Proof.
  unfold BiarcSpec.p1, Vec.add, Vec.scale; cbn [px py].
  rewrite (mul_comm (BiarcSpec.alpha _ _ _ _ _) (px _)),
          (mul_comm (BiarcSpec.alpha _ _ _ _ _) (py _)).
  reflexivity.
Qed.

Lemma biarc_p3 (p0 ts p4 te : P) (r : float) :
  Vec.add p4 (Vec.scale (BiarcSpec.te' te) (- BiarcSpec.beta p0 ts p4 te r)%float)
  = BiarcSpec.p3 p0 ts p4 te r.
Proof.
  unfold BiarcSpec.p3, Vec.add, Vec.scale; cbn [px py].
  rewrite !mul_opp_r, !add_opp_r.
  rewrite (mul_comm (BiarcSpec.beta _ _ _ _ _) (px _)),
          (mul_comm (BiarcSpec.beta _ _ _ _ _) (py _)).
  reflexivity.
Qed.

Lemma biarc_p2 (p0 ts p4 te : P) (r : float) :
  let alpha := BiarcSpec.alpha p0 ts p4 te r in
  let beta := BiarcSpec.beta p0 ts p4 te r in
  Vec.add (Vec.scale (BiarcSpec.p1 p0 ts p4 te r) (beta / (alpha + beta))%float)
          (Vec.scale (BiarcSpec.p3 p0 ts p4 te r) (alpha / (alpha + beta))%float)
  = BiarcSpec.p2 p0 ts p4 te r.
Proof.
  intros alpha beta.
  unfold BiarcSpec.p2, Vec.add, Vec.scale; cbn [px py]. fold alpha beta.
  rewrite (mul_comm (beta / _) (px _)), (mul_comm (beta / _) (py _)).
  rewrite (mul_comm (alpha / _) (px _)), (mul_comm (alpha / _) (py _)).
  reflexivity.
Qed.

(** The loops of [arc] stop at the first end angle that passes the
    test, given budget enough to reach it. *)
Lemma wind_up_first (k fuel : nat) (st en : float) :
  (k <= fuel)%nat ->
  (forall j, (j < k)%nat ->
     (Nat.iter j (fun e => e + 2 * Num.M_PI) en <=? st)%float = true) ->
  (Nat.iter k (fun e => e + 2 * Num.M_PI) en <=? st)%float = false ->
  wind_up fuel st en = Some (Nat.iter k (fun e => e + 2 * Num.M_PI)%float en).
Proof.
  revert fuel en. induction k as [|k IH]; intros fuel en Hk Hlt Hat.
  - simpl in Hat. destruct fuel; simpl; rewrite Hat; reflexivity.
  - destruct fuel as [|fuel]; [lia|].
    pose proof (Hlt 0%nat ltac:(lia)) as H0. simpl in H0.
    simpl wind_up. rewrite H0.
    assert (Hi : forall j, Nat.iter j (fun e => e + 2 * Num.M_PI)%float
                             (en + 2 * Num.M_PI)%float
                           = Nat.iter (S j) (fun e => e + 2 * Num.M_PI)%float en)
      by (intros j; rewrite Nat.iter_succ_r; reflexivity).
    rewrite <- Hi. apply IH; [lia| |].
    + intros j Hj. rewrite Hi. apply Hlt. lia.
    + rewrite Hi. exact Hat.
Qed.

Lemma wind_down_first (k fuel : nat) (st en : float) :
  (k <= fuel)%nat ->
  (forall j, (j < k)%nat ->
     (st <=? Nat.iter j (fun e => e - 2 * Num.M_PI) en)%float = true) ->
  (st <=? Nat.iter k (fun e => e - 2 * Num.M_PI) en)%float = false ->
  wind_down fuel st en = Some (Nat.iter k (fun e => e - 2 * Num.M_PI)%float en).
Proof.
  revert fuel en. induction k as [|k IH]; intros fuel en Hk Hlt Hat.
  - simpl in Hat. destruct fuel; simpl; rewrite Hat; reflexivity.
  - destruct fuel as [|fuel]; [lia|].
    pose proof (Hlt 0%nat ltac:(lia)) as H0. simpl in H0.
    simpl wind_down. rewrite H0.
    assert (Hi : forall j, Nat.iter j (fun e => e - 2 * Num.M_PI)%float
                             (en - 2 * Num.M_PI)%float
                           = Nat.iter (S j) (fun e => e - 2 * Num.M_PI)%float en)
      by (intros j; rewrite Nat.iter_succ_r; reflexivity).
    rewrite <- Hi. apply IH; [lia| |].
    + intros j Hj. rewrite Hi. apply Hlt. lia.
    + rewrite Hi. exact Hat.
Qed.

(** An arc that is not collinear, and whose end angle settles after [k]
    adjustments, is printed as one vertex with the bulge of the
    specification. *)
Lemma arc_bulge (L : libm) (fuel k : nat) (p1 p2 d : P) (s : state) :
  ArcSpec.collinear p1 p2 d = false ->
  ArcSpec.settles L p1 p2 d k -> (k <= fuel)%nat ->
  arc L fuel p1 p2 d s =
    Ret tt (set_out (out s ++ bulge_vertex (ArcSpec.bulge L p1 p2 d k) p2) s).
Proof.
  intros Hc [Hlt Hat] Hk.
  unfold arc. rewrite unit_normalized.
  change (BiarcSpec.normalized d) with (ArcSpec.d' d).
  change (Vec.sub p2 p1) with (ArcSpec.chord p1 p2).
  change (2 * (py (ArcSpec.chord p1 p2) * px (ArcSpec.d' d)
               - px (ArcSpec.chord p1 p2) * py (ArcSpec.d' d)))%float
    with (ArcSpec.den p1 p2 d).
  change (abs (ArcSpec.den p1 p2 d) <? Num.tiny)%float
    with (ArcSpec.collinear p1 p2 d).
  rewrite Hc.
  change (- Vec.dot (ArcSpec.chord p1 p2) (ArcSpec.chord p1 p2)
          / ArcSpec.den p1 p2 d)%float with (ArcSpec.radius p1 p2 d).
  change (mkP (px p1 + py (ArcSpec.d' d) * ArcSpec.radius p1 p2 d)
              (py p1 + - px (ArcSpec.d' d) * ArcSpec.radius p1 p2 d))%float
    with (ArcSpec.centre p1 p2 d).
  change (atan2 L (py p1 - py (ArcSpec.centre p1 p2 d))
                  (px p1 - px (ArcSpec.centre p1 p2 d)))%float
    with (ArcSpec.start L p1 p2 d).
  change (atan2 L (py p2 - py (ArcSpec.centre p1 p2 d))
                  (px p2 - px (ArcSpec.centre p1 p2 d)))%float
    with (ArcSpec.finish L p1 p2 d).
  unfold ArcSpec.bulge, ArcSpec.adjusted.
  unfold ArcSpec.behind, ArcSpec.adjusted in Hlt, Hat.
  change ArcSpec.turn with (2 * Num.M_PI)%float in *.
  destruct (ArcSpec.radius p1 p2 d <? 0)%float.
  - rewrite (wind_up_first k fuel _ _ Hk Hlt Hat). reflexivity.
  - rewrite (wind_down_first k fuel _ _ Hk Hlt Hat). reflexivity.
Qed.

(** A NaN compares with nothing. *)
Lemma nan_leb (a b : float) :
  is_nan a = true -> (a <=? b)%float = false /\ (b <=? a)%float = false.
Proof.
  unfold is_nan. rewrite negb_true_iff, eqb_spec, !leb_spec.
  destruct (Prim2SF a) as [s|s| |s m e]; unfold SFeqb, SFleb; cbn [SFcompare].
  - discriminate.
  - destruct s; discriminate.
  - intros _. split; [reflexivity|]. destruct (Prim2SF b); reflexivity.
  - rewrite Z.compare_refl, Pos.compare_cont_refl. destruct s; discriminate.
Qed.

(** With an [atan2] as C requires it, the end angle settles after the
    number of adjustments that the specification counts: two at most. *)
Lemma settles_turns (L : libm) (p1 p2 d : P) :
  atan2_in_range L ->
  ArcSpec.settles L p1 p2 d (ArcSpec.turns L p1 p2 d) /\
  (ArcSpec.turns L p1 p2 d <= 2)%nat.
Proof.
  intros HL. unfold ArcSpec.turns.
  destruct (ArcSpec.behind L p1 p2 d (ArcSpec.finish L p1 p2 d)) eqn:B0;
    [destruct (ArcSpec.behind L p1 p2 d (ArcSpec.adjusted L p1 p2 d 1)) eqn:B1|].
  - split; [|lia]. split.
    + intros j Hj. destruct j as [|[|j]]; [exact B0|exact B1|lia].
    + assert (Hst := HL (py p1 - py (ArcSpec.centre p1 p2 d))%float
                        (px p1 - px (ArcSpec.centre p1 p2 d))%float).
      assert (Hen := HL (py p2 - py (ArcSpec.centre p1 p2 d))%float
                        (px p2 - px (ArcSpec.centre p1 p2 d))%float).
      fold (ArcSpec.start L p1 p2 d) in Hst.
      fold (ArcSpec.finish L p1 p2 d) in Hen.
      revert B0. unfold ArcSpec.behind, ArcSpec.adjusted. cbn [Nat.iter].
      change ArcSpec.turn with (2 * Num.M_PI)%float.
      destruct Hst as [Hst|[S1 S2]].
      { destruct (nan_leb _ (ArcSpec.finish L p1 p2 d) Hst) as [-> ->].
        destruct (_ <? 0)%float; discriminate. }
      destruct Hen as [Hen|[E1 E2]].
      { destruct (nan_leb _ (ArcSpec.start L p1 p2 d) Hen) as [-> ->].
        destruct (_ <? 0)%float; discriminate. }
      intros _. destruct (_ <? 0)%float.
      * now apply up_two_turns.
      * now apply down_two_turns.
  - split; [|lia]. split; [|exact B1].
    intros j Hj. assert (j = 0)%nat as -> by lia. exact B0.
  - split; [|lia]. split; [|exact B0].
    intros j Hj. lia.
Qed.

(** So every arc that is not collinear is printed as a bulge, given a
    budget of two passes. *)
Lemma arc_in_range (L : libm) (fuel : nat) (p1 p2 d : P) (s : state) :
  atan2_in_range L -> (2 <= fuel)%nat ->
  ArcSpec.collinear p1 p2 d = false ->
  arc L fuel p1 p2 d s =
    Ret tt (set_out (out s ++ bulge_vertex
                       (ArcSpec.bulge L p1 p2 d (ArcSpec.turns L p1 p2 d)) p2) s).
Proof.
  intros HL Hf Hc. destruct (settles_turns L p1 p2 d HL) as [Hs Hk].
  apply (arc_bulge L fuel (ArcSpec.turns L p1 p2 d)); [assumption|assumption|lia].
Qed.


(** The placeholder [atan2] keeps to the range. *)
Lemma sample_libm_in_range : atan2_in_range sample_libm.
Proof. intros y x. right. split; reflexivity. Qed.

(** C1.  [biarc], for the ratio [r] (the flattener passes 1) and the
    normalized tangents [ts'], [te'].  When [a = 2r(ts'.te' - 1)] is
    zero, or the discriminant is negative, or the larger of the two
    roots is not positive, it prints one straight vertex at [p4] (codes
    10 and 20, no bulge) and nothing else.  Otherwise it takes the
    larger root [beta], [alpha = beta r], the joint [p2] weighted from
    [p1 = p0 + alpha ts'] and [p3 = p4 - beta te'], and runs [arc] from
    [p0] to [p2] with tangent [ts'], then [arc] from [p2] to [p4] with
    tangent [tm = p3 - p2].  With an [atan2] as C requires it (and a
    budget of two passes for each loop), each of the two arcs that is
    not collinear is printed as one vertex with its bulge, at [p2] for
    the first and at [p4] for the second; when neither is collinear,
    the output of the fit is exactly these two vertices, in this
    order. *)
Theorem biarc_cases (L : libm) (fuel : nat) (p0 ts p4 te : P) (r : float)
  (s : state) :
  let s1 := set_biarc_calls (S (biarc_calls s)) s in
  let p2 := BiarcSpec.p2 p0 ts p4 te r in
  let ts' := BiarcSpec.ts' ts in
  let tm := BiarcSpec.tm p0 ts p4 te r in
  let bulge1 := ArcSpec.bulge L p0 p2 ts' (ArcSpec.turns L p0 p2 ts') in
  let bulge2 := ArcSpec.bulge L p2 p4 tm (ArcSpec.turns L p2 p4 tm) in
  (BiarcSpec.falls_back p0 ts p4 te r = true ->
   biarc L fuel p0 ts p4 te r s = Ret tt (set_out (out s ++ vertex p4) s1) /\
   group_codes (vertex p4) = [text "10"; text "20"]) /\
  (BiarcSpec.falls_back p0 ts p4 te r = false ->
   biarc L fuel p0 ts p4 te r s =
     (arc L fuel p0 p2 ts' ;; arc L fuel p2 p4 tm) s1 /\
   (atan2_in_range L -> (2 <= fuel)%nat ->
    (ArcSpec.collinear p0 p2 ts' = false ->
     forall sm : state,
       arc L fuel p0 p2 ts' sm =
         Ret tt (set_out (out sm ++ bulge_vertex bulge1 p2) sm)) /\
    (ArcSpec.collinear p2 p4 tm = false ->
     forall sm : state,
       arc L fuel p2 p4 tm sm =
         Ret tt (set_out (out sm ++ bulge_vertex bulge2 p4) sm)) /\
    (ArcSpec.collinear p0 p2 ts' = false ->
     ArcSpec.collinear p2 p4 tm = false ->
     biarc L fuel p0 ts p4 te r s =
       Ret tt (set_out (out s ++ bulge_vertex bulge1 p2
                              ++ bulge_vertex bulge2 p4) s1) /\
     group_codes (bulge_vertex bulge1 p2 ++ bulge_vertex bulge2 p4)
     = [text "42"; text "10"; text "20"; text "42"; text "10"; text "20"]))).
Proof.
  intros s1 p2 ts' tm bulge1 bulge2.
  assert (Hfit : biarc L fuel p0 ts p4 te r s =
                 if BiarcSpec.falls_back p0 ts p4 te r then line p4 s1
                 else (arc L fuel p0 p2 ts' ;; arc L fuel p2 p4 tm) s1).
  { unfold biarc, bind at 1, modify. fold s1.
    rewrite biarc_b, !max_larger, !unit_normalized.
    change (BiarcSpec.normalized ts) with (BiarcSpec.ts' ts).
    change (BiarcSpec.normalized te) with (BiarcSpec.te' te).
    change (Vec.dot (Vec.sub p0 p4) (Vec.sub p0 p4)) with (BiarcSpec.c p0 p4).
    change (2 * r * (Vec.dot (BiarcSpec.ts' ts) (BiarcSpec.te' te) - 1))%float
      with (BiarcSpec.a ts te r).
    change (BiarcSpec.b p0 ts p4 te r * BiarcSpec.b p0 ts p4 te r
            - 4 * BiarcSpec.a ts te r * BiarcSpec.c p0 p4)%float
      with (BiarcSpec.disc p0 ts p4 te r).
    change (BiarcSpec.larger
              ((- BiarcSpec.b p0 ts p4 te r - sqrt (BiarcSpec.disc p0 ts p4 te r))
               / 2 / BiarcSpec.a ts te r)
              ((- BiarcSpec.b p0 ts p4 te r + sqrt (BiarcSpec.disc p0 ts p4 te r))
               / 2 / BiarcSpec.a ts te r))%float
      with (BiarcSpec.beta p0 ts p4 te r).
    change (BiarcSpec.beta p0 ts p4 te r * r)%float
      with (BiarcSpec.alpha p0 ts p4 te r).
    rewrite biarc_p1, biarc_p3, biarc_p2.
    unfold BiarcSpec.falls_back.
    destruct (_ || _); [reflexivity|].
    destruct (_ <=? 0)%float; reflexivity. }
  split; intros Hfb; rewrite Hfb in Hfit.
  - split; [exact Hfit|reflexivity].
  - split; [exact Hfit|]. intros HL Hf. split; [|split].
    + intros Hc sm. now apply arc_in_range.
    + intros Hc sm. now apply arc_in_range.
    + intros Hc1 Hc2. split; [|reflexivity].
      rewrite Hfit. unfold bind.
      rewrite (arc_in_range L fuel p0 p2 ts' s1 HL Hf Hc1).
      rewrite (arc_in_range L fuel p2 p4 tm _ HL Hf Hc2).
      f_equal. unfold s1. destruct s; unfold set_out, set_biarc_calls; cbn.
      rewrite <- app_assoc. reflexivity.
Qed.

(** Five fits with tangents that are not of length one.  Parallel
    tangents along the chord: [a = 0], one straight vertex.  Parallel
    tangents across the chord from (0,0) to (2,5): the discriminant is
    negative, one straight vertex.  A fit from (1,1) to (1,1): the
    larger root is zero, one straight vertex.  The quarter turn from
    (0,0) heading east to (1,1) heading north: two bulges, each after
    one adjustment of the end angle (both angles are 0 with the
    placeholder [atan2]).  The last fit has the second root for its
    larger one. *)
Lemma biarc_cases_witness :
  (biarc sample_libm 2 (mkP 0 0) (mkP 3 0) (mkP 2 0) (mkP 5 0) 1 initial_state
   = Ret tt (set_out (out initial_state ++ vertex (mkP 2 0))
                     (set_biarc_calls 1 initial_state))) /\
  ((BiarcSpec.disc (mkP 0 0) (mkP 5 (-2)) (mkP 2 5) (mkP 5 (-2)) 1 <? 0)%float
   = true /\
   biarc sample_libm 2 (mkP 0 0) (mkP 5 (-2)) (mkP 2 5) (mkP 5 (-2)) 1
     initial_state
   = Ret tt (set_out (out initial_state ++ vertex (mkP 2 5))
                     (set_biarc_calls 1 initial_state))) /\
  ((BiarcSpec.beta (mkP 1 1) (mkP 2 0) (mkP 1 1) (mkP 0 3) 1 <=? 0)%float
   = true /\
   biarc sample_libm 2 (mkP 1 1) (mkP 2 0) (mkP 1 1) (mkP 0 3) 1 initial_state
   = Ret tt (set_out (out initial_state ++ vertex (mkP 1 1))
                     (set_biarc_calls 1 initial_state))) /\
  (let p2 := BiarcSpec.p2 (mkP 0 0) (mkP 2 0) (mkP 1 1) (mkP 0 3) 1 in
   let tm := BiarcSpec.tm (mkP 0 0) (mkP 2 0) (mkP 1 1) (mkP 0 3) 1 in
   (ArcSpec.turns sample_libm (mkP 0 0) p2 (BiarcSpec.ts' (mkP 2 0)) = 1%nat /\
    ArcSpec.turns sample_libm p2 (mkP 1 1) tm = 1%nat) /\
   biarc sample_libm 2 (mkP 0 0) (mkP 2 0) (mkP 1 1) (mkP 0 3) 1 initial_state
   = Ret tt (set_out (out initial_state
                      ++ bulge_vertex
                           (ArcSpec.bulge sample_libm (mkP 0 0) p2
                              (BiarcSpec.ts' (mkP 2 0)) 1) p2
                      ++ bulge_vertex
                           (ArcSpec.bulge sample_libm p2 (mkP 1 1) tm 1)
                           (mkP 1 1))
                     (set_biarc_calls 1 initial_state))) /\
  (let p2 := BiarcSpec.p2 (mkP 0 0) (mkP 5 (-2)) (mkP 1 1) (mkP 5 (-2)) 1 in
   let tm := BiarcSpec.tm (mkP 0 0) (mkP 5 (-2)) (mkP 1 1) (mkP 5 (-2)) 1 in
   (BiarcSpec.beta1 (mkP 0 0) (mkP 5 (-2)) (mkP 1 1) (mkP 5 (-2)) 1
    <? BiarcSpec.beta2 (mkP 0 0) (mkP 5 (-2)) (mkP 1 1) (mkP 5 (-2)) 1)%float
   = true /\
   biarc sample_libm 2 (mkP 0 0) (mkP 5 (-2)) (mkP 1 1) (mkP 5 (-2)) 1
     initial_state
   = Ret tt (set_out (out initial_state
                      ++ bulge_vertex
                           (ArcSpec.bulge sample_libm (mkP 0 0) p2
                              (BiarcSpec.ts' (mkP 5 (-2))) 1) p2
                      ++ bulge_vertex
                           (ArcSpec.bulge sample_libm p2 (mkP 1 1) tm 1)
                           (mkP 1 1))
                     (set_biarc_calls 1 initial_state))).
Proof.
  split; [|split; [|split; [|split]]].
  - refine (proj1 (proj1 (biarc_cases sample_libm 2 (mkP 0 0) (mkP 3 0)
                            (mkP 2 0) (mkP 5 0) 1 initial_state) _)).
    vm_compute. reflexivity.
  - split; [vm_compute; reflexivity|].
    refine (proj1 (proj1 (biarc_cases sample_libm 2 (mkP 0 0) (mkP 5 (-2))
                            (mkP 2 5) (mkP 5 (-2)) 1 initial_state) _)).
    vm_compute. reflexivity.
  - split; [vm_compute; reflexivity|].
    refine (proj1 (proj1 (biarc_cases sample_libm 2 (mkP 1 1) (mkP 2 0)
                            (mkP 1 1) (mkP 0 3) 1 initial_state) _)).
    vm_compute. reflexivity.
  - split; [split; vm_compute; reflexivity|].
    refine (proj1 (proj2 (proj2 (proj2 (proj2
              (biarc_cases sample_libm 2 (mkP 0 0) (mkP 2 0) (mkP 1 1)
                 (mkP 0 3) 1 initial_state) _)
              sample_libm_in_range (le_n 2))) _ _));
      vm_compute; reflexivity.
  - split; [vm_compute; reflexivity|].
    refine (proj1 (proj2 (proj2 (proj2 (proj2
              (biarc_cases sample_libm 2 (mkP 0 0) (mkP 5 (-2)) (mkP 1 1)
                 (mkP 5 (-2)) 1 initial_state) _)
              sample_libm_in_range (le_n 2))) _ _));
      vm_compute; reflexivity.
Defined.

(** The fit from (125,0) heading east to (100,0) heading west, the
    second fit of the conic from (0,0) over (200,0) to (100,0): the
    larger root is 12.5, none of the three tests holds, the joint falls
    on [p0], both arcs are collinear, and what is printed is two G-code
    moves, which no choice of bulges turns into two arc vertices. *)
Lemma biarc_collinear_no_arc :
  BiarcSpec.falls_back (mkP 125 0) (mkP 50 0) (mkP 100 0) (mkP (-100) 0) 1
    = false /\
  BiarcSpec.p2 (mkP 125 0) (mkP 50 0) (mkP 100 0) (mkP (-100) 0) 1
    = mkP 125 0 /\
  (forall (L : libm) (fuel : nat),
     biarc L fuel (mkP 125 0) (mkP 50 0) (mkP 100 0) (mkP (-100) 0) 1
       initial_state
     = Ret tt (set_out (gcode_move (mkP 125 0) ++ gcode_move (mkP 100 0))
                       (set_biarc_calls 1 initial_state))) /\
  (forall b1 b2 : float,
     gcode_move (mkP 125 0) ++ gcode_move (mkP 100 0)
     <> bulge_vertex b1 (mkP 125 0) ++ bulge_vertex b2 (mkP 100 0)).
Proof.
  split; [|split; [|split]].
  - vm_compute. reflexivity.
  - vm_compute. reflexivity.
  - intros L fuel. vm_compute. reflexivity.
  - intros b1 b2. discriminate.
Qed.

(** C2 (what the code does).  For [p1 = (0,0)], [p2 = (1,0)] and the
    tangent [(1,0)] the denominator is zero, and [arc] prints the line
    [G1 X[1.0000*#3+#5] Y[0.0000*#3+#6]]: a G-code move, which is not the
    straight vertex that [line] prints and carries no group code. *)
Theorem arc_collinear_gcode (L : libm) (fuel : nat) (s : state) :
  arc L fuel (mkP 0 0) (mkP 1 0) (mkP 1 0) s =
    Ret tt (set_out (out s ++ gcode_move (mkP 1 0)) s) /\
  line (mkP 1 0) s = Ret tt (set_out (out s ++ vertex (mkP 1 0)) s) /\
  gcode_move (mkP 1 0) <> vertex (mkP 1 0) /\
  group_codes (gcode_move (mkP 1 0)) <> group_codes (vertex (mkP 1 0)).
Proof.
  split; [|split; [|split]].
  - apply arc_degenerate. vm_compute. reflexivity.
  - reflexivity.
  - discriminate.
  - discriminate.
Qed.

(** The same through the outline walker: the conic from (0,0) with
    control point (200,0) to (100,0), which doubles back on itself, puts
    two G-code moves into the DXF stream. *)
Lemma conic_collinear_gcode :
  exists s',
    my_conic_to sample_libm 0 (mkV 200 0) (mkV 100 0) (configured plain_options)
      = Ret 0 s' /\
    out s' = vertex (mkP 125 0) ++ gcode_move (mkP 125 0) ++ gcode_move (mkP 100 0).
Proof. eexists. split; vm_compute; reflexivity. Qed.

(** ** Frame rules *)

Section Keeps.

Context {B : Type} (f : state -> B).

Lemma keeps_ret {A} (a : A) : keeps f (ret a).
Proof. intros s a' s' [= _ <-]. reflexivity. Qed.

Lemma keeps_get : keeps f get.
Proof. intros s a' s' [= _ <-]. reflexivity. Qed.

Lemma keeps_undefined {A} : keeps f (@undefined A).
Proof. intros s a s' H. discriminate. Qed.

Lemma keeps_out_of_fuel {A} : keeps f (@out_of_fuel A).
Proof. intros s a s' H. discriminate. Qed.

Lemma keeps_exit {A} (c : Z) : keeps f (@exit A c).
Proof. intros s a s' H. discriminate. Qed.

Lemma keeps_defined {A} (o : option A) : keeps f (defined o).
Proof. destruct o; [apply keeps_ret|apply keeps_undefined]. Qed.

Lemma keeps_budget {A} (o : option A) : keeps f (budget o).
Proof. destruct o; [apply keeps_ret|apply keeps_out_of_fuel]. Qed.

Lemma keeps_counts_to (n : Z) : keeps f (counts_to n).
Proof.
  unfold counts_to. destruct (n <? Num.INT_MAX); [apply keeps_ret|apply keeps_undefined].
Qed.

Lemma keeps_modify (g : state -> state) :
  (forall s, f (g s) = f s) -> keeps f (modify g).
Proof. intros H s a s' [= _ <-]. apply H. Qed.

Lemma keeps_bind {A C} (m : M A) (k : A -> M C) :
  keeps f m -> (forall a, keeps f (k a)) -> keeps f (bind m k).
Proof.
  intros Hm Hk s c s2 H. apply bind_inv in H as (a & s1 & H1 & H2).
  rewrite (Hk _ _ _ _ H2). apply (Hm _ _ _ H1).
Qed.

Lemma keeps_for_acc {A} (n : nat) (body : Z -> A -> M A) :
  (forall t a, keeps f (body t a)) -> forall t a, keeps f (for_acc n t a body).
Proof.
  intros Hb. induction n as [|n IH]; intros t a; simpl.
  - apply keeps_ret.
  - apply keeps_bind; [apply Hb|intros a'; apply IH].
Qed.

Lemma keeps_for_up (n : nat) (body : Z -> M unit) :
  (forall t, keeps f (body t)) -> forall t, keeps f (for_up n t body).
Proof.
  intros Hb. induction n as [|n IH]; intros t; simpl.
  - apply keeps_ret.
  - apply keeps_bind; [apply Hb|intros _; apply IH].
Qed.

Lemma keeps_for_down (n : nat) (body : Z -> M unit) :
  (forall t, keeps f (body t)) -> forall t, keeps f (for_down n t body).
Proof.
  intros Hb. induction n as [|n IH]; intros t; simpl.
  - apply keeps_ret.
  - apply keeps_bind; [apply Hb|intros _; apply IH].
Qed.

End Keeps.

(** [arc], [line] and the callbacks for straight segments keep every
    component that is not the one they assign. *)
Lemma keeps_line {B} (f : state -> B) (p : P) :
  (forall o s, f (set_out o s) = f s) -> keeps f (line p).
Proof. intros H. apply keeps_modify. intros s. apply H. Qed.

Lemma keeps_arc {B} (f : state -> B) (L : libm) (fuel : nat) (p1 p2 d : P) :
  (forall o s, f (set_out o s) = f s) -> keeps f (arc L fuel p1 p2 d).
Proof.
  intros H. unfold arc.
  destruct (abs _ <? Num.tiny)%float.
  - apply keeps_modify. intros s. apply H.
  - apply keeps_bind; [apply keeps_budget|intros en].
    apply keeps_modify. intros s. apply H.
Qed.

Lemma keeps_maybe_output_layer {B} (f : state -> B) :
  (forall o s, f (set_out o s) = f s) -> keeps f maybe_output_layer.
Proof.
  intros H s a s'. rewrite maybe_output_layer_eq. intros [= _ <-]. apply H.
Qed.

Lemma keeps_my_move_to {B} (f : state -> B) (to : FT_Vector) :
  (forall o s, f (set_out o s) = f s) ->
  (forall p s, f (set_last_point p s) = f s) ->
  (forall e s, f (set_glyph_extents e s) = f s) ->
  keeps f (my_move_to to).
Proof.
  intros Ho Hl He. unfold my_move_to.
  apply keeps_bind; [apply keeps_modify; intros; apply Ho|intros _].
  apply keeps_bind; [now apply keeps_maybe_output_layer|intros _].
  apply keeps_bind; [apply keeps_modify; intros; apply Hl|intros _].
  apply keeps_bind; [apply keeps_modify; intros; apply He|intros _].
  apply keeps_ret.
Qed.

Lemma keeps_my_line_to {B} (f : state -> B) (to : FT_Vector) :
  (forall o s, f (set_out o s) = f s) ->
  (forall p s, f (set_last_point p s) = f s) ->
  (forall e s, f (set_glyph_extents e s) = f s) ->
  keeps f (my_line_to to).
Proof.
  intros Ho Hl He. unfold my_line_to.
  apply keeps_bind; [apply keeps_modify; intros; apply Ho|intros _].
  apply keeps_bind; [apply keeps_modify; intros; apply Hl|intros _].
  apply keeps_bind; [apply keeps_modify; intros; apply He|intros _].
  apply keeps_ret.
Qed.

(** ** Counting the fits *)





Lemma keeps_sample {B} (f : state -> B) (L : libm) (x y : float)
  (loc : FT_Vector * float) :
  (forall e s, f (set_glyph_extents e s) = f s) -> keeps f (sample L x y loc).
Proof.
  intros He. unfold sample. destruct loc as [point len].
  apply keeps_bind; [apply keeps_defined|intros px'].
  apply keeps_bind; [apply keeps_defined|intros py'].
  apply keeps_bind; [apply keeps_modify; intros; apply He|intros _].
  apply keeps_ret.
Qed.

Lemma keeps_conic_length {B} (f : state -> B) (L : libm) (control to : FT_Vector) :
  (forall e s, f (set_glyph_extents e s) = f s) ->
  keeps f (conic_length L control to).
Proof.
  intros He. unfold conic_length.
  apply keeps_bind; [apply keeps_get|intros s0].
  apply keeps_bind; [apply keeps_counts_to|intros _].
  apply keeps_bind; [|intros r; apply keeps_ret].
  apply keeps_for_acc. intros t a. now apply keeps_sample.
Qed.

Lemma keeps_cubic_length {B} (f : state -> B) (L : libm)
  (control1 control2 to : FT_Vector) :
  (forall e s, f (set_glyph_extents e s) = f s) ->
  keeps f (cubic_length L control1 control2 to).
Proof.
  intros He. unfold cubic_length.
  apply keeps_bind; [apply keeps_get|intros s0].
  apply keeps_bind; [apply keeps_counts_to|intros _].
  apply keeps_bind; [|intros r; apply keeps_ret].
  apply keeps_for_acc. intros t a. now apply keeps_sample.
Qed.

(** ** The number of subdivisions *)







(** ** The flattener against its specification *)










(** ** The fits return when the angle loops end *)









(** ** Rendering a character *)

Lemma check_ok (ft_errors : list (Z * string)) (where_ : string) (line_ : Z)
  (s : state) :
  check ft_errors where_ 0 line_ s = Ret tt s.
Proof. reflexivity. Qed.

Lemma check_failed (ft_errors : list (Z * string)) (where_ : string)
  (error line_ : Z) (s : state) :
  error <> 0 ->
  check ft_errors where_ error line_ s =
  Exit line_ (died ft_errors where_ error line_ s).
Proof.
  intros H. unfold check, handle_ft_error, died, fatal_message.
  destruct (Z.eqb_spec error 0) as [E|_]; [contradiction|]. simpl.
  unfold bind, fprintf_stderr, modify, exit.
  destruct (find_error ft_errors error) as [msg|]; simpl; unfold nl;
    norm_text; reflexivity.
Qed.

(** C8.  When the size can be set and [FT_Get_Char_Index] finds no glyph
    for the character, [render_char] returns -1 having assigned
    [charcode] only; the font-generation loop and the text loop then go
    on to the next character: nothing is printed on either stream, the
    program does not exit, and [line_extents] (and the pen offset) stay
    as they were. *)
Theorem missing_glyph_skipped (L : libm) (fuel : nat)
  (ft_errors : list (Z * string)) (face : FT_Face) (c offset linescale : Z)
  (s : state) :
  FT_Set_Pixel_Sizes face 4096 (if negb (linescale =? 0) then linescale else 64) = 0 ->
  FT_Get_Char_Index face c = 0 ->
  render_char L fuel ft_errors face c offset linescale s
    = Ret (-1) (set_charcode c s) /\
  genfont_char L fuel ft_errors face offset linescale c s
    = Ret tt (set_charcode c s) /\
  (forall txt,
     let s' := set_charcode c (set_glyph_extents (extents_reset (glyph_extents s)) s) in
     text_loop L fuel ft_errors face linescale (Wide c :: txt) offset s
       = text_loop L fuel ft_errors face linescale txt offset s' /\
     out s' = out s /\ err s' = err s /\ line_extents s' = line_extents s) /\
  out (set_charcode c s) = out s /\
  err (set_charcode c s) = err s /\
  line_extents (set_charcode c s) = line_extents s.
Proof.
  intros Hsize Hidx.
  assert (R : forall s0, render_char L fuel ft_errors face c offset linescale s0
                         = Ret (-1) (set_charcode c s0)).
  { intros s0. unfold render_char, bind, modify. rewrite Hsize, Hidx. reflexivity. }
  split; [apply R|split; [|split]].
  - unfold genfont_char. rewrite (bind_ret_eq _ _ _ _ _ (R s)). reflexivity.
  - intros txt s'. split; [|repeat split].
    simpl. unfold bind at 1. unfold modify at 1.
    rewrite (bind_ret_eq _ _ _ _ _ (R _)). reflexivity.
  - repeat split.
Qed.

(** The character 'C' has no glyph in the two-glyph font. *)
Lemma missing_glyph_skipped_witness :
  render_char sample_libm 4 sample_errors (font 0 0) 67 0 0 (configured plain_options)
    = Ret (-1) (set_charcode 67 (configured plain_options)).
Proof.
  refine (proj1 (missing_glyph_skipped sample_libm 4 sample_errors (font 0 0)
                   67 0 0 (configured plain_options) _ _)); reflexivity.
Defined.

(** ** What the drawing code leaves alone *)

Lemma keeps_biarc {B} (f : state -> B) (L : libm) (fuel : nat)
  (p0 ts p4 te : P) (r : float) :
  (forall o s, f (set_out o s) = f s) ->
  (forall n s, f (set_biarc_calls n s) = f s) ->
  keeps f (biarc L fuel p0 ts p4 te r).
Proof.
  intros Ho Hn. unfold biarc.
  apply keeps_bind; [apply keeps_modify; intros; apply Hn|intros _].
  destruct (_ || _); [now apply keeps_line|].
  destruct (_ <=? 0)%float; [now apply keeps_line|].
  apply keeps_bind; [|intros _]; now apply keeps_arc.
Qed.

Lemma keeps_my_conic_to {B} (f : state -> B) (L : libm) (fuel : nat)
  (control to : FT_Vector) :
  drawing_frame f -> keeps f (my_conic_to L fuel control to).
Proof.
  intros F. pose proof F as (Ho & Hl & He & Hn). unfold my_conic_to.
  apply keeps_bind; [apply keeps_get|intros s0].
  apply keeps_bind; [destruct (_ <=? 0); [apply keeps_undefined|apply keeps_ret]|intros _].
  apply keeps_bind; [now apply keeps_conic_length|intros len].
  apply keeps_bind; [apply keeps_defined|intros steps].
  apply keeps_bind; [apply keeps_counts_to|intros _].
  apply keeps_bind.
  - apply keeps_for_acc. intros t [ps ts].
    apply keeps_bind; [now apply keeps_biarc|intros _; apply keeps_ret].
  - intros _. apply keeps_bind; [apply keeps_modify; intros; apply Hl|intros _].
    apply keeps_ret.
Qed.

Lemma keeps_my_cubic_to {B} (f : state -> B) (L : libm) (fuel : nat)
  (control1 control2 to : FT_Vector) :
  drawing_frame f -> keeps f (my_cubic_to L fuel control1 control2 to).
Proof.
  intros F. pose proof F as (Ho & Hl & He & Hn). unfold my_cubic_to.
  apply keeps_bind; [apply keeps_get|intros s0].
  apply keeps_bind; [now apply keeps_cubic_length|intros len].
  apply keeps_bind; [apply keeps_defined|intros steps].
  apply keeps_bind; [apply keeps_counts_to|intros _].
  apply keeps_bind.
  - apply keeps_for_acc. intros t [ps ts].
    apply keeps_bind; [now apply keeps_biarc|intros _; apply keeps_ret].
  - intros _. apply keeps_bind; [apply keeps_modify; intros; apply Hl|intros _].
    apply keeps_ret.
Qed.

Lemma keeps_emit {B} (f : state -> B) (L : libm) (fuel : nat) (seg : segment) :
  drawing_frame f -> keeps f (emit L fuel seg).
Proof.
  intros F. pose proof F as (Ho & Hl & He & Hn).
  destruct seg; simpl.
  - now apply keeps_my_move_to.
  - now apply keeps_my_line_to.
  - now apply keeps_my_conic_to.
  - now apply keeps_my_cubic_to.
Qed.

Lemma keeps_FT_Outline_Decompose {B} (f : state -> B) (L : libm) (fuel : nat)
  (walk : list segment) (final : Z) :
  drawing_frame f -> keeps f (FT_Outline_Decompose L fuel walk final).
Proof.
  intros F. induction walk as [|seg walk IH]; simpl.
  - apply keeps_ret.
  - apply keeps_bind; [now apply keeps_emit|intros e].
    destruct (e =? 0); [apply IH|apply keeps_ret].
Qed.

Lemma keeps_push_span {B} (f : state -> B) (w : FT_Vector) (loc : tracer) :
  keeps f (push_span w loc).
Proof.
  unfold push_span. destruct (_ <? 0); [apply keeps_undefined|].
  destruct (store _ _ _); [apply keeps_ret|apply keeps_undefined].
Qed.

Lemma keeps_span_at {B} (f : state -> B) (loc : tracer) (k : Z) :
  keeps f (span_at loc k).
Proof.
  unfold span_at. destruct (_ <? 0); [apply keeps_undefined|].
  destruct (nth_error _ _) as [[w|]|];
    [apply keeps_ret|apply keeps_undefined|apply keeps_undefined].
Qed.

(** The pixel loop assigns [oldbit] and nothing else. *)
Lemma keeps_trace_bit {B} (f : state -> B) (x y linescale j i byte bits : Z)
  (loc : tracer) :
  (forall b s, f (set_oldbit b s) = f s) ->
  keeps f (trace_bit x y linescale j i byte bits loc).
Proof.
  intros Hb. unfold trace_bit.
  apply keeps_bind; [apply keeps_get|intros s0].
  apply keeps_bind; [destruct (_ =? 0); [apply keeps_undefined|apply keeps_ret]|intros _].
  apply keeps_bind.
  { destruct (_ && _); [apply keeps_push_span|apply keeps_ret]. }
  intros loc1. apply keeps_bind.
  { destruct (_ && _); [|apply keeps_ret].
    destruct (v loc1); [|apply keeps_undefined].
    destruct (_ <? _); [apply keeps_push_span|apply keeps_ret]. }
  intros loc2.
  apply keeps_bind; [apply keeps_modify; intros; apply Hb|intros _].
  apply keeps_ret.
Qed.

Lemma keeps_trace_row_bits {B} (f : state -> B) (b : FT_Bitmap)
  (x y linescale j : Z) (loc : tracer) :
  (forall b s, f (set_oldbit b s) = f s) ->
  keeps f (trace_row_bits b x y linescale j loc).
Proof.
  intros Hb. unfold trace_row_bits.
  apply keeps_for_acc. intros i loc1.
  apply keeps_bind.
  { destruct (_ <? 0); [apply keeps_undefined|apply keeps_defined]. }
  intros byte. apply keeps_for_acc. intros bits loc2.
  now apply keeps_trace_bit.
Qed.

(** The strokes of a row, in either direction. *)
Lemma keeps_strokes {B} (f : state -> B) (loc : tracer) (a c : Z -> Z) (i : Z) :
  drawing_frame f ->
  keeps f (p <- span_at loc (a i) ;; my_move_to p ;;
           q <- span_at loc (c i) ;; my_line_to q ;; ret tt).
Proof.
  intros (Ho & Hl & He & Hn).
  apply keeps_bind; [apply keeps_span_at|intros p].
  apply keeps_bind; [now apply keeps_my_move_to|intros _].
  apply keeps_bind; [apply keeps_span_at|intros q].
  apply keeps_bind; [now apply keeps_my_line_to|intros _].
  apply keeps_ret.
Qed.

Lemma keeps_trace_row {B} (f : state -> B) (b : FT_Bitmap)
  (x y linescale j : Z) (loc : tracer) :
  tracer_frame f -> keeps f (trace_row b x y linescale j loc).
Proof.
  intros (F & Hb & Hd). unfold trace_row.
  apply keeps_bind; [apply keeps_modify; intros; apply Hb|intros _].
  apply keeps_bind; [now apply keeps_trace_row_bits|intros loc1].
  apply keeps_bind; [apply keeps_get|intros s1].
  apply keeps_bind.
  { destruct (negb _); [|apply keeps_ret].
    destruct (v loc1); [apply keeps_push_span|apply keeps_undefined]. }
  intros loc2.
  apply keeps_bind; [apply keeps_modify; intros; apply Hd|intros _].
  apply keeps_bind; [apply keeps_get|intros s2].
  apply keeps_bind; [|intros _; apply keeps_ret].
  destruct (negb _).
  - apply keeps_for_down. intros i.
    apply (keeps_strokes _ _ (fun i => 1 + i * 2) (fun i => i * 2) i F).
  - apply keeps_for_up. intros i.
    apply (keeps_strokes _ _ (fun i => i * 2) (fun i => 1 + i * 2) i F).
Qed.

Lemma keeps_my_draw_bitmap {B} (f : state -> B) (b : FT_Bitmap)
  (x y linescale : Z) :
  tracer_frame f -> keeps f (my_draw_bitmap b x y linescale).
Proof.
  intros F. unfold my_draw_bitmap.
  apply keeps_bind; [|intros _; apply keeps_ret].
  apply keeps_for_acc. intros j loc. now apply keeps_trace_row.
Qed.

Lemma keeps_check {B} (f : state -> B) (ft_errors : list (Z * string))
  (where_ : string) (error line_ : Z) :
  keeps f (check ft_errors where_ error line_).
Proof.
  intros s a s'. destruct (Z.eq_dec error 0) as [->|H].
  - rewrite check_ok. now intros [= _ <-].
  - rewrite (check_failed _ _ _ _ _ H). discriminate.
Qed.

(** [render_char] leaves the configuration as it found it, apart from
    [charcode], which it sets to its argument. *)
Lemma render_char_config (L : libm) (fuel : nat) (ft_errors : list (Z * string))
  (face : FT_Face) (c offset linescale r : Z) (s s1 : state) :
  render_char L fuel ft_errors face c offset linescale s = Ret r s1 ->
  charcode s1 = c /\ genfont s1 = genfont s /\ layer s1 = layer s /\
  line_extents s1 = line_extents s.
Proof.
  intros H. unfold render_char in H.
  apply bind_inv in H as ([] & s0 & [= <-] & H).
  assert (K : forall B (f : state -> B), tracer_frame f ->
                (forall a s, f (set_advance a s) = f s) ->
                f s1 = f (set_charcode c s)).
  { intros B f F Ha. pose proof F as (D & _ & _).
    revert H. generalize (set_charcode c s). intros s0 H.
    apply bind_inv in H as ([] & sa & Ha1 & H).
    rewrite <- (keeps_check f _ _ _ _ _ _ _ Ha1). revert H.
    destruct (FT_Get_Char_Index face c =? 0); [unfold ret; now intros [= _ <-]|].
    intros H.
    apply bind_inv in H as ([] & sb & Hb1 & H).
    apply bind_inv in H as ([] & sc & Hc1 & H).
    apply bind_inv in H as ([] & sd & Hd1 & H).
    apply bind_inv in H as ([] & se & He1 & H).
    apply bind_inv in H as ([] & sf & Hf1 & H).
    apply bind_inv in H as (e & sg & Hg1 & H).
    apply bind_inv in H as ([] & sh & Hh1 & H).
    apply bind_inv in H as ([] & si & [= <-] & [= _ <-]).
    rewrite Ha.
    rewrite (keeps_check f _ _ _ _ _ _ _ Hh1).
    rewrite (keeps_FT_Outline_Decompose f _ _ _ _ D _ _ _ Hg1).
    rewrite (keeps_check f _ _ _ _ _ _ _ Hf1).
    rewrite (keeps_check f _ _ _ _ _ _ _ He1).
    assert (f sd = f sc) as ->.
    { revert Hd1. destruct (0 <? linescale).
      - apply keeps_my_draw_bitmap, F.
      - now intros [= <-]. }
    rewrite (keeps_check f _ _ _ _ _ _ _ Hc1).
    apply (keeps_check f _ _ _ _ _ _ _ Hb1). }
  repeat split.
  - apply (K _ charcode); repeat split.
  - apply (K _ genfont); repeat split.
  - apply (K _ layer); repeat split.
  - apply (K _ line_extents); repeat split.
Qed.

(** When [render_char] returns a value that is not negative, that value
    is the x advance of the glyph, which [advance] now holds. *)
Lemma render_char_advance (L : libm) (fuel : nat) (ft_errors : list (Z * string))
  (face : FT_Face) (c offset linescale r : Z) (s s1 : state) :
  render_char L fuel ft_errors face c offset linescale s = Ret r s1 ->
  0 <= r ->
  advance s1 = glyph_advance face (FT_Get_Char_Index face c) /\
  r = vx (advance s1).
Proof.
  intros H Hr. unfold render_char in H.
  apply bind_inv in H as ([] & s0 & _ & H).
  apply bind_inv in H as ([] & sa & _ & H). revert H.
  destruct (FT_Get_Char_Index face c =? 0).
  { unfold ret. intros [= <- _]. lia. }
  intros H.
  apply bind_inv in H as ([] & sb & _ & H).
  apply bind_inv in H as ([] & sc & _ & H).
  apply bind_inv in H as ([] & sd & _ & H).
  apply bind_inv in H as ([] & se & _ & H).
  apply bind_inv in H as ([] & sf & _ & H).
  apply bind_inv in H as (e & sg & _ & H).
  apply bind_inv in H as ([] & sh & _ & H).
  apply bind_inv in H as ([] & si & [= <-] & [= <- <-]).
  split; reflexivity.
Qed.

(** ** The records of a glyph *)

Lemma dimension_eq (fmt : string) (value : Z) (s : state) :
  dimension fmt value s =
  Ret tt (set_out (out s ++ format fmt [AInt value]
                   ++ layer_tag (genfont s) (charcode s) (layer s)) s).
Proof.
  unfold dimension. rewrite (bind_ret_eq _ _ _ _ _ (printf_eq _ _ _)).
  rewrite maybe_output_layer_eq. simpl. now rewrite <- app_assoc.
Qed.

(** A polyline starts with its header and the layer tag of the character
    being drawn. *)
Lemma my_move_to_eq (to : FT_Vector) (s : state) :
  my_move_to to s =
  Ret 0 (set_glyph_extents (extents_add_point (glyph_extents s) to)
          (set_last_point to
            (set_out (out s ++ polyline_start to
                      ++ layer_tag (genfont s) (charcode s) (layer s)) s))).
Proof.
  unfold my_move_to. rewrite (bind_ret_eq _ _ _ _ _ (printf_eq _ _ _)).
  rewrite (bind_ret_eq _ _ _ _ _ (maybe_output_layer_eq _)).
  unfold bind, modify, ret, polyline_start, group; simpl. unfold nl.
  norm_text. reflexivity.
Qed.


(** The six formats of the font-generation loop print DIMENSION
    records. *)
Lemma format_dimensions (z : Z) :
  format (" 0" ++ nl ++ "DIMENSION" ++ nl ++ " 70" ++ nl ++ "70" ++ nl
          ++ " 1" ++ nl ++ "minx" ++ nl ++ " 13" ++ nl ++ "%ld" ++ nl) [AInt z]
    = dimension_record "70" "minx" " 13" z /\
  format (" 0" ++ nl ++ "DIMENSION" ++ nl ++ " 70" ++ nl ++ "70" ++ nl
          ++ " 1" ++ nl ++ "maxx" ++ nl ++ "13" ++ nl ++ "%ld" ++ nl) [AInt z]
    = dimension_record "70" "maxx" "13" z /\
  format (" 0" ++ nl ++ "DIMENSION" ++ nl ++ " 70" ++ nl ++ "6" ++ nl
          ++ " 1" ++ nl ++ "miny" ++ nl ++ "23" ++ nl ++ "%ld" ++ nl) [AInt z]
    = dimension_record "6" "miny" "23" z /\
  format (" 0" ++ nl ++ "DIMENSION" ++ nl ++ " 70" ++ nl ++ "6" ++ nl
          ++ " 1" ++ nl ++ "maxy" ++ nl ++ "23" ++ nl ++ "%ld" ++ nl) [AInt z]
    = dimension_record "6" "maxy" "23" z /\
  format (" 0" ++ nl ++ "DIMENSION" ++ nl ++ " 70" ++ nl ++ "70" ++ nl
          ++ " 1" ++ nl ++ "advx" ++ nl ++ "13" ++ nl ++ "%ld" ++ nl) [AInt z]
    = dimension_record "70" "advx" "13" z /\
  format (" 0" ++ nl ++ "DIMENSION" ++ nl ++ " 70" ++ nl ++ "6" ++ nl
          ++ " 1" ++ nl ++ "advy" ++ nl ++ "23" ++ nl ++ "%ld" ++ nl) [AInt z]
    = dimension_record "6" "advy" "23" z.
Proof.
  unfold dimension_record, group, nl.
  repeat split; norm_text; reflexivity.
Qed.

Lemma dimension_record_eq (fmt flag name code : string) (value : Z) (s : state) :
  format fmt [AInt value] = dimension_record flag name code value ->
  dimension fmt value s =
  Ret tt (set_out (out s ++ dimension_record flag name code value
                   ++ layer_tag (genfont s) (charcode s) (layer s)) s).
Proof. intros <-. apply dimension_eq. Qed.

(** C6.  In the font-generation loop, when [render_char] has returned a
    non-negative value, the six DIMENSION records minx, maxx, miny, maxy,
    advx, advy follow at once on stdout, in this order, each with the
    value of its metric in decimal (the four bounds of [glyph_extents]
    and the advance of the glyph) and each followed by the layer tag of
    the character, the one that [my_move_to] put after every polyline
    start of the glyph. *)
Theorem dimension_records (L : libm) (fuel : nat) (ft_errors : list (Z * string))
  (face : FT_Face) (offset linescale wc r : Z) (s s1 : state) :
  render_char L fuel ft_errors face wc offset linescale s = Ret r s1 ->
  0 <= r ->
  let tag := layer_tag (genfont s) wc (layer s) in
  genfont_char L fuel ft_errors face offset linescale wc s =
    Ret tt
      (set_out (out s1 ++ glyph_dimensions (glyph_extents s1) (advance s1) tag)
         (set_line_extents
            (extents_add_extents (line_extents s1) (glyph_extents s1)) s1)) /\
  tag = layer_tag (genfont s1) (charcode s1) (layer s1) /\
  advance s1 = glyph_advance face (FT_Get_Char_Index face wc) /\
  (forall to s0,
     charcode s0 = wc -> genfont s0 = genfont s -> layer s0 = layer s ->
     exists s0', my_move_to to s0 = Ret 0 s0' /\
                 out s0' = out s0 ++ polyline_start to ++ tag).
Proof.
  intros H Hr tag.
  destruct (render_char_config _ _ _ _ _ _ _ _ _ _ H) as (Hc & Hg & Hl & _).
  assert (Htag : tag = layer_tag (genfont s1) (charcode s1) (layer s1))
    by (unfold tag; now rewrite Hc, Hg, Hl).
  split; [|split; [exact Htag|split]].
  - unfold genfont_char. rewrite (bind_ret_eq _ _ _ _ _ H).
    destruct (Z.ltb_spec r 0) as [Hneg|_]; [lia|].
    unfold bind at 1. unfold modify at 1.
    unfold bind at 1. unfold get at 1.
    set (s2 := set_line_extents _ s1).
    change (layer_tag (genfont s1) (charcode s1) (layer s1))
      with (layer_tag (genfont s2) (charcode s2) (layer s2)) in Htag.
    pose proof (format_dimensions (minx (glyph_extents s2))) as (F1 & _).
    pose proof (format_dimensions (maxx (glyph_extents s2))) as (_ & F2 & _).
    pose proof (format_dimensions (miny (glyph_extents s2))) as (_ & _ & F3 & _).
    pose proof (format_dimensions (maxy (glyph_extents s2))) as (_ & _ & _ & F4 & _).
    pose proof (format_dimensions (vx (advance s2))) as (_ & _ & _ & _ & F5 & _).
    pose proof (format_dimensions (vy (advance s2))) as (_ & _ & _ & _ & _ & F6).
    rewrite (bind_ret_eq _ _ _ _ _ (dimension_record_eq _ _ _ _ _ s2 F1)).
    rewrite <- Htag.
    set (s3 := set_out _ s2).
    rewrite (bind_ret_eq _ _ _ _ _ (dimension_record_eq _ _ _ _ _ s3 F2)).
    change (layer_tag (genfont s3) (charcode s3) (layer s3)) with
      (layer_tag (genfont s2) (charcode s2) (layer s2)). rewrite <- Htag.
    set (s4 := set_out _ s3).
    rewrite (bind_ret_eq _ _ _ _ _ (dimension_record_eq _ _ _ _ _ s4 F3)).
    change (layer_tag (genfont s4) (charcode s4) (layer s4)) with
      (layer_tag (genfont s2) (charcode s2) (layer s2)). rewrite <- Htag.
    set (s5 := set_out _ s4).
    rewrite (bind_ret_eq _ _ _ _ _ (dimension_record_eq _ _ _ _ _ s5 F4)).
    change (layer_tag (genfont s5) (charcode s5) (layer s5)) with
      (layer_tag (genfont s2) (charcode s2) (layer s2)). rewrite <- Htag.
    set (s6 := set_out _ s5).
    rewrite (bind_ret_eq _ _ _ _ _ (dimension_record_eq _ _ _ _ _ s6 F5)).
    change (layer_tag (genfont s6) (charcode s6) (layer s6)) with
      (layer_tag (genfont s2) (charcode s2) (layer s2)). rewrite <- Htag.
    set (s7 := set_out _ s6).
    rewrite (dimension_record_eq _ _ _ _ _ s7 F6).
    change (layer_tag (genfont s7) (charcode s7) (layer s7)) with
      (layer_tag (genfont s2) (charcode s2) (layer s2)). rewrite <- Htag.
    f_equal.
    change (out s7) with (out s6 ++ dimension_record "70" "advx" "13" (vx (advance s2)) ++ tag).
    change (out s6) with (out s5 ++ dimension_record "6" "maxy" "23" (maxy (glyph_extents s2)) ++ tag).
    change (out s5) with (out s4 ++ dimension_record "6" "miny" "23" (miny (glyph_extents s2)) ++ tag).
    change (out s4) with (out s3 ++ dimension_record "70" "maxx" "13" (maxx (glyph_extents s2)) ++ tag).
    change (out s3) with (out s1 ++ dimension_record "70" "minx" " 13" (minx (glyph_extents s2)) ++ tag).
    unfold glyph_dimensions.
    change (glyph_extents s2) with (glyph_extents s1).
    change (advance s2) with (advance s1).
    rewrite <- !app_assoc. reflexivity.
  - apply (render_char_advance _ _ _ _ _ _ _ _ _ _ H Hr).
  - intros to s0 E1 E2 E3. eexists. split; [apply my_move_to_eq|].
    simpl. unfold tag. now rewrite E1, E2, E3.
Qed.
(** The glyph of 'A' in the two-glyph font. *)
Lemma dimension_records_witness :
  exists s1,
    render_char sample_libm 4 sample_errors (font 0 0) 65 0 0
      (configured plain_options) = Ret 1500 s1 /\
    genfont_char sample_libm 4 sample_errors (font 0 0) 0 0 65
      (configured plain_options) =
    Ret tt
      (set_out (out s1 ++ glyph_dimensions (glyph_extents s1) (advance s1)
                            (group "  8" "A"))
         (set_line_extents
            (extents_add_extents (line_extents s1) (glyph_extents s1)) s1)).
Proof.
  assert (E : exists s1,
             render_char sample_libm 4 sample_errors (font 0 0) 65 0 0
               (configured plain_options) = Ret 1500 s1)
    by (eexists; vm_compute; reflexivity).
  destruct E as [s1 E]. exists s1. split; [exact E|].
  refine (proj1 (dimension_records sample_libm 4 sample_errors (font 0 0)
                   0 0 65 1500 (configured plain_options) s1 E _)).
  lia.
Defined.

(** ** Failures of the font library *)

Lemma bind_check_ok {A} (ft_errors : list (Z * string)) (where_ : string)
  (error line_ : Z) (k : unit -> M A) (s : state) :
  error = 0 -> bind (check ft_errors where_ error line_) k s = k tt s.
Proof. intros ->. reflexivity. Qed.

Lemma bind_check_failed {A} (ft_errors : list (Z * string)) (where_ : string)
  (error line_ : Z) (k : unit -> M A) (s : state) :
  error <> 0 ->
  bind (check ft_errors where_ error line_) k s =
  fatal ft_errors where_ error line_ s.
Proof. intros H. unfold bind. now rewrite check_failed. Qed.

(** C9 (as the code has it).  A FreeType call that returns a non-zero
    code is fatal: [handle_ft_error] writes to stderr a line that names the
    operation and the code (with the library's message when the table has
    one) and the source line of the call, and calls [exit] with that
    source line, not with the code.  This holds for every checked call of
    [render_char]: 403 and 426 (size setting), 414 and 429 (glyph
    loading), 416 (rendering), 447 (outline decomposition). *)
Theorem ft_failure_exits_with_line (L : libm) (fuel : nat)
  (ft_errors : list (Z * string)) (face : FT_Face) (c offset linescale : Z)
  (s : state) :
  let h := if negb (linescale =? 0) then linescale else 64 in
  let g := FT_Get_Char_Index face c in
  let s0 := set_charcode c s in
  let run := render_char L fuel ft_errors face c offset linescale s in
  let fatal := fun A => @fatal A ft_errors in
  (forall where_ error line_ st,
     error <> 0 ->
     check ft_errors where_ error line_ st = fatal _ where_ error line_ st) /\
  (FT_Set_Pixel_Sizes face 4096 h <> 0 ->
   run = fatal _ "FT_Set_Pixel_Sizes"%string (FT_Set_Pixel_Sizes face 4096 h) 403 s0) /\
  (FT_Set_Pixel_Sizes face 4096 h = 0 -> g <> 0 ->
   (FT_Load_Glyph face 4096 h g <> 0 ->
    run = fatal _ "FT_Load_Glyph"%string (FT_Load_Glyph face 4096 h g) 414 s0) /\
   (FT_Load_Glyph face 4096 h g = 0 ->
    (FT_Render_Glyph face 4096 h g <> 0 ->
     run = fatal _ "FT_Render_Glyph"%string (FT_Render_Glyph face 4096 h g) 416 s0) /\
    (FT_Render_Glyph face 4096 h g = 0 ->
     forall s1,
       (if 0 <? linescale then
          my_draw_bitmap (glyph_bitmap face 4096 h g)
            (glyph_bitmap_left face 4096 h g + offset)
            (glyph_bitmap_top face 4096 h g) linescale
        else ret tt) s0 = Ret tt s1 ->
       (FT_Set_Pixel_Sizes face 0 64 <> 0 ->
        run = fatal _ "FT_Set_Pixel_Sizes"%string (FT_Set_Pixel_Sizes face 0 64) 426 s1) /\
       (FT_Set_Pixel_Sizes face 0 64 = 0 ->
        (FT_Load_Glyph face 0 64 g <> 0 ->
         run = fatal _ "FT_Load_Glyph"%string (FT_Load_Glyph face 0 64 g) 429 s1) /\
        (FT_Load_Glyph face 0 64 g = 0 ->
         forall error s2,
           FT_Outline_Decompose L fuel (outline_walk face g offset)
             (outline_error face g offset) s1 = Ret error s2 ->
           error <> 0 ->
           run = fatal _ "FT_Outline_Decompose"%string error 447 s2))))).
Proof.
  intros h g s0 run fatal.
  split; [intros; now apply check_failed|].
  assert (Hrun : run = (check ft_errors "FT_Set_Pixel_Sizes"
                          (FT_Set_Pixel_Sizes face 4096 h) 403 ;;
                        if g =? 0 then ret (-1)
                        else _) s0) by reflexivity.
  split.
  { intros E. rewrite Hrun. now apply bind_check_failed. }
  intros E1 Hg. rewrite (bind_check_ok _ _ _ _ _ _ E1) in Hrun; cbv beta in Hrun.
  rewrite (proj2 (Z.eqb_neq g 0) Hg) in Hrun.
  split.
  { intros E. rewrite Hrun. now apply bind_check_failed. }
  intros E2. rewrite (bind_check_ok _ _ _ _ _ _ E2) in Hrun; cbv beta in Hrun.
  split.
  { intros E. rewrite Hrun. now apply bind_check_failed. }
  intros E3 s1 Hdraw. rewrite (bind_check_ok _ _ _ _ _ _ E3) in Hrun; cbv beta in Hrun.
  rewrite (bind_ret_eq _ _ _ _ _ Hdraw) in Hrun.
  split.
  { intros E. rewrite Hrun. now apply bind_check_failed. }
  intros E4. rewrite (bind_check_ok _ _ _ _ _ _ E4) in Hrun; cbv beta in Hrun.
  split.
  { intros E. rewrite Hrun. now apply bind_check_failed. }
  intros E5 error s2 Hwalk E. rewrite (bind_check_ok _ _ _ _ _ _ E5) in Hrun; cbv beta in Hrun.
  rewrite (bind_ret_eq _ _ _ _ _ Hwalk) in Hrun.
  rewrite Hrun. now apply bind_check_failed.
Qed.

(** Discharge the first premise of [T] by evaluation. *)
Ltac premise T :=
  match type of T with
  | ?A -> _ =>
      let E := fresh "E" in
      assert (E : A) by (vm_compute; first [reflexivity | lia]);
      specialize (T E); clear E
  end.

(** One failing call at each of the six checked calls of [render_char],
    for the character 'A' of the two-glyph font and the error code 6. *)
Lemma ft_failure_exits_with_line_witness :
  (exists s', render_char sample_libm 4 sample_errors (font 403 6) 65 0 0
                (configured plain_options) = Exit 403 s') /\
  (exists s', render_char sample_libm 4 sample_errors (font 414 6) 65 0 0
                (configured plain_options) = Exit 414 s') /\
  (exists s', render_char sample_libm 4 sample_errors (font 416 6) 65 0 0
                (configured plain_options) = Exit 416 s') /\
  (exists s', render_char sample_libm 4 sample_errors (font 426 6) 65 0 0
                (configured plain_options) = Exit 426 s') /\
  (exists s', render_char sample_libm 4 sample_errors (font 429 6) 65 0 0
                (configured plain_options) = Exit 429 s') /\
  (exists s', render_char sample_libm 4 sample_errors (font 447 6) 65 0 0
                (configured plain_options) = Exit 447 s').
Proof.
  split; [|split; [|split; [|split; [|split]]]]; eexists.
  - pose proof (ft_failure_exits_with_line sample_libm 4 sample_errors
                  (font 403 6) 65 0 0 (configured plain_options)) as T.
    cbv zeta in T. destruct T as (_ & T & _).
    premise T. exact T.
  - pose proof (ft_failure_exits_with_line sample_libm 4 sample_errors
                  (font 414 6) 65 0 0 (configured plain_options)) as T.
    cbv zeta in T. destruct T as (_ & _ & T).
    do 2 premise T. destruct T as (T & _).
    premise T. exact T.
  - pose proof (ft_failure_exits_with_line sample_libm 4 sample_errors
                  (font 416 6) 65 0 0 (configured plain_options)) as T.
    cbv zeta in T. destruct T as (_ & _ & T).
    do 2 premise T. destruct T as (_ & T).
    premise T. destruct T as (T & _).
    premise T. exact T.
  - pose proof (ft_failure_exits_with_line sample_libm 4 sample_errors
                  (font 426 6) 65 0 0 (configured plain_options)) as T.
    cbv zeta in T. destruct T as (_ & _ & T).
    do 2 premise T. destruct T as (_ & T).
    premise T. destruct T as (_ & T).
    premise T. specialize (T _ eq_refl). destruct T as (T & _).
    premise T. exact T.
  - pose proof (ft_failure_exits_with_line sample_libm 4 sample_errors
                  (font 429 6) 65 0 0 (configured plain_options)) as T.
    cbv zeta in T. destruct T as (_ & _ & T).
    do 2 premise T. destruct T as (_ & T).
    premise T. destruct T as (_ & T).
    premise T. specialize (T _ eq_refl). destruct T as (_ & T).
    premise T. destruct T as (T & _).
    premise T. exact T.
  - pose proof (ft_failure_exits_with_line sample_libm 4 sample_errors
                  (font 447 6) 65 0 0 (configured plain_options)) as T.
    cbv zeta in T. destruct T as (_ & _ & T).
    do 2 premise T. destruct T as (_ & T).
    premise T. destruct T as (_ & T).
    premise T. specialize (T _ eq_refl). destruct T as (_ & T).
    premise T. destruct T as (_ & T).
    premise T.
    match type of T with
    | forall e s2, ?run = Ret e s2 -> _ =>
        let r := eval vm_compute in run in
        match r with
        | Ret ?e ?s2 =>
            assert (W : run = Ret e s2) by (vm_compute; reflexivity);
            specialize (T e s2 W)
        end
    end.
    premise T. exact T.
Defined.
(** C9 (counterexample).  [FT_Load_Glyph] returns the code 6 for 'A':
    the program writes [Fatal error in FT_Load_Glyph: invalid argument
    (6) at line:414] and exits with 414, the source line, and not with
    the library's code 6. *)
Lemma exit_status_is_not_library_code :
  FT_Load_Glyph (font 414 6) 4096 64 36 = 6 /\
  (exists s',
     render_char sample_libm 4 sample_errors (font 414 6) 65 0 0
       (configured plain_options) = Exit 414 s' /\
     err s' = text ("Fatal error in FT_Load_Glyph: invalid argument (6) at line:414" ++ nl)) /\
  ~ (exists s',
       render_char sample_libm 4 sample_errors (font 414 6) 65 0 0
         (configured plain_options) = Exit 6 s').
Proof.
  split; [reflexivity|split].
  - eexists. split; vm_compute; reflexivity.
  - intros [s' H]. vm_compute in H. discriminate H.
Qed.


(** ** The glyph extents only grow while a glyph is drawn *)

Lemma wider_refl (e : extents) : wider e e.
Proof. unfold wider. lia. Qed.

Lemma wider_trans (e1 e2 e3 : extents) :
  wider e1 e2 -> wider e2 e3 -> wider e1 e3.
Proof. unfold wider. lia. Qed.

Lemma grows_keeps {A} (m : M A) : keeps glyph_extents m -> grows m.
Proof. intros H s a s' E. rewrite (H _ _ _ E). apply wider_refl. Qed.

Lemma grows_bind {A C} (m : M A) (k : A -> M C) :
  grows m -> (forall a, grows (k a)) -> grows (bind m k).
Proof.
  intros Hm Hk s c s2 H. apply bind_inv in H as (a & s1 & H1 & H2).
  exact (wider_trans _ _ _ (Hm _ _ _ H1) (Hk _ _ _ _ H2)).
Qed.

Lemma grows_ret {A} (a : A) : grows (ret a).
Proof. apply grows_keeps, keeps_ret. Qed.

Lemma grows_for_acc {A} (n : nat) (body : Z -> A -> M A) :
  (forall t a, grows (body t a)) -> forall t a, grows (for_acc n t a body).
Proof.
  intros Hb. induction n as [|n IH]; intros t a; simpl.
  - apply grows_ret.
  - apply grows_bind; [apply Hb|intros a'; apply IH].
Qed.

Lemma grows_for_up (n : nat) (body : Z -> M unit) :
  (forall t, grows (body t)) -> forall t, grows (for_up n t body).
Proof.
  intros Hb. induction n as [|n IH]; intros t; simpl.
  - apply grows_ret.
  - apply grows_bind; [apply Hb|intros _; apply IH].
Qed.

Lemma grows_for_down (n : nat) (body : Z -> M unit) :
  (forall t, grows (body t)) -> forall t, grows (for_down n t body).
Proof.
  intros Hb. induction n as [|n IH]; intros t; simpl.
  - apply grows_ret.
  - apply grows_bind; [apply Hb|intros _; apply IH].
Qed.

(** The one assignment to [glyph_extents] of the drawing code. *)
Lemma grows_add_point (p : FT_Vector) :
  grows (modify (fun s => set_glyph_extents (extents_add_point (glyph_extents s) p) s)).
Proof.
  intros s a s' [= _ <-]. simpl. rewrite extents_add_point_eq.
  unfold wider; simpl. lia.
Qed.

Lemma grows_my_move_to (to : FT_Vector) : grows (my_move_to to).
Proof.
  unfold my_move_to.
  apply grows_bind; [apply grows_keeps, keeps_modify; reflexivity|intros _].
  apply grows_bind; [apply grows_keeps, keeps_maybe_output_layer; reflexivity|intros _].
  apply grows_bind; [apply grows_keeps, keeps_modify; reflexivity|intros _].
  apply grows_bind; [apply grows_add_point|intros _; apply grows_ret].
Qed.

Lemma grows_my_line_to (to : FT_Vector) : grows (my_line_to to).
Proof.
  unfold my_line_to.
  apply grows_bind; [apply grows_keeps, keeps_modify; reflexivity|intros _].
  apply grows_bind; [apply grows_keeps, keeps_modify; reflexivity|intros _].
  apply grows_bind; [apply grows_add_point|intros _; apply grows_ret].
Qed.

Lemma grows_sample (L : libm) (x y : float) (loc : FT_Vector * float) :
  grows (sample L x y loc).
Proof.
  unfold sample. destruct loc as [point len].
  apply grows_bind; [apply grows_keeps, keeps_defined|intros px'].
  apply grows_bind; [apply grows_keeps, keeps_defined|intros py'].
  apply grows_bind; [apply grows_add_point|intros _; apply grows_ret].
Qed.

Lemma grows_fit_loop (L : libm) (fuel n : nat) (t : Z) (a : P * P)
  (next : Z -> P * P) :
  grows (for_acc n t a
           (fun t loc => let '(ps, ts) := loc in
              biarc L fuel ps ts (fst (next t)) (snd (next t)) 1 ;; ret (next t))).
Proof.
  apply grows_for_acc. intros t' [ps ts].
  apply grows_bind; [|intros _; apply grows_ret].
  apply grows_keeps, keeps_biarc; reflexivity.
Qed.

Lemma grows_my_conic_to (L : libm) (fuel : nat) (control to : FT_Vector) :
  grows (my_conic_to L fuel control to).
Proof.
  unfold my_conic_to.
  apply grows_bind; [apply grows_keeps, keeps_get|intros s0].
  apply grows_bind.
  { destruct (_ <=? 0); apply grows_keeps; [apply keeps_undefined|apply keeps_ret]. }
  intros _. apply grows_bind.
  { unfold conic_length.
    apply grows_bind; [apply grows_keeps, keeps_get|intros s1].
    apply grows_bind; [apply grows_keeps, keeps_counts_to|intros _].
    apply grows_bind; [|intros r; apply grows_ret].
    apply grows_for_acc. intros t a. apply grows_sample. }
  intros len.
  apply grows_bind; [apply grows_keeps, keeps_defined|intros steps].
  apply grows_bind; [apply grows_keeps, keeps_counts_to|intros _].
  apply grows_bind.
  - apply (grows_fit_loop L fuel _ _ _ (fun t => (_, _))).
  - intros _. apply grows_bind; [|intros _; apply grows_ret].
    apply grows_keeps, keeps_modify; reflexivity.
Qed.

Lemma grows_my_cubic_to (L : libm) (fuel : nat)
  (control1 control2 to : FT_Vector) :
  grows (my_cubic_to L fuel control1 control2 to).
Proof.
  unfold my_cubic_to.
  apply grows_bind; [apply grows_keeps, keeps_get|intros s0].
  apply grows_bind.
  { unfold cubic_length.
    apply grows_bind; [apply grows_keeps, keeps_get|intros s1].
    apply grows_bind; [apply grows_keeps, keeps_counts_to|intros _].
    apply grows_bind; [|intros r; apply grows_ret].
    apply grows_for_acc. intros t a. apply grows_sample. }
  intros len.
  apply grows_bind; [apply grows_keeps, keeps_defined|intros steps].
  apply grows_bind; [apply grows_keeps, keeps_counts_to|intros _].
  apply grows_bind.
  - apply (grows_fit_loop L fuel _ _ _ (fun t => (_, _))).
  - intros _. apply grows_bind; [|intros _; apply grows_ret].
    apply grows_keeps, keeps_modify; reflexivity.
Qed.

Lemma grows_FT_Outline_Decompose (L : libm) (fuel : nat)
  (walk : list segment) (final : Z) :
  grows (FT_Outline_Decompose L fuel walk final).
Proof.
  induction walk as [|seg walk IH]; simpl.
  - apply grows_ret.
  - apply grows_bind.
    + destruct seg; simpl.
      * apply grows_my_move_to.
      * apply grows_my_line_to.
      * apply grows_my_conic_to.
      * apply grows_my_cubic_to.
    + intros e. destruct (e =? 0); [apply IH|apply grows_ret].
Qed.

Lemma grows_strokes (loc : tracer) (a c : Z -> Z) (i : Z) :
  grows (p <- span_at loc (a i) ;; my_move_to p ;;
         q <- span_at loc (c i) ;; my_line_to q ;; ret tt).
Proof.
  apply grows_bind; [apply grows_keeps, keeps_span_at|intros p].
  apply grows_bind; [apply grows_my_move_to|intros _].
  apply grows_bind; [apply grows_keeps, keeps_span_at|intros q].
  apply grows_bind; [apply grows_my_line_to|intros _; apply grows_ret].
Qed.

Lemma grows_my_draw_bitmap (b : FT_Bitmap) (x y linescale : Z) :
  grows (my_draw_bitmap b x y linescale).
Proof.
  unfold my_draw_bitmap.
  apply grows_bind; [|intros _; apply grows_ret].
  apply grows_for_acc. intros j loc. unfold trace_row.
  apply grows_bind; [apply grows_keeps, keeps_modify; reflexivity|intros _].
  apply grows_bind.
  { apply grows_keeps, keeps_trace_row_bits. reflexivity. }
  intros loc1.
  apply grows_bind; [apply grows_keeps, keeps_get|intros s1].
  apply grows_bind.
  { apply grows_keeps. destruct (negb _); [|apply keeps_ret].
    destruct (v loc1); [apply keeps_push_span|apply keeps_undefined]. }
  intros loc2.
  apply grows_bind; [apply grows_keeps, keeps_modify; reflexivity|intros _].
  apply grows_bind; [apply grows_keeps, keeps_get|intros s2].
  apply grows_bind; [|intros _; apply grows_ret].
  destruct (negb _).
  - apply grows_for_down. intros i.
    apply (grows_strokes _ (fun i => 1 + i * 2) (fun i => i * 2) i).
  - apply grows_for_up. intros i.
    apply (grows_strokes _ (fun i => i * 2) (fun i => 1 + i * 2) i).
Qed.

Lemma grows_render_char (L : libm) (fuel : nat) (ft_errors : list (Z * string))
  (face : FT_Face) (c offset linescale : Z) :
  grows (render_char L fuel ft_errors face c offset linescale).
Proof.
  unfold render_char.
  apply grows_bind; [apply grows_keeps, keeps_modify; reflexivity|intros _].
  apply grows_bind; [apply grows_keeps, keeps_check|intros _].
  destruct (FT_Get_Char_Index face c =? 0); [apply grows_ret|].
  apply grows_bind; [apply grows_keeps, keeps_check|intros _].
  apply grows_bind; [apply grows_keeps, keeps_check|intros _].
  apply grows_bind.
  { destruct (0 <? linescale); [apply grows_my_draw_bitmap|apply grows_ret]. }
  intros _.
  apply grows_bind; [apply grows_keeps, keeps_check|intros _].
  apply grows_bind; [apply grows_keeps, keeps_check|intros _].
  apply grows_bind; [apply grows_FT_Outline_Decompose|intros e].
  apply grows_bind; [apply grows_keeps, keeps_check|intros _].
  apply grows_bind; [apply grows_keeps, keeps_modify; reflexivity|intros _].
  apply grows_ret.
Qed.

(** For every font: one pass of the font-generation loop leaves
    [glyph_extents] at least as wide as it found it, so that the records
    of a character cover everything rendered before it. *)
Lemma genfont_char_never_resets (L : libm) (fuel : nat)
  (ft_errors : list (Z * string)) (face : FT_Face) (offset linescale wc : Z) :
  grows (genfont_char L fuel ft_errors face offset linescale wc).
Proof.
  unfold genfont_char.
  apply grows_bind; [apply grows_render_char|intros r].
  destruct (r <? 0); [apply grows_ret|].
  apply grows_bind; [apply grows_keeps, keeps_modify; reflexivity|intros _].
  apply grows_bind; [apply grows_keeps, keeps_get|intros s1].
  repeat (apply grows_bind;
          [apply grows_keeps; intros s a s'; rewrite dimension_eq;
           now intros [= _ <-]|intros _]).
  apply grows_keeps. intros s a s'. rewrite dimension_eq. now intros [= _ <-].
Qed.
(** ** The glyph extents in the two loops of [main] *)

(** C5 (what the code does).  The font-generation loop never resets
    [glyph_extents] (see [genfont_char_never_resets] for every font): with
    the two-glyph font the records of 'A' give minx 0
    and miny 0 (the zero of the static initialisation; the triangle starts
    at x = 100), and the records of 'B' give the box 0..1400 by 0..700 of
    everything drawn so far, where the square alone spans 1000..1400 by
    200..600.  The text loop does reset: 'B' rendered there leaves
    exactly the box of the square. *)
Theorem genfont_extents_accumulate :
  let tag_A := group "  8" "A" in
  let tag_B := group "  8" "B" in
  (exists s',
     main sample_libm 4 sample_errors plain_options sample_library
       (configured plain_options) = Ret 0 s' /\
     out s' =
       group "  0" "SECTION" ++ group "  2" "ENTITIES"
       ++ polyline_start (mkV 100 0) ++ tag_A
       ++ plain_vertex (mkV 500 0) ++ plain_vertex (mkV 300 700)
       ++ plain_vertex (mkV 100 0)
       ++ glyph_dimensions (mkExtents 0 500 0 700) (mkV 1500 0) tag_A
       ++ polyline_start (mkV 1000 200) ++ tag_B
       ++ plain_vertex (mkV 1400 200) ++ plain_vertex (mkV 1400 600)
       ++ plain_vertex (mkV 1000 600) ++ plain_vertex (mkV 1000 200)
       ++ glyph_dimensions (mkExtents 0 1400 0 700) (mkV 1500 0) tag_B
       ++ group "  0" "ENDSEC" ++ group "  0" "EOF" /\
     glyph_extents s' = mkExtents 0 1400 0 700) /\
  bounding_box (mkV 100 0) [mkV 500 0; mkV 300 700; mkV 100 0]
    = mkExtents 100 500 0 700 /\
  bounding_box (mkV 1000 200)
      [mkV 1400 200; mkV 1400 600; mkV 1000 600; mkV 1000 200]
    = mkExtents 1000 1400 200 600 /\
  (exists s',
     main sample_libm 4 sample_errors
       (mkOptions None (Some "font.ttf"%string) None None [Wide 66])
       sample_library (configured plain_options) = Ret 0 s' /\
     glyph_extents s' = mkExtents 1000 1400 200 600).
Proof.
  intros tag_A tag_B. split; [|split; [|split]].
  - eexists. split; [vm_compute; reflexivity|]. split; vm_compute; reflexivity.
  - reflexivity.
  - reflexivity.
  - eexists. split; vm_compute; reflexivity.
Qed.

(** ** The winding toggle *)

Lemma iter_for_acc {A B} (g : state -> B) (phi : B -> B) (body : Z -> A -> M A) :
  (forall t a s a' s', body t a s = Ret a' s' -> g s' = phi (g s)) ->
  forall n t a s a' s',
    for_acc n t a body s = Ret a' s' -> g s' = Nat.iter n phi (g s).
Proof.
  intros Hb. induction n as [|n IH]; intros t a s a' s' H; simpl in H.
  - injection H as _ <-. reflexivity.
  - apply bind_inv in H as (a1 & s1 & H1 & H2).
    rewrite (IH _ _ _ _ _ H2), (Hb _ _ _ _ _ H1).
    now rewrite <- Nat.iter_succ_r.
Qed.

Lemma flip_parity (n : nat) (o : Z) :
  0 <= o <= 1 -> Nat.iter n flip o = (o + Z.of_nat n) mod 2.
Proof.
  intros Ho. induction n as [|n IH].
  - simpl. rewrite Z.add_0_r, Z.mod_small; lia.
  - rewrite Nat.iter_succ, IH, Nat2Z.inj_succ.
    replace (o + Z.succ (Z.of_nat n)) with ((o + Z.of_nat n) + 1) by lia.
    rewrite <- (Zplus_mod_idemp_l (o + Z.of_nat n) 1 2).
    pose proof (Z.mod_pos_bound (o + Z.of_nat n) 2 ltac:(lia)) as Hm.
    assert (Hc : (o + Z.of_nat n) mod 2 = 0 \/ (o + Z.of_nat n) mod 2 = 1) by lia.
    destruct Hc as [-> | ->]; reflexivity.
Qed.

(** Every row that [my_draw_bitmap] processes flips [odd]. *)
Lemma trace_row_flips (b : FT_Bitmap) (x y linescale j : Z) (loc loc' : tracer)
  (s s' : state) :
  trace_row b x y linescale j loc s = Ret loc' s' -> odd s' = flip (odd s).
Proof.
  intros H. unfold trace_row in H.
  apply bind_inv in H as ([] & s1 & [= <-] & H).
  apply bind_inv in H as (loc1 & s2 & H2 & H).
  apply bind_inv in H as (s2' & s2'' & [= <- <-] & H).
  apply bind_inv in H as (loc2 & s3 & H3 & H).
  apply bind_inv in H as ([] & s4 & [= <-] & H).
  apply bind_inv in H as (s4' & s4'' & [= <- <-] & H).
  apply bind_inv in H as ([] & s5 & H5 & [= _ <-]).
  assert (E5 : odd s5 = flip (odd s3)).
  { revert H5. set (loc3 := mkTracer _ _ _ _).
    set (s4 := set_odd _ s3). change (flip (odd s3)) with (odd s4).
    destruct (negb (odd s4 =? 0)); intros H5.
    - exact (keeps_for_down odd _ _
               (fun i => keeps_strokes odd loc3 (fun i => 1 + i * 2) (fun i => i * 2) i
                           ltac:(repeat split)) _ _ _ _ H5).
    - exact (keeps_for_up odd _ _
               (fun i => keeps_strokes odd loc3 (fun i => i * 2) (fun i => 1 + i * 2) i
                           ltac:(repeat split)) _ _ _ _ H5). }
  rewrite E5. f_equal.
  assert (E3 : odd s3 = odd s2).
  { revert H3. destruct (negb (oldbit s2 =? 0)); [|now intros [= _ <-]].
    destruct (v loc1); [apply keeps_push_span|discriminate]. }
  rewrite E3.
  apply (keeps_trace_row_bits odd _ _ _ _ _ _ (fun _ _ => eq_refl)) in H2.
  exact H2.
Qed.

Lemma my_draw_bitmap_flips (b : FT_Bitmap) (x y linescale : Z) (s s' : state) :
  my_draw_bitmap b x y linescale s = Ret tt s' ->
  odd s' = Nat.iter (Z.to_nat (rows b)) flip (odd s).
Proof.
  intros H. unfold my_draw_bitmap in H.
  apply bind_inv in H as (loc & s1 & H & [= <-]).
  revert H. apply iter_for_acc.
  intros t a s0 a' s0'. apply trace_row_flips.
Qed.

Lemma flip_range (o : Z) : 0 <= flip o <= 1.
Proof. unfold flip. destruct (o =? 0); lia. Qed.

Lemma iter_flip_range (n : nat) (o : Z) :
  0 <= o <= 1 -> 0 <= Nat.iter n flip o <= 1.
Proof.
  intros Ho. destruct n as [|n]; [exact Ho|].
  rewrite Nat.iter_succ. apply flip_range.
Qed.

Lemma trace_bitmaps_parity (calls : list tracing) (s s' : state) :
  0 <= odd s <= 1 ->
  trace_bitmaps calls s = Ret tt s' ->
  odd s' = (odd s + total_rows calls) mod 2.
Proof.
  revert s. induction calls as [|c calls IH]; intros s Ho H; simpl in H.
  - injection H as <-. simpl. rewrite Z.add_0_r, Z.mod_small; lia.
  - apply bind_inv in H as ([] & s1 & H1 & H2).
    apply my_draw_bitmap_flips in H1.
    assert (Ho1 : 0 <= odd s1 <= 1) by (rewrite H1; now apply iter_flip_range).
    rewrite (IH _ Ho1 H2), H1, (flip_parity _ _ Ho). simpl total_rows.
    replace (Z.of_nat (Z.to_nat (rows (t_bitmap c))))
      with (Z.max 0 (rows (t_bitmap c))) by lia.
    rewrite Zplus_mod_idemp_l. f_equal. lia.
Qed.

(** C10.  [odd] is a static of [my_draw_bitmap], zero when the program
    starts, and nothing ever assigns it but the flip at the end of each
    row: a row flips it, a bitmap of n rows flips it n times starting from
    the value the previous bitmap left, and the outline callbacks leave it
    alone.  So after any sequence of tracing calls it is the parity of the
    rows processed so far, and that parity decides the direction of the
    first row of the next bitmap: the same one-row bitmap is stroked from
    x = 10 to x = 22 after one earlier row, and from 22 to 10 after two
    earlier rows (or none). *)
Theorem odd_toggle_is_global (L : libm) (fuel : nat) :
  odd initial_state = 0 /\
  (forall b x y linescale j loc loc' s s',
     trace_row b x y linescale j loc s = Ret loc' s' -> odd s' = flip (odd s)) /\
  (forall b x y linescale s s',
     my_draw_bitmap b x y linescale s = Ret tt s' ->
     odd s' = Nat.iter (Z.to_nat (rows b)) flip (odd s)) /\
  (forall walk final, keeps odd (FT_Outline_Decompose L fuel walk final)) /\
  (forall calls s s',
     odd s = 0 -> trace_bitmaps calls s = Ret tt s' ->
     odd s' = total_rows calls mod 2) /\
  (let tag := layer_tag 1 0 None in
   (exists s',
      trace_bitmaps [mkTracing blank1 0 0 64; mkTracing bar 0 0 64]
        (configured plain_options) = Ret tt s' /\
      out s' = polyline_start (mkV 10 (-32)) ++ tag ++ plain_vertex (mkV 22 (-32))) /\
   (exists s',
      trace_bitmaps [mkTracing blank2 0 0 64; mkTracing bar 0 0 64]
        (configured plain_options) = Ret tt s' /\
      out s' = polyline_start (mkV 22 (-32)) ++ tag ++ plain_vertex (mkV 10 (-32))) /\
   (exists s',
      trace_bitmaps [mkTracing bar 0 0 64] (configured plain_options) = Ret tt s' /\
      out s' = polyline_start (mkV 22 (-32)) ++ tag ++ plain_vertex (mkV 10 (-32)))).
Proof.
  split; [reflexivity|].
  split; [intros *; apply trace_row_flips|].
  split; [intros *; apply my_draw_bitmap_flips|].
  split; [intros; apply keeps_FT_Outline_Decompose; repeat split|].
  split.
  - intros calls s s' Ho H.
    rewrite (trace_bitmaps_parity calls s s'); [now rewrite Ho|lia|exact H].
  - repeat split; eexists; split; vm_compute; reflexivity.
Qed.

(** A blank bitmap of two rows and then the bar: three rows, [odd] ends
    as 1. *)
Lemma odd_toggle_is_global_witness :
  exists s',
    trace_bitmaps [mkTracing blank2 0 0 64; mkTracing bar 0 0 64]
      (configured plain_options) = Ret tt s' /\
    odd s' = 1.
Proof.
  assert (E : exists s',
             trace_bitmaps [mkTracing blank2 0 0 64; mkTracing bar 0 0 64]
               (configured plain_options) = Ret tt s')
    by (eexists; vm_compute; reflexivity).
  destruct E as [s' E]. exists s'. split; [exact E|].
  pose proof (odd_toggle_is_global sample_libm 0) as (_ & _ & _ & _ & T & _).
  exact (T _ (configured plain_options) _ (eq_refl 0) E).
Defined.


(* ================================================================== *)
(** * Further properties of the code *)

(** ** The extents tracker as an algebra *)

(** X1. [extents_add_extents] (source lines 203-209) is associative,
    commutative and idempotent: the box that results from merging
    several boxes depends neither on the order nor on the grouping of
    the merges, and merging a box twice changes nothing. *)
Theorem extents_merge_laws (a b c : extents) :
  extents_add_extents (extents_add_extents a b) c =
    extents_add_extents a (extents_add_extents b c) /\
  extents_add_extents a b = extents_add_extents b a /\
  extents_add_extents a a = a.
Proof.
  rewrite !extents_add_extents_eq. simpl.
  split; [f_equal; lia|]. split; [f_equal; lia|].
  destruct a; simpl. f_equal; lia.
Qed.

Lemma add_points_merge (e g : extents) (pts : list FT_Vector) :
  add_points (extents_add_extents e g) pts =
  extents_add_extents e (add_points g pts).
Proof.
  unfold add_points. revert g.
  induction pts as [|p pts IH]; intros g; simpl; [reflexivity|].
  rewrite <- IH. f_equal.
  rewrite !extents_add_point_eq, !extents_add_extents_eq. simpl.
  f_equal; lia.
Qed.

Lemma add_points_swap (e : extents) (p q : FT_Vector) :
  extents_add_point (extents_add_point e p) q =
  extents_add_point (extents_add_point e q) p.
Proof. rewrite !extents_add_point_eq. simpl. f_equal; lia. Qed.

Lemma add_points_permutation (pts pts' : list FT_Vector) :
  Permutation pts pts' -> forall e, add_points e pts = add_points e pts'.
Proof.
  unfold add_points.
  induction 1 as [|p l l' _ IH|p q l|l l' l'' _ IH1 _ IH2]; intros e; simpl.
  - reflexivity.
  - apply IH.
  - now rewrite add_points_swap.
  - now rewrite IH1.
Qed.

(** Merging a box that has just been reset changes nothing in a tracker
    whose bounds are not beyond the sentinels. *)
Lemma merge_reset (e g : extents) :
  -2000000000 <= maxx e -> -2000000000 <= maxy e ->
  minx e <= 2000000000 -> miny e <= 2000000000 ->
  extents_add_extents e (extents_reset g) = e.
Proof.
  intros H1 H2 H3 H4. rewrite extents_add_extents_eq.
  destruct e as [a b c d]; simpl in *. f_equal; lia.
Qed.

(** X2. Adding a point (source lines 193-199) is merging the box that
    holds just that point.  Merging a box [g] into a tracker [e] and
    then adding points gives what adding the points to [g] and merging
    afterwards gives.  When [g] has just been reset, and the bounds of
    [e] are not beyond the sentinels, merging the box of the points into
    [e] is adding the points to [e]: this is how the text loop rolls the
    extents of a glyph into those of the line.  The reset is needed: the
    point (5,5) added to the zero box and merged into a reset tracker
    gives the box from 0 to 5, not the box of the point.  The order in
    which points are added does not matter. *)
Theorem extents_points_merge (e g : extents) (p : FT_Vector)
  (pts pts' : list FT_Vector) :
  extents_add_point e p = extents_add_extents e (point_box p) /\
  add_points (extents_add_extents e g) pts =
    extents_add_extents e (add_points g pts) /\
  (-2000000000 <= maxx e -> -2000000000 <= maxy e ->
   minx e <= 2000000000 -> miny e <= 2000000000 ->
   extents_add_extents e (add_points (extents_reset g) pts) = add_points e pts) /\
  extents_add_extents (extents_reset e) (add_points (mkExtents 0 0 0 0) [mkV 5 5])
    = mkExtents 0 5 0 5 /\
  add_points (extents_reset e) [mkV 5 5] = mkExtents 5 5 5 5 /\
  (Permutation pts pts' -> add_points e pts = add_points e pts').
Proof.
  split; [|split; [|split; [|split; [|split]]]].
  - rewrite extents_add_point_eq, extents_add_extents_eq. reflexivity.
  - apply add_points_merge.
  - intros H1 H2 H3 H4. rewrite <- add_points_merge.
    now rewrite merge_reset.
  - reflexivity.
  - reflexivity.
  - intros HP. now apply add_points_permutation.
Qed.

(** Three points added in two orders; and the same three points rolled
    from a reset glyph tracker into a line tracker that holds the box
    from (0,0) to (10,10). *)
Lemma extents_points_merge_witness :
  add_points (extents_reset (mkExtents 0 0 0 0)) [mkV 5 (-3); mkV (-7) 40; mkV 12 9]
  = add_points (extents_reset (mkExtents 0 0 0 0)) [mkV 12 9; mkV 5 (-3); mkV (-7) 40]
  /\
  extents_add_extents (mkExtents 0 10 0 10)
    (add_points (extents_reset (mkExtents 0 0 0 0))
       [mkV 5 (-3); mkV (-7) 40; mkV 12 9])
  = add_points (mkExtents 0 10 0 10) [mkV 5 (-3); mkV (-7) 40; mkV 12 9].
Proof.
  split.
  - refine (proj2 (proj2 (proj2 (proj2 (proj2 (extents_points_merge
              (extents_reset (mkExtents 0 0 0 0)) (mkExtents 0 0 0 0) (mkV 0 0)
              [mkV 5 (-3); mkV (-7) 40; mkV 12 9]
              [mkV 12 9; mkV 5 (-3); mkV (-7) 40]))))) _).
    apply Permutation_sym, (Permutation_cons_app [mkV 5 (-3); mkV (-7) 40] []).
    apply Permutation_refl.
  - refine (proj1 (proj2 (proj2 (extents_points_merge
              (mkExtents 0 10 0 10) (mkExtents 0 0 0 0) (mkV 0 0)
              [mkV 5 (-3); mkV (-7) 40; mkV 12 9] []))) _ _ _ _);
      simpl; lia.
Defined.

(** ** The lookup of an error message *)

(** X3. [handle_ft_error] (source lines 170-180) reports the message of
    the first entry of the table that carries the error code, and the
    bare code when no entry carries it; it always ends the program with
    the status [x] it was given, having written its line to stderr and
    nothing to stdout. *)
Theorem handle_ft_error_lookup (tbl : list (Z * string)) (where_ : string)
  (f x : Z) (s : state) :
  match find_error tbl f with
  | Some msg =>
      (exists before after,
         tbl = before ++ (f, msg) :: after /\ forall m, ~ In (f, m) before) /\
      fatal_message tbl where_ f x =
        text ("Fatal error in " ++ where_ ++ ": " ++ msg ++ " (" ++ decimal f
              ++ ") at line:" ++ decimal x ++ nl)
  | None =>
      (forall m, ~ In (f, m) tbl) /\
      fatal_message tbl where_ f x =
        text ("Fatal error in " ++ where_ ++ ": " ++ decimal f
              ++ " at line:" ++ decimal x ++ nl)
  end /\
  @handle_ft_error tbl unit where_ f x s =
    Exit x (set_err (err s ++ fatal_message tbl where_ f x) s) /\
  out (set_err (err s ++ fatal_message tbl where_ f x) s) = out s.
Proof.
  split; [|split; [|reflexivity]].
  - unfold fatal_message.
    destruct (find_error tbl f) as [msg|] eqn:E.
    + split.
      * revert E. induction tbl as [|[code m0] tbl IH]; simpl; [discriminate|].
        destruct (code =? f) eqn:C.
        -- intros [= ->]. apply Z.eqb_eq in C. subst code.
           exists [], tbl. split; [reflexivity|]. intros m [].
        -- intros E. destruct (IH E) as (before & after & -> & Hn).
           exists ((code, m0) :: before), after. split; [reflexivity|].
           intros m [H|H]; [|exact (Hn m H)].
           injection H as H _. apply Z.eqb_neq in C. contradiction.
      * rewrite !text_app, <- !app_assoc. reflexivity.
    + split.
      * revert E. induction tbl as [|[code m0] tbl IH]; simpl; [intros _ m []|].
        destruct (code =? f) eqn:C; [discriminate|].
        intros E m [H|H]; [|exact (IH E m H)].
        injection H as H _. apply Z.eqb_neq in C. contradiction.
      * rewrite !text_app, <- !app_assoc. reflexivity.
  - unfold handle_ft_error, fatal_message, bind, fprintf_stderr, modify, exit.
    destruct (find_error tbl f) as [msg|]; simpl; f_equal; f_equal; f_equal;
      norm_text; reflexivity.
Qed.

(** ** The arc fitter on degenerate input *)

Lemma mul_zero_r (x : float) :
  finite x = true -> exists sg, Prim2SF (x * 0) = S754_zero sg.
Proof.
  unfold finite. intros H. rewrite mul_spec.
  change (Prim2SF 0) with (S754_zero false).
  destruct (Prim2SF x); try discriminate; simpl; eexists; reflexivity.
Qed.

Lemma sub_zeros (a b : float) (sa sb : bool) :
  Prim2SF a = S754_zero sa -> Prim2SF b = S754_zero sb ->
  exists sg, Prim2SF (a - b) = S754_zero sg.
Proof.
  intros Ha Hb. rewrite sub_spec, Ha, Hb.
  destruct sa, sb; simpl; eexists; reflexivity.
Qed.

Lemma two_mul_zero (a : float) (sa : bool) :
  Prim2SF a = S754_zero sa -> exists sg, Prim2SF (2 * a) = S754_zero sg.
Proof.
  intros Ha. rewrite mul_spec, Ha.
  set (two := Prim2SF 2). vm_compute in two. subst two.
  simpl. eexists; reflexivity.
Qed.

Lemma abs_zero_tiny (a : float) (sa : bool) :
  Prim2SF a = S754_zero sa -> (abs a <? Num.tiny)%float = true.
Proof.
  intros Ha. rewrite ltb_spec, abs_spec, Ha.
  set (t := Prim2SF Num.tiny). vm_compute in t. subst t.
  reflexivity.
Qed.

(** X4. A tangent of length zero (which [unit], source lines 76-81, maps
    to the zero vector) makes the denominator of [arc] (source lines
    88-97) vanish whenever the chord is finite: [arc] then prints the
    G-code move for its end point, calls neither [atan2] nor [tan], and
    runs no loop. *)
Theorem arc_zero_tangent (L : libm) (fuel : nat) (p1 p2 d : P) (s : state) :
  (Vec.mag d =? 0)%float = true ->
  finite (px p2 - px p1) = true ->
  finite (py p2 - py p1) = true ->
  Vec.unit d = mkP 0 0 /\
  arc L fuel p1 p2 d s = Ret tt (set_out (out s ++ gcode_move p2) s).
Proof.
  intros Hm Hx Hy.
  assert (U : Vec.unit d = mkP 0 0).
  { unfold Vec.unit. cbv zeta. rewrite Hm. reflexivity. }
  split; [exact U|].
  apply arc_degenerate. cbv zeta. rewrite U. simpl.
  destruct (mul_zero_r _ Hx) as (sx & Ex).
  destruct (mul_zero_r _ Hy) as (sy & Ey).
  destruct (sub_zeros _ _ _ _ Ey Ex) as (sd & Ed).
  destruct (two_mul_zero _ _ Ed) as (st & Et).
  exact (abs_zero_tiny _ _ Et).
Qed.

Lemma arc_zero_tangent_witness :
  arc sample_libm 0 (mkP 1 2) (mkP 4 6) (mkP 0 0) initial_state
  = Ret tt (set_out (out initial_state ++ gcode_move (mkP 4 6)) initial_state).
Proof.
  apply (arc_zero_tangent sample_libm 0 (mkP 1 2) (mkP 4 6) (mkP 0 0)
           initial_state); vm_compute; reflexivity.
Defined.

(** ** The arc as a bulge *)

(** A loop of [arc] whose test holds on every pass that the budget
    allows, and once more, exhausts the budget. *)
Lemma wind_up_short (fuel : nat) (st en : float) :
  (forall j, (j <= fuel)%nat ->
     (Nat.iter j (fun e => e + 2 * Num.M_PI) en <=? st)%float = true) ->
  wind_up fuel st en = None.
Proof.
  revert en. induction fuel as [|fuel IH]; intros en H.
  - pose proof (H 0%nat (le_n 0)) as H0. simpl in H0.
    simpl. rewrite H0. reflexivity.
  - pose proof (H 0%nat ltac:(lia)) as H0. simpl in H0.
    simpl wind_up. rewrite H0. apply IH.
    intros j Hj. pose proof (H (S j) ltac:(lia)) as Hs.
    rewrite Nat.iter_succ_r in Hs. exact Hs.
Qed.

Lemma wind_down_short (fuel : nat) (st en : float) :
  (forall j, (j <= fuel)%nat ->
     (st <=? Nat.iter j (fun e => e - 2 * Num.M_PI) en)%float = true) ->
  wind_down fuel st en = None.
Proof.
  revert en. induction fuel as [|fuel IH]; intros en H.
  - pose proof (H 0%nat (le_n 0)) as H0. simpl in H0.
    simpl. rewrite H0. reflexivity.
  - pose proof (H 0%nat ltac:(lia)) as H0. simpl in H0.
    simpl wind_down. rewrite H0. apply IH.
    intros j Hj. pose proof (H (S j) ltac:(lia)) as Hs.
    rewrite Nat.iter_succ_r in Hs. exact Hs.
Qed.

(** An arc that is not collinear and whose loop exhausts the budget. *)
Lemma arc_exhausted (L : libm) (fuel : nat) (p1 p2 d : P) (s : state) :
  ArcSpec.collinear p1 p2 d = false ->
  (forall j, (j <= fuel)%nat ->
     ArcSpec.behind L p1 p2 d (ArcSpec.adjusted L p1 p2 d j) = true) ->
  arc L fuel p1 p2 d s = OutOfFuel.
Proof.
  intros Hc Hb.
  unfold arc. rewrite unit_normalized.
  change (BiarcSpec.normalized d) with (ArcSpec.d' d).
  change (Vec.sub p2 p1) with (ArcSpec.chord p1 p2).
  change (2 * (py (ArcSpec.chord p1 p2) * px (ArcSpec.d' d)
               - px (ArcSpec.chord p1 p2) * py (ArcSpec.d' d)))%float
    with (ArcSpec.den p1 p2 d).
  change (abs (ArcSpec.den p1 p2 d) <? Num.tiny)%float
    with (ArcSpec.collinear p1 p2 d).
  rewrite Hc.
  change (- Vec.dot (ArcSpec.chord p1 p2) (ArcSpec.chord p1 p2)
          / ArcSpec.den p1 p2 d)%float with (ArcSpec.radius p1 p2 d).
  change (mkP (px p1 + py (ArcSpec.d' d) * ArcSpec.radius p1 p2 d)
              (py p1 + - px (ArcSpec.d' d) * ArcSpec.radius p1 p2 d))%float
    with (ArcSpec.centre p1 p2 d).
  change (atan2 L (py p1 - py (ArcSpec.centre p1 p2 d))
                  (px p1 - px (ArcSpec.centre p1 p2 d)))%float
    with (ArcSpec.start L p1 p2 d).
  change (atan2 L (py p2 - py (ArcSpec.centre p1 p2 d))
                  (px p2 - px (ArcSpec.centre p1 p2 d)))%float
    with (ArcSpec.finish L p1 p2 d).
  unfold ArcSpec.behind, ArcSpec.adjusted in Hb.
  change ArcSpec.turn with (2 * Num.M_PI)%float in Hb.
  destruct (ArcSpec.radius p1 p2 d <? 0)%float.
  - rewrite (wind_up_short fuel _ _ Hb). reflexivity.
  - rewrite (wind_down_short fuel _ _ Hb). reflexivity.
Qed.

(** When no number of adjustments settles the end angle, it is behind
    the start after every one of them. *)
Lemma never_settles (L : libm) (p1 p2 d : P) :
  (forall k, ~ ArcSpec.settles L p1 p2 d k) ->
  forall j, ArcSpec.behind L p1 p2 d (ArcSpec.adjusted L p1 p2 d j) = true.
Proof.
  intros Hn j. induction j as [j IH] using (well_founded_induction lt_wf).
  destruct (ArcSpec.behind L p1 p2 d (ArcSpec.adjusted L p1 p2 d j)) eqn:E;
    [reflexivity|].
  exfalso. apply (Hn j). split; [exact IH|exact E].
Qed.

(** X5. [arc] (source lines 88-116) against the conversion of an arc to
    a bulge as the specification words it.  A collinear arc is printed
    as the G-code move.  Any other arc is printed as one vertex at [p2]
    and nothing else, whenever [atan2] is as C requires it (an angle
    between [-pi] and [pi], or a NaN): each of the two loops (lines
    107-110) then ends after two passes at most, and the bulge is
    [tan(|en - st| / 4)] for the end angle so adjusted, negated when the
    radius is positive.  For an arbitrary [atan2]: when the end angle is
    first past the start angle, in the direction of the sweep, after [k]
    adjustments, that vertex is printed provided the budget of the
    model covers the [k] passes; the model runs out of budget when [k]
    exceeds it, and for every budget when no number of adjustments
    settles the angle, which is when the loop of the program does not
    end. *)
Theorem arc_record (L : libm) (fuel : nat) (p1 p2 d : P) (s : state) :
  (ArcSpec.collinear p1 p2 d = true ->
   arc L fuel p1 p2 d s = Ret tt (set_out (out s ++ gcode_move p2) s)) /\
  (ArcSpec.collinear p1 p2 d = false ->
   (atan2_in_range L -> (2 <= fuel)%nat ->
    (ArcSpec.turns L p1 p2 d <= 2)%nat /\
    ArcSpec.settles L p1 p2 d (ArcSpec.turns L p1 p2 d) /\
    arc L fuel p1 p2 d s =
      Ret tt (set_out (out s ++ bulge_vertex
                         (ArcSpec.bulge L p1 p2 d (ArcSpec.turns L p1 p2 d)) p2)
                      s)) /\
   (forall k : nat, ArcSpec.settles L p1 p2 d k ->
      ((k <= fuel)%nat ->
       arc L fuel p1 p2 d s =
         Ret tt (set_out (out s ++ bulge_vertex (ArcSpec.bulge L p1 p2 d k) p2) s)) /\
      ((fuel < k)%nat -> arc L fuel p1 p2 d s = OutOfFuel)) /\
   ((forall k : nat, ~ ArcSpec.settles L p1 p2 d k) ->
    arc L fuel p1 p2 d s = OutOfFuel)).
Proof.
  split; [|split; [|split]].
  - intros Hc. apply arc_degenerate. rewrite unit_normalized. exact Hc.
  - intros HL Hf. destruct (settles_turns L p1 p2 d HL) as [Hs Hk].
    split; [exact Hk|]. split; [exact Hs|]. now apply arc_in_range.
  - intros k Hs. split.
    + intros Hk. now apply (arc_bulge L fuel k).
    + intros Hk. apply arc_exhausted; [assumption|].
      intros j Hj. apply (proj1 Hs). lia.
  - intros Hn. apply arc_exhausted; [assumption|].
    intros j _. now apply never_settles.
Qed.

Lemma quadrant_libm_in_range : atan2_in_range quadrant_libm.
Proof.
  intros y x. right. cbn [atan2 quadrant_libm].
  destruct (x <? 0)%float, (y <? 0)%float; split; reflexivity.
Qed.

(** The arc from (0,0) heading east to (1,1): the radius is -1 and the
    centre (0,1).  With the coarse [atan2] the start angle is [-pi/4]
    and the end angle [pi/4], no adjustment is needed, and the bulge is
    an eighth of [pi].  With the [atan2] that is always 0, one
    adjustment settles the end angle at a full turn and the bulge is a
    quarter of it; without budget for that pass the model stops.  With
    an [atan2] that is infinite the loop never ends. *)
Lemma arc_record_witness :
  ArcSpec.radius (mkP 0 0) (mkP 1 1) (mkP 1 0) = (-1)%float /\
  (ArcSpec.turns quadrant_libm (mkP 0 0) (mkP 1 1) (mkP 1 0) = 0%nat /\
   arc quadrant_libm 2 (mkP 0 0) (mkP 1 1) (mkP 1 0) initial_state
   = Ret tt (set_out (bulge_vertex (Num.M_PI / 2 / 4)%float (mkP 1 1))
                     initial_state)) /\
  arc sample_libm 1 (mkP 0 0) (mkP 1 1) (mkP 1 0) initial_state
  = Ret tt (set_out (bulge_vertex (2 * Num.M_PI / 4)%float (mkP 1 1))
                    initial_state) /\
  arc sample_libm 0 (mkP 0 0) (mkP 1 1) (mkP 1 0) initial_state = OutOfFuel /\
  (forall fuel : nat,
     arc (mkLibm (fun _ _ => infinity) (fun a => a) (fun _ _ => 0%float))
         fuel (mkP 0 0) (mkP 1 1) (mkP 1 0) initial_state = OutOfFuel).
Proof.
  assert (Hc : ArcSpec.collinear (mkP 0 0) (mkP 1 1) (mkP 1 0) = false)
    by (vm_compute; reflexivity).
  assert (Hs : ArcSpec.settles sample_libm (mkP 0 0) (mkP 1 1) (mkP 1 0) 1).
  { split; [|vm_compute; reflexivity].
    intros j Hj. assert (j = 0)%nat as -> by lia. vm_compute. reflexivity. }
  split; [vm_compute; reflexivity|]. split; [|split; [|split]].
  - split; [vm_compute; reflexivity|].
    exact (proj2 (proj2 (proj1 (proj2 (arc_record quadrant_libm 2 (mkP 0 0)
                                         (mkP 1 1) (mkP 1 0) initial_state) Hc)
                           quadrant_libm_in_range (le_n 2)))).
  - exact (proj1 (proj1 (proj2 (proj2 (arc_record sample_libm 1 (mkP 0 0)
                                         (mkP 1 1) (mkP 1 0) initial_state) Hc))
                    1%nat Hs) (le_n 1)).
  - exact (proj2 (proj1 (proj2 (proj2 (arc_record sample_libm 0 (mkP 0 0)
                                         (mkP 1 1) (mkP 1 0) initial_state) Hc))
                    1%nat Hs) (le_n 1)).
  - intros fuel.
    refine (proj2 (proj2 (proj2 (arc_record _ fuel (mkP 0 0) (mkP 1 1) (mkP 1 0)
                                   initial_state) Hc)) _).
    intros k [_ Hk]. revert Hk.
    assert (Hi : ArcSpec.adjusted
                   (mkLibm (fun _ _ => infinity) (fun a => a)
                           (fun _ _ => 0%float))
                   (mkP 0 0) (mkP 1 1) (mkP 1 0) k = infinity).
    { unfold ArcSpec.adjusted.
      induction k as [|k IH]; [reflexivity|].
      rewrite Nat.iter_succ, IH. vm_compute. reflexivity. }
    rewrite Hi. vm_compute. discriminate.
Defined.

(** ** Outlines *)

Lemma my_line_to_eq (to : FT_Vector) (s : state) :
  my_line_to to s =
  Ret 0 (set_glyph_extents (extents_add_point (glyph_extents s) to)
          (set_last_point to (set_out (out s ++ plain_vertex to) s))).
Proof.
  unfold my_line_to, bind, printf, modify, ret. simpl.
  unfold plain_vertex, group. norm_text. reflexivity.
Qed.

Lemma last_cons {A} (a d : A) (l : list A) : last (a :: l) d = last l a.
Proof.
  revert a d. induction l as [|b l IH]; intros a d; [reflexivity|].
  change (last (a :: b :: l) d) with (last (b :: l) d).
  now rewrite !IH.
Qed.

Lemma textual_text (s : string) : textual (text s) = true.
Proof. induction s as [|c s IH]; [reflexivity|exact IH]. Qed.

Lemma textual_app (a b : list ochar) :
  textual (a ++ b) = textual a && textual b.
Proof. apply forallb_app. Qed.

Lemma textual_layer_tag (g c : Z) (l : option string) :
  textual (layer_tag g c l) = true.
Proof.
  unfold layer_tag, group.
  destruct (g =? 0); [destruct l|destruct ((32 <=? c) && (c <=? 126))];
    try apply textual_text; reflexivity.
Qed.

Lemma textual_straight_record (tag : list ochar) (seg : segment) :
  textual tag = true -> textual (straight_record tag seg) = true.
Proof.
  intros Ht. destruct seg; simpl; try reflexivity;
    unfold polyline_start, plain_vertex, group;
    rewrite ?textual_app, ?textual_text, ?Ht; reflexivity.
Qed.

Lemma straight_step (s : state) (to : FT_Vector) (rec rest : list ochar)
  (pts : list FT_Vector) :
  let s1 := set_glyph_extents (extents_add_point (glyph_extents s) to)
              (set_last_point to (set_out (out s ++ rec) s)) in
  set_glyph_extents (add_points (glyph_extents s1) pts)
    (set_last_point (last pts (last_point s1)) (set_out (out s1 ++ rest) s1))
  = set_glyph_extents (add_points (glyph_extents s) (to :: pts))
      (set_last_point (last (to :: pts) (last_point s))
         (set_out (out s ++ rec ++ rest) s)).
Proof.
  destruct s as [c0 d0 l0 cc g0 lp ge le ad ob od o e n].
  cbv zeta. unfold add_points. cbn -[last].
  rewrite (last_cons to lp), <- app_assoc. reflexivity.
Qed.

Lemma decompose_cons (L : libm) (fuel : nat) (seg : segment)
  (walk : list segment) (final r : Z) (s s1 : state) :
  emit L fuel seg s = Ret r s1 ->
  FT_Outline_Decompose L fuel (seg :: walk) final s =
  if r =? 0 then FT_Outline_Decompose L fuel walk final s1 else Ret r s1.
Proof.
  intros H. cbn [FT_Outline_Decompose]. unfold bind. rewrite H.
  destruct (r =? 0); reflexivity.
Qed.

(** The walk over straight segments, as one equation. *)
Lemma decompose_straight (L : libm) (fuel : nat) (walk : list segment)
  (final : Z) :
  forallb is_straight walk = true ->
  forall s,
    FT_Outline_Decompose L fuel walk final s =
    Ret final
      (set_glyph_extents (add_points (glyph_extents s) (map segment_end walk))
         (set_last_point (last (map segment_end walk) (last_point s))
            (set_out (out s ++
                      flat_map (straight_record
                                  (layer_tag (genfont s) (charcode s) (layer s)))
                               walk) s))).
Proof.
  induction walk as [|seg walk IH]; intros Hs s.
  - simpl. unfold ret. f_equal. destruct s; simpl.
    rewrite app_nil_r. reflexivity.
  - cbn [forallb] in Hs. apply andb_prop in Hs. destruct Hs as [Hseg Hw].
    specialize (IH Hw).
    destruct seg as [to|to| |]; try discriminate.
    + rewrite (decompose_cons L fuel (MoveTo to) walk final 0 s _
                 (my_move_to_eq to s)).
      change (0 =? 0) with true. cbv iota. rewrite IH. f_equal.
      exact (straight_step s to
               (polyline_start to ++ layer_tag (genfont s) (charcode s) (layer s))
               (flat_map (straight_record
                            (layer_tag (genfont s) (charcode s) (layer s))) walk)
               (map segment_end walk)).
    + rewrite (decompose_cons L fuel (LineTo to) walk final 0 s _
                 (my_line_to_eq to s)).
      change (0 =? 0) with true. cbv iota. rewrite IH. f_equal.
      exact (straight_step s to (plain_vertex to)
               (flat_map (straight_record
                            (layer_tag (genfont s) (charcode s) (layer s))) walk)
               (map segment_end walk)).
Qed.

Lemma textual_straight_records (tag : list ochar) (walk : list segment) :
  textual tag = true -> textual (flat_map (straight_record tag) walk) = true.
Proof.
  intros Ht. induction walk as [|seg walk IH]; [reflexivity|].
  cbn [flat_map]. now rewrite textual_app, IH, textual_straight_record.
Qed.

(** X6. An outline made of straight segments only (the callbacks
    [my_move_to] and [my_line_to], source lines 225-247) is always drawn
    to the end, whatever the coordinates: [FT_Outline_Decompose] returns
    the code of the library, the output grows by one polyline start (with
    the layer tag) per [MoveTo] and one vertex per [LineTo], in the order
    of the walk and with integer coordinates only (no [%.4f] text, hence
    neither a bulge nor a G-code move), [glyph_extents] takes in the end
    point of every segment, [last_point] is the end point of the last
    one, and [biarc] is never entered. *)
Theorem straight_outline (L : libm) (fuel : nat) (walk : list segment)
  (final : Z) (s : state) :
  forallb is_straight walk = true ->
  let tag := layer_tag (genfont s) (charcode s) (layer s) in
  let pts := map segment_end walk in
  FT_Outline_Decompose L fuel walk final s =
    Ret final
      (set_glyph_extents (add_points (glyph_extents s) pts)
         (set_last_point (last pts (last_point s))
            (set_out (out s ++ flat_map (straight_record tag) walk) s))) /\
  textual (flat_map (straight_record tag) walk) = true.
Proof.
  intros Hs. cbv zeta. split.
  - now apply decompose_straight.
  - apply textual_straight_records, textual_layer_tag.
Qed.

Lemma straight_outline_witness :
  FT_Outline_Decompose sample_libm 0
    [MoveTo (mkV 100 0); LineTo (mkV 500 0); LineTo (mkV 300 700);
     LineTo (mkV 100 0)] 0 (set_charcode 65 (configured plain_options))
  = Ret 0
      (set_glyph_extents (mkExtents 0 500 0 700)
         (set_last_point (mkV 100 0)
            (set_out (polyline_start (mkV 100 0) ++ group "  8" "A"
                      ++ plain_vertex (mkV 500 0) ++ plain_vertex (mkV 300 700)
                      ++ plain_vertex (mkV 100 0))
               (set_charcode 65 (configured plain_options))))).
Proof.
  pose proof (straight_outline sample_libm 0
    [MoveTo (mkV 100 0); LineTo (mkV 500 0); LineTo (mkV 300 700);
     LineTo (mkV 100 0)] 0 (set_charcode 65 (configured plain_options))) as T.
  cbv zeta in T.
  assert (E : forallb is_straight
    [MoveTo (mkV 100 0); LineTo (mkV 500 0); LineTo (mkV 300 700);
     LineTo (mkV 100 0)] = true) by reflexivity.
  specialize (T E). clear E. destruct T as [T _].
  vm_compute in T. vm_compute. exact T.
Defined.

(** ** Where a callback leaves the pen *)

Lemma ends_bind {A C} (Q : C -> state -> Prop) (m : M A) (k : A -> M C) :
  (forall a, ends Q (k a)) -> ends Q (bind m k).
Proof.
  intros Hk s c s2 H. apply bind_inv in H as (a & s1 & _ & H2).
  exact (Hk a s1 c s2 H2).
Qed.

Lemma ends_move_pen (to : FT_Vector) :
  ends (fun r s' => r = 0 /\ last_point s' = to)
       (modify (set_last_point to) ;; ret 0).
Proof. intros s r s' [= <- <-]. split; reflexivity. Qed.

Lemma emit_ends (L : libm) (fuel : nat) (seg : segment) :
  ends (fun r s' => r = 0 /\ last_point s' = segment_end seg) (emit L fuel seg).
Proof.
  destruct seg as [to|to|control to|control1 control2 to]; simpl.
  - intros s r s'. rewrite my_move_to_eq. intros [= <- <-]. split; reflexivity.
  - intros s r s'. rewrite my_line_to_eq. intros [= <- <-]. split; reflexivity.
  - unfold my_conic_to. do 6 (apply ends_bind; intros ?).
    apply ends_move_pen.
  - unfold my_cubic_to. do 5 (apply ends_bind; intros ?).
    apply ends_move_pen.
Qed.

Lemma decompose_ends (L : libm) (fuel : nat) (walk : list segment) (final : Z)
  (s s' : state) (r : Z) :
  FT_Outline_Decompose L fuel walk final s = Ret r s' ->
  r = final /\ last_point s' = last (map segment_end walk) (last_point s).
Proof.
  revert s. induction walk as [|seg walk IH]; intros s.
  - intros [= <- <-]. split; reflexivity.
  - cbn [FT_Outline_Decompose]. intros H.
    apply bind_inv in H as (e & s1 & He & H).
    destruct (emit_ends L fuel seg s e s1 He) as [-> Hp].
    change (0 =? 0) with true in H. cbv iota in H.
    destruct (IH _ H) as [-> Hl]. split; [reflexivity|].
    rewrite Hl, Hp. cbn [map]. symmetry. apply last_cons.
Qed.

(** X7. Each of the four callbacks (source lines 225-339) returns 0 and
    leaves [last_point] at the end point of its segment whenever it
    returns.  Hence a walk that comes back from [FT_Outline_Decompose] was
    never cut short by a callback: the code returned is the library's
    own, and [last_point] is the end point of the last segment (or
    untouched, for an empty outline). *)
Theorem outline_cursor (L : libm) (fuel : nat) :
  (forall seg s r s',
     emit L fuel seg s = Ret r s' ->
     r = 0 /\ last_point s' = segment_end seg) /\
  (forall walk final s r s',
     FT_Outline_Decompose L fuel walk final s = Ret r s' ->
     r = final /\
     last_point s' = last (map segment_end walk) (last_point s)).
Proof.
  split.
  - intros seg s r s' H. exact (emit_ends L fuel seg s r s' H).
  - intros walk final s r s' H. exact (decompose_ends L fuel walk final s s' r H).
Qed.

Lemma outline_cursor_witness :
  exists s',
    FT_Outline_Decompose sample_libm 0
      [MoveTo (mkV 0 0); ConicTo (mkV 200 0) (mkV 100 0)] 7
      (configured plain_options) = Ret 7 s' /\
    last_point s' = mkV 100 0.
Proof.
  destruct (FT_Outline_Decompose sample_libm 0
              [MoveTo (mkV 0 0); ConicTo (mkV 200 0) (mkV 100 0)] 7
              (configured plain_options)) as [r s'| | |] eqn:E.
  - exists s'.
    destruct (proj2 (outline_cursor sample_libm 0) _ _ _ _ _ E) as [-> H].
    split; [reflexivity|exact H].
  - vm_compute in E. discriminate.
  - vm_compute in E. discriminate.
  - vm_compute in E. discriminate.
Defined.

(** ** Blank bitmaps *)

Lemma set_oldbit_same (s : state) : oldbit s = 0 -> set_oldbit 0 s = s.
Proof. destruct s; simpl; intros ->; reflexivity. Qed.

Lemma trace_bit_blank (x y linescale j i bits : Z) (loc : tracer) (s : state) :
  linescale <> 0 -> oldbit s = 0 ->
  exists w, trace_bit x y linescale j i 0 bits loc s =
    Ret (mkTracer (oldv loc) (vbuf loc) (spans loc) (Some w)) s.
Proof.
  intros Hl Ho. unfold trace_bit, bind, get.
  destruct (Z.eqb_spec linescale 0) as [E|_]; [contradiction|].
  unfold ret. rewrite Ho.
  change (Z.land 0 (Z.shiftr 128 bits)) with 0.
  cbn. unfold modify. rewrite (set_oldbit_same s Ho).
  eexists. reflexivity.
Qed.

(** A loop whose body returns without touching the state. *)
Lemma for_acc_still {A} (I : A -> Prop) (body : Z -> A -> M A) (s : state)
  (n : nat) :
  forall t a,
    (forall t' a0, t <= t' < t + Z.of_nat n -> I a0 ->
       exists a', body t' a0 s = Ret a' s /\ I a') ->
    I a ->
    exists a', for_acc n t a body s = Ret a' s /\ I a'.
Proof.
  induction n as [|n IH]; intros t a Hb Ha.
  - exists a. split; [reflexivity|exact Ha].
  - destruct (Hb t a ltac:(lia) Ha) as (a1 & E1 & H1).
    destruct (IH (t + 1) a1) as (a2 & E2 & H2).
    + intros t' a0 Ht. apply Hb. lia.
    + exact H1.
    + exists a2. split; [|exact H2].
      cbn [for_acc]. rewrite (bind_ret_eq _ _ _ _ _ E1). exact E2.
Qed.

Lemma trace_row_bits_blank (b : FT_Bitmap) (x y linescale j : Z) (loc : tracer)
  (s : state) :
  linescale <> 0 -> blank b -> 0 <= j < rows b -> oldbit s = 0 ->
  exists loc', trace_row_bits b x y linescale j loc s = Ret loc' s /\
    oldv loc' = oldv loc /\ vbuf loc' = vbuf loc /\ spans loc' = spans loc.
Proof.
  intros Hl Hb Hj Ho. unfold trace_row_bits.
  apply (for_acc_still
           (fun l => oldv l = oldv loc /\ vbuf l = vbuf loc /\ spans l = spans loc));
    [|repeat split].
  intros i l Hi (H1 & H2 & H3).
  assert (Hk : 0 <= j * Z.abs (pitch b) + i < rows b * Z.abs (pitch b)) by nia.
  destruct (Z.ltb_spec (j * Z.abs (pitch b) + i) 0) as [E|_]; [lia|].
  unfold bind at 1. rewrite (Hb _ Hk). cbn [defined ret].
  apply (for_acc_still
           (fun l => oldv l = oldv loc /\ vbuf l = vbuf loc /\ spans l = spans loc));
    [|repeat split; assumption].
  intros bits l0 _ (K1 & K2 & K3).
  destruct (trace_bit_blank x y linescale j i bits l0 s Hl Ho) as (w & E).
  eexists. split; [exact E|]. cbn. repeat split; assumption.
Qed.

Lemma trace_row_blank (b : FT_Bitmap) (x y linescale j : Z) (loc : tracer)
  (s : state) :
  linescale <> 0 -> blank b -> 0 <= j < rows b ->
  exists loc', trace_row b x y linescale j loc s =
    Ret loc' (set_odd (flip (odd s)) (set_oldbit 0 s)).
Proof.
  intros Hl Hb Hj. unfold trace_row.
  unfold bind at 1. unfold modify at 1.
  destruct (trace_row_bits_blank b x y linescale j
              (mkTracer (oldv loc) (vbuf loc) 0 None) (set_oldbit 0 s)
              Hl Hb Hj eq_refl) as (loc1 & E & _ & _ & Hs).
  cbn [spans] in Hs.
  rewrite (bind_ret_eq _ _ _ _ _ E).
  unfold bind, get, modify, ret. cbn [oldbit set_oldbit].
  change (negb (0 =? 0)) with false. cbv beta iota.
  cbn [spans]. rewrite Hs. change (Z.quot 0 2) with 0.
  cbn [Z.to_nat for_up for_down]. unfold ret, flip.
  destruct (negb _); eexists; reflexivity.
Qed.

Lemma trace_rows_blank (b : FT_Bitmap) (x y linescale : Z) (n : nat) :
  linescale <> 0 -> blank b ->
  forall j loc s,
    0 <= j -> j + Z.of_nat n <= Z.max 0 (rows b) ->
    exists loc' s',
      for_acc n j loc (trace_row b x y linescale) s = Ret loc' s' /\
      out s' = out s /\ err s' = err s /\
      glyph_extents s' = glyph_extents s /\ last_point s' = last_point s /\
      biarc_calls s' = biarc_calls s /\
      odd s' = Nat.iter n flip (odd s).
Proof.
  intros Hl Hb. induction n as [|n IH]; intros j loc s Hj Hn.
  - exists loc, s. repeat split; reflexivity.
  - destruct (trace_row_blank b x y linescale j loc s Hl Hb ltac:(lia))
      as (loc1 & E1).
    destruct (IH (j + 1) loc1 (set_odd (flip (odd s)) (set_oldbit 0 s))
                ltac:(lia) ltac:(lia))
      as (loc2 & s2 & E2 & Ho & He & Hg & Hp & Hc & Hd).
    exists loc2, s2. split.
    { cbn [for_acc]. rewrite (bind_ret_eq _ _ _ _ _ E1). exact E2. }
    rewrite Ho, He, Hg, Hp, Hc, Hd, Nat.iter_succ_r.
    repeat split; reflexivity.
Qed.

(** X8. A call of [my_draw_bitmap] (source lines 341-391) on a bitmap
    whose bytes are all zero runs to the end and draws nothing: no
    polyline is started, [glyph_extents] and [last_point] are as they
    were, and the only trace of the call is in the statics, [odd] having
    been toggled once per row.  (The divisor [linescale] must not be
    zero; [render_char] calls the tracer with a positive one.) *)
Theorem blank_bitmap_draws_nothing (b : FT_Bitmap) (x y linescale : Z)
  (s : state) :
  linescale <> 0 -> blank b ->
  exists s',
    my_draw_bitmap b x y linescale s = Ret tt s' /\
    out s' = out s /\ err s' = err s /\
    glyph_extents s' = glyph_extents s /\ last_point s' = last_point s /\
    biarc_calls s' = biarc_calls s /\
    odd s' = Nat.iter (Z.to_nat (rows b)) flip (odd s).
Proof.
  intros Hl Hb. unfold my_draw_bitmap.
  destruct (trace_rows_blank b x y linescale (Z.to_nat (rows b)) Hl Hb 0
              (mkTracer (mkV 99999 0) (repeat None 100) 0 None) s
              ltac:(lia) ltac:(lia))
    as (loc' & s' & E & H).
  exists s'. split; [|exact H].
  rewrite (bind_ret_eq _ _ _ _ _ E). reflexivity.
Qed.

Lemma blank_bitmap_draws_nothing_witness :
  exists s',
    my_draw_bitmap blank2 3 5 64 (configured plain_options) = Ret tt s' /\
    out s' = [] /\ odd s' = 0.
Proof.
  destruct (blank_bitmap_draws_nothing blank2 3 5 64 (configured plain_options))
    as (s' & E & Ho & _ & _ & _ & _ & Hd).
  - discriminate.
  - intros k Hk. change (rows blank2 * Z.abs (pitch blank2)) with 2 in Hk.
    assert (C : k = 0 \/ k = 1) by lia.
    destruct C as [-> | ->]; reflexivity.
  - exists s'. split; [exact E|]. split; [exact Ho|exact Hd].
Defined.

(** ** What a run may do to the streams and to the settings *)

Lemma steady_refl (s : state) : steady s s.
Proof.
  split; [exists []; now rewrite app_nil_r|]. repeat split.
Qed.

Lemma steady_trans (s1 s2 s3 : state) :
  steady s1 s2 -> steady s2 s3 -> steady s1 s3.
Proof.
  intros ((w1 & O1) & E1 & C1 & D1 & G1 & L1) ((w2 & O2) & E2 & C2 & D2 & G2 & L2).
  split; [exists (w1 ++ w2); now rewrite O2, O1, app_assoc|].
  unfold same_settings. repeat split; congruence.
Qed.

Lemma steady_fatal (ft_errors : list (Z * string)) (status : Z)
  (s1 s2 s3 : state) :
  steady s1 s2 -> fatal_exit ft_errors status s2 s3 ->
  fatal_exit ft_errors status s1 s3.
Proof.
  intros ((w1 & O1) & E1 & C1 & D1 & G1 & L1)
         ((w2 & O2) & (wh & f & Hf & Hin & E2) & C2 & D2 & G2 & L2).
  split; [exists (w1 ++ w2); now rewrite O2, O1, app_assoc|].
  split; [exists wh, f; now rewrite E2, E1|].
  unfold same_settings. repeat split; congruence.
Qed.

(** The assignments of the program, one by one. *)
Lemma steady_out (w : list ochar) (s : state) : steady s (set_out (out s ++ w) s).
Proof. split; [now exists w|]. repeat split. Qed.

Ltac steady_set :=
  intros; split; [exists []; simpl; now rewrite app_nil_r|repeat split].

Lemma steady_last_point (p : FT_Vector) (s : state) : steady s (set_last_point p s).
Proof. steady_set. Qed.

Lemma steady_glyph_extents (e : extents) (s : state) :
  steady s (set_glyph_extents e s).
Proof. steady_set. Qed.

Lemma steady_line_extents (e : extents) (s : state) :
  steady s (set_line_extents e s).
Proof. steady_set. Qed.

Lemma steady_advance (a : FT_Vector) (s : state) : steady s (set_advance a s).
Proof. steady_set. Qed.

Lemma steady_oldbit (b : Z) (s : state) : steady s (set_oldbit b s).
Proof. steady_set. Qed.

Lemma steady_odd (b : Z) (s : state) : steady s (set_odd b s).
Proof. steady_set. Qed.

Lemma steady_charcode (c : Z) (s : state) : steady s (set_charcode c s).
Proof. steady_set. Qed.

Lemma steady_biarc_calls (n : nat) (s : state) : steady s (set_biarc_calls n s).
Proof. steady_set. Qed.

Section Outcome.

Variable ft_errors : list (Z * string).

Lemma outcome_ret {A} (a : A) : outcome ft_errors (ret a).
Proof. intros s. apply steady_refl. Qed.

Lemma outcome_get : outcome ft_errors get.
Proof. intros s. apply steady_refl. Qed.

Lemma outcome_undefined {A} : outcome ft_errors (@undefined A).
Proof. intros s. exact I. Qed.

Lemma outcome_defined {A} (o : option A) : outcome ft_errors (defined o).
Proof. destruct o; [apply outcome_ret|apply outcome_undefined]. Qed.

Lemma outcome_budget {A} (o : option A) : outcome ft_errors (budget o).
Proof. destruct o; [apply outcome_ret|intros s; exact I]. Qed.

Lemma outcome_counts_to (n : Z) : outcome ft_errors (counts_to n).
Proof.
  unfold counts_to.
  destruct (n <? Num.INT_MAX); [apply outcome_ret|apply outcome_undefined].
Qed.

Lemma outcome_modify (g : state -> state) :
  (forall s, steady s (g s)) -> outcome ft_errors (modify g).
Proof. intros H s. apply H. Qed.

Lemma outcome_printf (fmt : string) (args : list arg) :
  outcome ft_errors (printf fmt args).
Proof. intros s. apply steady_out. Qed.

Lemma outcome_bind {A C} (m : M A) (k : A -> M C) :
  outcome ft_errors m -> (forall a, outcome ft_errors (k a)) ->
  outcome ft_errors (bind m k).
Proof.
  intros Hm Hk s. unfold bind. specialize (Hm s).
  destruct (m s) as [a s1|c s1| |]; try exact I; [|exact Hm].
  specialize (Hk a s1). destruct (k a s1) as [b s2|c s2| |]; try exact I.
  - exact (steady_trans _ _ _ Hm Hk).
  - exact (steady_fatal _ _ _ _ _ Hm Hk).
Qed.

Lemma outcome_for_acc {A} (n : nat) (body : Z -> A -> M A) :
  (forall t a, outcome ft_errors (body t a)) ->
  forall t a, outcome ft_errors (for_acc n t a body).
Proof.
  intros Hb. induction n as [|n IH]; intros t a; simpl.
  - apply outcome_ret.
  - apply outcome_bind; [apply Hb|intros a'; apply IH].
Qed.

Lemma outcome_for_up (n : nat) (body : Z -> M unit) :
  (forall t, outcome ft_errors (body t)) ->
  forall t, outcome ft_errors (for_up n t body).
Proof.
  intros Hb. induction n as [|n IH]; intros t; simpl.
  - apply outcome_ret.
  - apply outcome_bind; [apply Hb|intros _; apply IH].
Qed.

Lemma outcome_for_down (n : nat) (body : Z -> M unit) :
  (forall t, outcome ft_errors (body t)) ->
  forall t, outcome ft_errors (for_down n t body).
Proof.
  intros Hb. induction n as [|n IH]; intros t; simpl.
  - apply outcome_ret.
  - apply outcome_bind; [apply Hb|intros _; apply IH].
Qed.

(** A failed library call, reported from one of the call sites. *)
Lemma outcome_check (where_ : string) (error line_ : Z) :
  In (where_, line_) call_sites ->
  outcome ft_errors (check ft_errors where_ error line_).
Proof.
  intros Hin s. destruct (Z.eq_dec error 0) as [->|H].
  - rewrite check_ok. apply steady_refl.
  - rewrite (check_failed _ _ _ _ _ H). unfold died.
    split; [exists []; simpl; now rewrite app_nil_r|].
    split; [exists where_, error; now repeat split|repeat split].
Qed.

End Outcome.

Create HintDb outcome discriminated.

#[local] Hint Resolve outcome_ret outcome_get outcome_undefined outcome_defined
  outcome_budget outcome_counts_to outcome_printf
  steady_last_point steady_glyph_extents steady_line_extents steady_advance
  steady_oldbit steady_odd steady_charcode steady_biarc_calls steady_out
  : outcome.

(** One step of the decomposition of a run along the structure of its
    code. *)
Ltac outcome_step :=
  lazymatch goal with
  | |- outcome _ (bind _ _) => apply outcome_bind; [|intros ?]
  | |- outcome _ (modify _) => apply outcome_modify; intros ?
  | |- outcome _ (for_acc _ _ _ _) => apply outcome_for_acc; intros ? ?
  | |- outcome _ (for_up _ _ _) => apply outcome_for_up; intros ?
  | |- outcome _ (for_down _ _ _) => apply outcome_for_down; intros ?
  | |- outcome _ (check _ _ _ _) =>
      apply outcome_check; unfold call_sites; simpl;
      repeat (first [left; reflexivity | right])
  | |- outcome _ (if ?c then _ else _) => destruct c
  | |- outcome _ (match ?x with _ => _ end) => destruct x
  | |- outcome _ (let _ := _ in _) => cbv zeta
  end.

Ltac outcome_auto := repeat outcome_step; auto with outcome.

Lemma outcome_line (ft_errors : list (Z * string)) (p : P) :
  outcome ft_errors (line p).
Proof. unfold line. outcome_auto. Qed.

Lemma outcome_arc (ft_errors : list (Z * string)) (L : libm) (fuel : nat)
  (p1 p2 d : P) :
  outcome ft_errors (arc L fuel p1 p2 d).
Proof. unfold arc. outcome_auto. Qed.

#[local] Hint Resolve outcome_line outcome_arc : outcome.

Lemma outcome_biarc (ft_errors : list (Z * string)) (L : libm) (fuel : nat)
  (p0 ts p4 te : P) (r : float) :
  outcome ft_errors (biarc L fuel p0 ts p4 te r).
Proof. unfold biarc. outcome_auto. Qed.

Lemma outcome_maybe_output_layer (ft_errors : list (Z * string)) :
  outcome ft_errors maybe_output_layer.
Proof. unfold maybe_output_layer. outcome_auto. Qed.

#[local] Hint Resolve outcome_biarc outcome_maybe_output_layer : outcome.

Lemma outcome_my_move_to (ft_errors : list (Z * string)) (to : FT_Vector) :
  outcome ft_errors (my_move_to to).
Proof. unfold my_move_to. outcome_auto. Qed.

Lemma outcome_my_line_to (ft_errors : list (Z * string)) (to : FT_Vector) :
  outcome ft_errors (my_line_to to).
Proof. unfold my_line_to. outcome_auto. Qed.

Lemma outcome_sample (ft_errors : list (Z * string)) (L : libm) (x y : float)
  (loc : FT_Vector * float) :
  outcome ft_errors (sample L x y loc).
Proof. unfold sample. outcome_auto. Qed.

#[local] Hint Resolve outcome_my_move_to outcome_my_line_to outcome_sample
  : outcome.

Lemma outcome_conic_length (ft_errors : list (Z * string)) (L : libm)
  (control to : FT_Vector) :
  outcome ft_errors (conic_length L control to).
Proof. unfold conic_length. outcome_auto. Qed.

Lemma outcome_cubic_length (ft_errors : list (Z * string)) (L : libm)
  (control1 control2 to : FT_Vector) :
  outcome ft_errors (cubic_length L control1 control2 to).
Proof. unfold cubic_length. outcome_auto. Qed.

#[local] Hint Resolve outcome_conic_length outcome_cubic_length : outcome.

Lemma outcome_my_conic_to (ft_errors : list (Z * string)) (L : libm)
  (fuel : nat) (control to : FT_Vector) :
  outcome ft_errors (my_conic_to L fuel control to).
Proof. unfold my_conic_to. outcome_auto. Qed.

Lemma outcome_my_cubic_to (ft_errors : list (Z * string)) (L : libm)
  (fuel : nat) (control1 control2 to : FT_Vector) :
  outcome ft_errors (my_cubic_to L fuel control1 control2 to).
Proof. unfold my_cubic_to. outcome_auto. Qed.

#[local] Hint Resolve outcome_my_conic_to outcome_my_cubic_to : outcome.

Lemma outcome_emit (ft_errors : list (Z * string)) (L : libm) (fuel : nat)
  (seg : segment) :
  outcome ft_errors (emit L fuel seg).
Proof. destruct seg; simpl; auto with outcome. Qed.

Lemma outcome_FT_Outline_Decompose (ft_errors : list (Z * string)) (L : libm)
  (fuel : nat) (walk : list segment) (final : Z) :
  outcome ft_errors (FT_Outline_Decompose L fuel walk final).
Proof.
  induction walk as [|seg walk IH]; cbn [FT_Outline_Decompose].
  - apply outcome_ret.
  - apply outcome_bind; [apply outcome_emit|intros e].
    destruct (e =? 0); [exact IH|apply outcome_ret].
Qed.

Lemma outcome_push_span (ft_errors : list (Z * string)) (w : FT_Vector)
  (loc : tracer) :
  outcome ft_errors (push_span w loc).
Proof. unfold push_span. outcome_auto. Qed.

Lemma outcome_span_at (ft_errors : list (Z * string)) (loc : tracer) (k : Z) :
  outcome ft_errors (span_at loc k).
Proof. unfold span_at. outcome_auto. Qed.

#[local] Hint Resolve outcome_FT_Outline_Decompose outcome_push_span
  outcome_span_at : outcome.

Lemma outcome_trace_bit (ft_errors : list (Z * string))
  (x y linescale j i byte bits : Z) (loc : tracer) :
  outcome ft_errors (trace_bit x y linescale j i byte bits loc).
Proof. unfold trace_bit. outcome_auto. Qed.

#[local] Hint Resolve outcome_trace_bit : outcome.

Lemma outcome_trace_row_bits (ft_errors : list (Z * string)) (b : FT_Bitmap)
  (x y linescale j : Z) (loc : tracer) :
  outcome ft_errors (trace_row_bits b x y linescale j loc).
Proof. unfold trace_row_bits. outcome_auto. Qed.

#[local] Hint Resolve outcome_trace_row_bits : outcome.

Lemma outcome_trace_row (ft_errors : list (Z * string)) (b : FT_Bitmap)
  (x y linescale j : Z) (loc : tracer) :
  outcome ft_errors (trace_row b x y linescale j loc).
Proof. unfold trace_row. outcome_auto. Qed.

#[local] Hint Resolve outcome_trace_row : outcome.

Lemma outcome_my_draw_bitmap (ft_errors : list (Z * string)) (b : FT_Bitmap)
  (x y linescale : Z) :
  outcome ft_errors (my_draw_bitmap b x y linescale).
Proof. unfold my_draw_bitmap. outcome_auto. Qed.

#[local] Hint Resolve outcome_my_draw_bitmap : outcome.

Lemma outcome_render_char (L : libm) (fuel : nat) (ft_errors : list (Z * string))
  (face : FT_Face) (c offset linescale : Z) :
  outcome ft_errors (render_char L fuel ft_errors face c offset linescale).
Proof. unfold render_char. outcome_auto. Qed.

#[local] Hint Resolve outcome_render_char : outcome.

Lemma outcome_genfont_char (L : libm) (fuel : nat)
  (ft_errors : list (Z * string)) (face : FT_Face) (offset linescale wc : Z) :
  outcome ft_errors (genfont_char L fuel ft_errors face offset linescale wc).
Proof. unfold genfont_char, dimension. outcome_auto. Qed.

#[local] Hint Resolve outcome_genfont_char : outcome.

Lemma outcome_genfont_loop (L : libm) (fuel : nat)
  (ft_errors : list (Z * string)) (face : FT_Face) (offset linescale : Z) :
  outcome ft_errors (genfont_loop L fuel ft_errors face offset linescale).
Proof. unfold genfont_loop. outcome_auto. Qed.

Lemma outcome_text_loop (L : libm) (fuel : nat) (ft_errors : list (Z * string))
  (face : FT_Face) (linescale : Z) (txt : list mbchar) :
  forall offset,
    outcome ft_errors (text_loop L fuel ft_errors face linescale txt offset).
Proof.
  induction txt as [|[wc|] txt IH]; intros offset; cbn [text_loop].
  - apply outcome_ret.
  - outcome_auto.
  - apply IH.
Qed.

(** ** The runs of [main] *)

Lemma outcome_main (L : libm) (fuel : nat) (ft_errors : list (Z * string))
  (o : options) (lib : FT_Library) (font_file : string) :
  opt_f o = Some font_file ->
  outcome ft_errors (main L fuel ft_errors o lib).
Proof.
  intros Hf. unfold main. rewrite Hf. cbv zeta.
  pose proof (outcome_genfont_loop L fuel ft_errors (the_face lib) 0
                (configured_linescale o)).
  pose proof (outcome_text_loop L fuel ft_errors (the_face lib)
                (configured_linescale o) (the_text o) 0).
  outcome_auto.
Qed.


Lemma check_returns (ft_errors : list (Z * string)) (where_ : string)
  (error line_ : Z) (s s' : state) :
  check ft_errors where_ error line_ s = Ret tt s' -> error = 0 /\ s' = s.
Proof.
  destruct (Z.eq_dec error 0) as [->|H].
  - rewrite check_ok. intros [= <-]. split; reflexivity.
  - rewrite (check_failed _ _ _ _ _ H). discriminate.
Qed.

Lemma preamble_eq :
  format ("  0" ++ nl ++ "SECTION" ++ nl ++ "  2" ++ nl ++ "ENTITIES" ++ nl) []
  = group "  0" "SECTION" ++ group "  2" "ENTITIES".
Proof. reflexivity. Qed.

Lemma postamble_eq :
  format ("  0" ++ nl ++ "ENDSEC" ++ nl ++ "  0" ++ nl ++ "EOF" ++ nl) []
  = group "  0" "ENDSEC" ++ group "  0" "EOF".
Proof. reflexivity. Qed.



(** X10. A run of [main] that ends the program does so from one of the
    nine call sites of [handle_ft_error]: the exit status is the line
    number of that site (never 0, and never the 99 of a usage error),
    stderr has received exactly the report of the failed call, whose
    error code is not zero, and stdout holds what it held, possibly with
    more after it. *)
Theorem main_exits (L : libm) (fuel : nat) (ft_errors : list (Z * string))
  (o : options) (lib : FT_Library) (s s' : state) (status : Z) :
  main L fuel ft_errors o lib s = Exit status s' ->
  In status [403; 414; 416; 426; 429; 447; 506; 509; 517] /\
  (exists where_ f,
     f <> 0 /\ In (where_, status) call_sites /\
     err s' = err s ++ fatal_message ft_errors where_ f status) /\
  (exists w, out s' = out s ++ w) /\
  same_settings s s'.
Proof.
  intros H. destruct (opt_f o) as [font_file|] eqn:Hf.
  - pose proof (outcome_main L fuel ft_errors o lib font_file Hf s) as K.
    rewrite H in K. destruct K as (Ho & (wh & f & Hne & Hin & He) & Hs).
    split; [exact (in_map snd _ _ Hin)|].
    split; [now exists wh, f|]. split; assumption.
  - unfold main in H. rewrite Hf in H. discriminate.
Qed.

Lemma main_exits_witness :
  exists s',
    main sample_libm 4 sample_errors plain_options
      (mkLibrary 0 1 (font 0 0)) (configured plain_options) = Exit 509 s' /\
    same_settings (configured plain_options) s'.
Proof.
  destruct (main sample_libm 4 sample_errors plain_options
              (mkLibrary 0 1 (font 0 0)) (configured plain_options))
    as [r s'|status s'| |] eqn:E.
  - vm_compute in E. discriminate.
  - destruct (main_exits _ _ _ _ _ _ _ _ E) as (_ & _ & _ & Hs).
    exists s'. split; [|exact Hs].
    vm_compute in E. injection E as <- <-. reflexivity.
  - vm_compute in E. discriminate.
  - vm_compute in E. discriminate.
Defined.

(** X11. The start-up of [main] (source lines 502-517).  The font file
    is asked for before the library is touched; then the three start-up
    calls are checked in turn, and the first that fails ends the program
    with the line number of its check as exit status, before anything
    has been written to stdout. *)
Theorem main_startup (L : libm) (fuel : nat) (ft_errors : list (Z * string))
  (o : options) (lib : FT_Library) (s : state) :
  (opt_f o = None ->
   main L fuel ft_errors o lib s =
   Ret 99 (set_err (err s ++ text ("Please use -f to specify .ttf font file" ++ nl)) s)) /\
  (opt_f o <> None ->
   (FT_Init_FreeType lib <> 0 ->
    main L fuel ft_errors o lib s =
    fatal ft_errors "FT_Init_FreeType" (FT_Init_FreeType lib) 506 s) /\
   (FT_Init_FreeType lib = 0 ->
    (FT_New_Face lib <> 0 ->
     main L fuel ft_errors o lib s =
     fatal ft_errors "FT_New_Face" (FT_New_Face lib) 509 s) /\
    (FT_New_Face lib = 0 ->
     FT_Set_Pixel_Sizes (the_face lib) 0 64 <> 0 ->
     main L fuel ft_errors o lib s =
     fatal ft_errors "FT_Set_Pixel_Sizes"
           (FT_Set_Pixel_Sizes (the_face lib) 0 64) 517 s))) /\
  (forall where_ error line_,
     out (died ft_errors where_ error line_ s) = out s).
Proof.
  split; [|split].
  - intros Hf. unfold main. rewrite Hf. reflexivity.
  - intros Hf. unfold main. destruct (opt_f o) as [font_file|]; [|contradiction].
    cbv zeta. split.
    + intros H1. now rewrite bind_check_failed.
    + intros H1. rewrite (bind_check_ok _ _ _ _ _ _ H1). split.
      * intros H2. now rewrite bind_check_failed.
      * intros H2 H3. rewrite (bind_check_ok _ _ _ _ _ _ H2).
        now rewrite bind_check_failed.
  - reflexivity.
Qed.

Lemma main_startup_witness :
  main sample_libm 4 sample_errors (mkOptions None None None None [Wide 65])
    sample_library initial_state
  = Ret 99 (set_err (text ("Please use -f to specify .ttf font file" ++ nl))
              initial_state) /\
  main sample_libm 4 sample_errors plain_options (mkLibrary 6 1 (font 0 0))
    initial_state
  = fatal sample_errors "FT_Init_FreeType" 6 506 initial_state /\
  main sample_libm 4 sample_errors plain_options (mkLibrary 0 1 (font 0 0))
    initial_state
  = fatal sample_errors "FT_New_Face" 1 509 initial_state /\
  main sample_libm 4 sample_errors plain_options (mkLibrary 0 0 (font 426 6))
    initial_state
  = fatal sample_errors "FT_Set_Pixel_Sizes" 6 517 initial_state.
Proof.
  split; [|split; [|split]].
  - apply (proj1 (main_startup sample_libm 4 sample_errors
                    (mkOptions None None None None [Wide 65])
                    sample_library initial_state)).
    reflexivity.
  - apply (proj1 (proj2 (main_startup sample_libm 4 sample_errors plain_options
                           (mkLibrary 6 1 (font 0 0)) initial_state))).
    + discriminate.
    + discriminate.
  - apply (proj1 (proj2 (main_startup sample_libm 4 sample_errors plain_options
                           (mkLibrary 0 1 (font 0 0)) initial_state))).
    + discriminate.
    + reflexivity.
    + discriminate.
  - apply (proj1 (proj2 (main_startup sample_libm 4 sample_errors plain_options
                           (mkLibrary 0 0 (font 426 6)) initial_state))).
    + discriminate.
    + reflexivity.
    + reflexivity.
    + discriminate.
Defined.

(** ** Characters without a glyph *)

Lemma skipped_refl (s : state) : skipped s s.
Proof. repeat split. Qed.

Lemma skipped_trans (s1 s2 s3 : state) :
  skipped s1 s2 -> skipped s2 s3 -> skipped s1 s3.
Proof. unfold skipped. intuition congruence. Qed.

Lemma render_char_missing (L : libm) (fuel : nat) (ft_errors : list (Z * string))
  (face : FT_Face) (c offset linescale : Z) (s : state) :
  FT_Set_Pixel_Sizes face 4096 (if negb (linescale =? 0) then linescale else 64) = 0 ->
  FT_Get_Char_Index face c = 0 ->
  render_char L fuel ft_errors face c offset linescale s
    = Ret (-1) (set_charcode c s).
Proof.
  intros Hsize Hidx. unfold render_char, bind, modify.
  rewrite Hsize, Hidx. reflexivity.
Qed.

Lemma text_loop_skips (L : libm) (fuel : nat) (ft_errors : list (Z * string))
  (face : FT_Face) (linescale : Z) (txt : list mbchar) (offset : Z) :
  FT_Set_Pixel_Sizes face 4096 (if negb (linescale =? 0) then linescale else 64) = 0 ->
  (forall wc, In (Wide wc) txt -> FT_Get_Char_Index face wc = 0) ->
  forall s, exists s',
    text_loop L fuel ft_errors face linescale txt offset s = Ret offset s' /\
    skipped s s'.
Proof.
  intros Hsize. induction txt as [|[wc|] txt IH]; intros Hmiss s.
  - exists s. split; [reflexivity|apply skipped_refl].
  - destruct (IH (fun c H => Hmiss c (or_intror H))
                (set_charcode wc
                   (set_glyph_extents (extents_reset (glyph_extents s)) s)))
      as (s' & E & K).
    exists s'. split.
    + cbn [text_loop]. unfold bind at 1. unfold modify at 1.
      rewrite (bind_ret_eq _ _ _ _ _
                 (render_char_missing L fuel ft_errors face wc offset linescale _
                    Hsize (Hmiss wc (or_introl eq_refl)))).
      change (0 <=? -1) with false. cbv iota.
      unfold bind at 1. unfold ret at 1. exact E.
    + refine (skipped_trans _ _ _ _ K). repeat split.
  - destruct (IH (fun c H => Hmiss c (or_intror H)) s) as (s' & E & K).
    exists s'. split; [exact E|exact K].
Qed.

Lemma for_up_skips (body : Z -> M unit) (n : nat) :
  forall lo,
    (forall t s, lo <= t < lo + Z.of_nat n ->
       exists s', body t s = Ret tt s' /\ skipped s s') ->
    forall s, exists s', for_up n lo body s = Ret tt s' /\ skipped s s'.
Proof.
  induction n as [|n IH]; intros lo Hb s.
  - exists s. split; [reflexivity|apply skipped_refl].
  - destruct (Hb lo s ltac:(lia)) as (s1 & E1 & K1).
    destruct (IH (lo + 1) (fun t s0 Ht => Hb t s0 ltac:(lia)) s1)
      as (s2 & E2 & K2).
    exists s2. split; [|exact (skipped_trans _ _ _ K1 K2)].
    cbn [for_up]. rewrite (bind_ret_eq _ _ _ _ _ E1). exact E2.
Qed.

Lemma genfont_loop_skips (L : libm) (fuel : nat) (ft_errors : list (Z * string))
  (face : FT_Face) (offset linescale : Z) :
  FT_Set_Pixel_Sizes face 4096 (if negb (linescale =? 0) then linescale else 64) = 0 ->
  (forall wc, 32 <= wc <= 126 -> FT_Get_Char_Index face wc = 0) ->
  forall s, exists s',
    genfont_loop L fuel ft_errors face offset linescale s = Ret tt s' /\
    skipped s s'.
Proof.
  intros Hsize Hmiss s. unfold genfont_loop, bind, get.
  destruct (negb (genfont s =? 0)).
  - apply for_up_skips. intros t s0 Ht.
    exists (set_charcode t s0). split; [|repeat split].
    unfold genfont_char.
    rewrite (bind_ret_eq _ _ _ _ _
               (render_char_missing L fuel ft_errors face t offset linescale s0
                  Hsize (Hmiss t ltac:(lia)))).
    reflexivity.
  - exists s. split; [reflexivity|apply skipped_refl].
Qed.

(** X12. When the start-up succeeds and the font has a glyph neither
    for a printable ASCII character nor for a character of the text,
    [main] (source lines 523-565) returns 0 and its whole output is the
    empty ENTITIES section: the opening groups followed at once by
    ENDSEC and EOF.  Bytes of the text that start no character are passed
    over in the same way.  Nothing goes to stderr and [line_extents] stays
    at its reset value. *)
Theorem no_glyph_empty_section (L : libm) (fuel : nat)
  (ft_errors : list (Z * string)) (o : options) (lib : FT_Library) (s : state) :
  let face := the_face lib in
  let linescale := configured_linescale o in
  opt_f o <> None ->
  FT_Init_FreeType lib = 0 -> FT_New_Face lib = 0 ->
  FT_Set_Pixel_Sizes face 0 64 = 0 ->
  FT_Set_Pixel_Sizes face 4096 (if negb (linescale =? 0) then linescale else 64) = 0 ->
  (forall wc, 32 <= wc <= 126 -> FT_Get_Char_Index face wc = 0) ->
  (forall wc, In (Wide wc) (the_text o) -> FT_Get_Char_Index face wc = 0) ->
  exists s',
    main L fuel ft_errors o lib s = Ret 0 s' /\
    out s' = out s ++ group "  0" "SECTION" ++ group "  2" "ENTITIES"
             ++ group "  0" "ENDSEC" ++ group "  0" "EOF" /\
    err s' = err s /\
    line_extents s' = extents_reset (line_extents s).
Proof.
  intros face linescale Hf H1 H2 H3 Hsize Hascii Htext.
  unfold main. destruct (opt_f o) as [font_file|]; [|contradiction].
  cbv zeta. fold face linescale.
  rewrite (bind_check_ok _ _ _ _ _ _ H1), (bind_check_ok _ _ _ _ _ _ H2),
          (bind_check_ok _ _ _ _ _ _ H3).
  rewrite (bind_ret_eq _ _ _ _ _ (printf_eq _ _ s)), preamble_eq.
  unfold bind at 1. unfold modify at 1.
  set (s1 := set_line_extents _ _).
  destruct (genfont_loop_skips L fuel ft_errors face 0 linescale Hsize Hascii s1)
    as (s2 & E2 & K2).
  rewrite (bind_ret_eq _ _ _ _ _ E2).
  destruct (text_loop_skips L fuel ft_errors face linescale (the_text o) 0
              Hsize Htext s2) as (s3 & E3 & K3).
  rewrite (bind_ret_eq _ _ _ _ _ E3).
  rewrite (bind_ret_eq _ _ _ _ _ (printf_eq _ _ s3)), postamble_eq.
  destruct (skipped_trans _ _ _ K2 K3) as (Ko & Ke & Kl & _).
  eexists. split; [reflexivity|].
  cbn [out err line_extents set_out]. rewrite Ko, Ke, Kl. subst s1.
  cbn [out err line_extents set_out set_line_extents].
  rewrite <- !app_assoc. repeat split; reflexivity.
Qed.

Lemma no_glyph_empty_section_witness :
  exists s',
    main sample_libm 4 sample_errors
      (mkOptions None (Some "font.ttf"%string) None None [Invalid; Wide 937])
      (mkLibrary 0 0 empty_font) (configured plain_options) = Ret 0 s' /\
    out s' = group "  0" "SECTION" ++ group "  2" "ENTITIES"
             ++ group "  0" "ENDSEC" ++ group "  0" "EOF".
Proof.
  destruct (no_glyph_empty_section sample_libm 4 sample_errors
              (mkOptions None (Some "font.ttf"%string) None None [Invalid; Wide 937])
              (mkLibrary 0 0 empty_font) (configured plain_options))
    as (s' & E & Ho & _); try reflexivity; [discriminate|].
  exists s'. split; [exact E|exact Ho].
Defined.

(** ** The pen of the text loop *)

Lemma render_char_result (L : libm) (fuel : nat) (ft_errors : list (Z * string))
  (face : FT_Face) (c offset linescale r : Z) (s s1 : state) :
  render_char L fuel ft_errors face c offset linescale s = Ret r s1 ->
  (FT_Get_Char_Index face c = 0 /\ r = -1) \/
  (FT_Get_Char_Index face c <> 0 /\
   r = vx (glyph_advance face (FT_Get_Char_Index face c))).
Proof.
  intros H. unfold render_char in H.
  apply bind_inv in H as ([] & s0 & _ & H).
  apply bind_inv in H as ([] & sa & _ & H). revert H.
  destruct (Z.eqb_spec (FT_Get_Char_Index face c) 0) as [E|E].
  { unfold ret. intros [= <- _]. left. split; [exact E|reflexivity]. }
  intros H.
  apply bind_inv in H as ([] & sb & _ & H).
  apply bind_inv in H as ([] & sc & _ & H).
  apply bind_inv in H as ([] & sd & _ & H).
  apply bind_inv in H as ([] & se & _ & H).
  apply bind_inv in H as ([] & sf & _ & H).
  apply bind_inv in H as (e & sg & _ & H).
  apply bind_inv in H as ([] & sh & _ & H).
  apply bind_inv in H as ([] & si & _ & [= <- _]).
  right. split; [exact E|reflexivity].
Qed.

Lemma text_loop_pen (L : libm) (fuel : nat) (ft_errors : list (Z * string))
  (face : FT_Face) (linescale : Z) (txt : list mbchar) :
  forall offset s off' s',
    text_loop L fuel ft_errors face linescale txt offset s = Ret off' s' ->
    off' = if genfont s =? 0 then offset + pen_travel face txt else offset.
Proof.
  induction txt as [|[wc|] txt IH]; intros offset s off' s' H.
  - injection H as <- _. cbn [pen_travel]. destruct (genfont s =? 0); lia.
  - cbn [text_loop] in H.
    apply bind_inv in H as ([] & s1 & H1 & H). injection H1 as <-.
    apply bind_inv in H as (off & s2 & H2 & H).
    pose proof (render_char_config _ _ _ _ _ _ _ _ _ _ H2) as (_ & Hg & _).
    change (genfont (set_glyph_extents (extents_reset (glyph_extents s)) s))
      with (genfont s) in Hg.
    apply render_char_result in H2.
    apply bind_inv in H as (offset1 & s3 & H3 & H).
    apply IH in H. cbn [pen_travel]. unfold pen_step. cbv zeta.
    destruct (0 <=? off) eqn:Hoff.
    + apply bind_inv in H3 as (s2' & s2'' & [= <- <-] & H3).
      apply bind_inv in H3 as ([] & s4 & [= <-] & [= <- <-]).
      cbn [genfont set_line_extents] in H. rewrite Hg in *.
      destruct H2 as [[E ->]|[E ->]]; [discriminate|].
      apply Z.eqb_neq in E. rewrite E, Hoff.
      destruct (genfont s =? 0); lia.
    + injection H3 as <- <-. rewrite Hg in H.
      destruct H2 as [[E ->]|[E ->]].
      * rewrite E. change (0 =? 0) with true. cbv iota.
        destruct (genfont s =? 0); lia.
      * apply Z.eqb_neq in E. rewrite E, Hoff.
        destruct (genfont s =? 0); lia.
  - cbn [text_loop] in H. apply IH in H. exact H.
Qed.

(** X13. The pen of the text loop (source lines 549-561).  When
    [genfont] is set, as [main] sets it before it reads the options, the
    loop never moves the pen: every character of the text is rendered at
    the offset the loop started from.  With [genfont] clear the pen ends
    at the start offset plus the x advances of the characters drawn, a
    character without a glyph or with a negative advance adding
    nothing. *)
Theorem text_pen_offset (L : libm) (fuel : nat) (ft_errors : list (Z * string))
  (face : FT_Face) (linescale : Z) (txt : list mbchar) (offset off' : Z)
  (s s' : state) :
  text_loop L fuel ft_errors face linescale txt offset s = Ret off' s' ->
  (genfont s <> 0 -> off' = offset) /\
  (genfont s = 0 -> off' = offset + pen_travel face txt) /\
  (forall o, genfont (configured o) = 1).
Proof.
  intros H. apply text_loop_pen in H.
  split; [|split].
  - intros Hg. apply Z.eqb_neq in Hg. now rewrite Hg in H.
  - intros Hg. now rewrite Hg in H.
  - reflexivity.
Qed.

Lemma text_pen_offset_witness :
  (exists s',
     text_loop sample_libm 4 sample_errors (font 0 0) 0 [Wide 65; Wide 66] 0
       (configured plain_options) = Ret 0 s') /\
  (exists s',
     text_loop sample_libm 4 sample_errors (font 0 0) 0
       [Wide 65; Invalid; Wide 67; Wide 66] 0 initial_state = Ret 3000 s').
Proof.
  split.
  - destruct (text_loop sample_libm 4 sample_errors (font 0 0) 0
                [Wide 65; Wide 66] 0 (configured plain_options))
      as [r s'| | |] eqn:E.
    + exists s'.
      destruct (text_pen_offset _ _ _ _ _ _ _ _ _ _ E) as (H & _).
      rewrite H; [reflexivity|discriminate].
    + vm_compute in E. discriminate.
    + vm_compute in E. discriminate.
    + vm_compute in E. discriminate.
  - destruct (text_loop sample_libm 4 sample_errors (font 0 0) 0
                [Wide 65; Invalid; Wide 67; Wide 66] 0 initial_state)
      as [r s'| | |] eqn:E.
    + exists s'.
      destruct (text_pen_offset _ _ _ _ _ _ _ _ _ _ E) as (_ & H & _).
      rewrite H; reflexivity.
    + vm_compute in E. discriminate.
    + vm_compute in E. discriminate.
    + vm_compute in E. discriminate.
Defined.

(** ** The hatch lines of the bitmap tracer *)

Lemma store_lookup {A} (n : nat) (a : A) (l l' : list A) :
  store n a l = Some l' ->
  forall k, nth_error l' k = if Nat.eqb k n then Some a else nth_error l k.
Proof.
  revert n l'. induction l as [|b l IH]; intros n l' H;
    [destruct n; discriminate|].
  destruct n as [|n]; simpl in H.
  - injection H as <-. intros [|k]; reflexivity.
  - destruct (store n a l) as [l1|] eqn:E; [|discriminate].
    simpl in H. injection H as <-. intros [|k]; [reflexivity|]. simpl. now apply IH.
Qed.

Lemma push_span_inv (Y : Z) (w : FT_Vector) (loc loc' : tracer) (s s' : state) :
  row_inv Y loc -> vy w = Y ->
  push_span w loc s = Ret loc' s' ->
  row_inv Y loc' /\ s' = s.
Proof.
  intros [Hv Hc] Hw. unfold push_span.
  destruct (Z.ltb_spec (spans loc) 0) as [|Hs]; [discriminate|].
  destruct (store _ _ _) as [vbuf'|] eqn:E; [|discriminate].
  intros [= <- <-]. split; [|reflexivity]. split; cbn [spans vbuf v].
  - intros k Hk. rewrite (store_lookup _ _ _ _ E).
    destruct (Nat.eqb_spec (Z.to_nat k) (Z.to_nat (spans loc))) as [Q|Q].
    + exists (vx w). destruct w as [wx wy]. simpl in Hw. now subst.
    + apply Hv. lia.
  - exact Hc.
Qed.

Lemma trace_bit_inv (x y linescale j i byte bits : Z) (loc loc' : tracer)
  (s s' : state) :
  row_inv (row_y y linescale j) loc ->
  trace_bit x y linescale j i byte bits loc s = Ret loc' s' ->
  row_inv (row_y y linescale j) loc'.
Proof.
  intros Hi H. unfold trace_bit in H.
  apply bind_inv in H as (s0 & s1 & [= <- <-] & H).
  apply bind_inv in H as ([] & s1 & _ & H).
  apply bind_inv in H as (loc1 & s2 & H1 & H).
  apply bind_inv in H as (loc2 & s3 & H2 & H).
  apply bind_inv in H as ([] & s4 & _ & [= <- _]).
  fold (row_y y linescale j) in H1.
  assert (I1 : row_inv (row_y y linescale j) loc1 /\
               exists w, v loc1 = Some w).
  { destruct ((oldbit s =? 0) && negb (Z.land byte (Z.shiftr 128 bits) =? 0)).
    - cbn [vx vy] in H1.
      assert (K : row_inv (row_y y linescale j) loc1).
      { match type of H1 with
        | push_span ?w ?l _ = _ =>
            assert (K0 : row_inv (row_y y linescale j) l)
              by (split; [exact (proj1 Hi)|intros w0 [= <-]; reflexivity]);
            exact (proj1 (push_span_inv (row_y y linescale j) w l _ _ _
                            K0 eq_refl H1))
        end. }
      split; [exact K|].
      unfold push_span in H1. cbn [spans vbuf v oldv] in H1.
      destruct (spans loc <? 0); [discriminate|].
      destruct (store _ _ _); [|discriminate].
      injection H1 as <- _. eexists; reflexivity.
    - injection H1 as <- _. split; [|eexists; reflexivity].
      split; [exact (proj1 Hi)|intros w0 [= <-]; reflexivity]. }
  destruct I1 as [I1 [w Hw]].
  destruct (negb (oldbit s =? 0) && (Z.land byte (Z.shiftr 128 bits) =? 0)).
  - rewrite Hw in H2. cbn [oldv vbuf spans v vx vy] in H2.
    pose proof (proj2 I1 w Hw) as Hy.
    assert (I2 : row_inv (row_y y linescale j)
                   (mkTracer (oldv loc1) (vbuf loc1) (spans loc1)
                      (Some (mkV (vx w - 8) (vy w))))).
    { split; [exact (proj1 I1)|intros w0 [= <-]; exact Hy]. }
    destruct (vx (oldv loc1) <? vx w - 8).
    + exact (proj1 (push_span_inv _ (mkV (vx w - 8) (vy w)) _ _ _ _ I2 Hy H2)).
    + injection H2 as <- _. split; cbn [spans vbuf v].
      * intros k Hk. apply (proj1 I1). lia.
      * intros w0 [= <-]. exact Hy.
  - injection H2 as <- _. exact I1.
Qed.

Lemma for_acc_inv {A} (I : A -> Prop) (body : Z -> A -> M A) :
  (forall t a s a' s', I a -> body t a s = Ret a' s' -> I a') ->
  forall n t a s a' s',
    I a -> for_acc n t a body s = Ret a' s' -> I a'.
Proof.
  intros Hb. induction n as [|n IH]; intros t a s a' s' Ha H.
  - injection H as <- _. exact Ha.
  - cbn [for_acc] in H. apply bind_inv in H as (a1 & s1 & H1 & H).
    exact (IH _ _ _ _ _ (Hb _ _ _ _ _ Ha H1) H).
Qed.

Lemma trace_row_bits_inv (b : FT_Bitmap) (x y linescale j : Z)
  (loc loc' : tracer) (s s' : state) :
  row_inv (row_y y linescale j) loc ->
  trace_row_bits b x y linescale j loc s = Ret loc' s' ->
  row_inv (row_y y linescale j) loc'.
Proof.
  intros Hi H. unfold trace_row_bits in H.
  refine (for_acc_inv (row_inv (row_y y linescale j)) _ _ _ _ _ _ _ _ Hi H).
  intros i l s0 l' s0' Hl H0.
  apply bind_inv in H0 as (byte & s1 & _ & H0).
  refine (for_acc_inv (row_inv (row_y y linescale j)) _ _ _ _ _ _ _ _ Hl H0).
  intros bits l1 s2 l2 s2' Hl1 H2. exact (trace_bit_inv _ _ _ _ _ _ _ _ _ _ _ Hl1 H2).
Qed.

Lemma hatched_refl (y linescale lo hi : Z) (s : state) :
  hatched y linescale lo hi s s.
Proof.
  split; [|repeat split]. exists []. split; [simpl; now rewrite app_nil_r|constructor].
Qed.

Lemma hatched_trans (y linescale lo hi : Z) (s1 s2 s3 : state) :
  hatched y linescale lo hi s1 s2 -> hatched y linescale lo hi s2 s3 ->
  hatched y linescale lo hi s1 s3.
Proof.
  intros ((h1 & O1 & F1) & G1 & C1 & L1) ((h2 & O2 & F2) & G2 & C2 & L2).
  split; [|repeat split; congruence].
  exists (h1 ++ h2). split; [|now apply Forall_app].
  rewrite O2, O1, G1, C1, L1, flat_map_app, app_assoc. reflexivity.
Qed.

Lemma hatched_wider (y linescale lo hi lo' hi' : Z) (s s' : state) :
  lo' <= lo -> hi <= hi' ->
  hatched y linescale lo hi s s' -> hatched y linescale lo' hi' s s'.
Proof.
  intros Hlo Hhi ((hs & O & F) & H). split; [|exact H].
  exists hs. split; [exact O|].
  revert F. apply Forall_impl. intros h Hh. lia.
Qed.

Lemma hatched_frame (y linescale lo hi : Z) (s s' : state) :
  out s' = out s -> genfont s' = genfont s -> charcode s' = charcode s ->
  layer s' = layer s -> hatched y linescale lo hi s s'.
Proof.
  intros Ho Hg Hc Hl. split; [|repeat split; assumption].
  exists []. split; [simpl; now rewrite app_nil_r|constructor].
Qed.

Lemma span_at_inv (loc : tracer) (k : Z) (w : FT_Vector) (s s' : state) :
  span_at loc k s = Ret w s' ->
  s' = s /\ 0 <= k /\ nth_error (vbuf loc) (Z.to_nat k) = Some (Some w).
Proof.
  unfold span_at. destruct (Z.ltb_spec k 0) as [|Hk]; [discriminate|].
  destruct (nth_error _ _) as [[w0|]|]; try discriminate.
  intros [= <- <-]. repeat split. exact Hk.
Qed.

Lemma stroke_hatched (y linescale j : Z) (loc : tracer) (n ka kc : Z)
  (s s' : state) :
  (forall k, 0 <= k < n ->
     exists xx, nth_error (vbuf loc) (Z.to_nat k)
                = Some (Some (mkV xx (row_y y linescale j)))) ->
  0 <= ka < n -> 0 <= kc < n ->
  (a <- span_at loc ka ;; my_move_to a ;;
   c <- span_at loc kc ;; my_line_to c ;; ret tt) s = Ret tt s' ->
  hatched y linescale j (j + 1) s s'.
Proof.
  intros Hv Ha Hc H.
  apply bind_inv in H as (a & s1 & H1 & H).
  apply span_at_inv in H1 as (-> & _ & Ea).
  apply bind_inv in H as (r1 & s2 & H2 & H).
  rewrite my_move_to_eq in H2. injection H2 as _ <-.
  apply bind_inv in H as (c & s3 & H3 & H).
  apply span_at_inv in H3 as (-> & _ & Ec).
  apply bind_inv in H as (r2 & s4 & H4 & H).
  rewrite my_line_to_eq in H4. injection H4 as _ <-.
  injection H as <-.
  destruct (Hv ka Ha) as (xa & Xa). rewrite Xa in Ea. injection Ea as <-.
  destruct (Hv kc Hc) as (xc & Xc). rewrite Xc in Ec. injection Ec as <-.
  split; [|repeat split].
  exists [(j, xa, xc)]. split; [|repeat constructor; simpl; lia].
  destruct s as [c0 d0 l0 cc g0 lp ge le ad ob od o e nb].
  unfold hatch, polyline_start, plain_vertex, group.
  cbn [flat_map out set_out set_glyph_extents set_last_point genfont charcode
       layer glyph_extents last_point csteps dsteps line_extents advance
       oldbit odd err biarc_calls].
  rewrite app_nil_r. norm_text. reflexivity.
Qed.

Lemma for_up_hatched (y linescale lo hi : Z) (body : Z -> M unit) (n : nat) :
  forall t,
    (forall i s s', t <= i < t + Z.of_nat n -> body i s = Ret tt s' ->
       hatched y linescale lo hi s s') ->
    forall s s', for_up n t body s = Ret tt s' -> hatched y linescale lo hi s s'.
Proof.
  induction n as [|n IH]; intros t Hb s s' H.
  - injection H as <-. apply hatched_refl.
  - cbn [for_up] in H. apply bind_inv in H as ([] & s1 & H1 & H).
    refine (hatched_trans _ _ _ _ _ _ _ (Hb t _ _ ltac:(lia) H1) _).
    apply (IH (t + 1)); [|exact H]. intros i s0 s0' Hi. apply Hb. lia.
Qed.

Lemma for_down_hatched (y linescale lo hi : Z) (body : Z -> M unit) (n : nat) :
  forall t,
    (forall i s s', t - Z.of_nat n < i <= t -> body i s = Ret tt s' ->
       hatched y linescale lo hi s s') ->
    forall s s', for_down n t body s = Ret tt s' -> hatched y linescale lo hi s s'.
Proof.
  induction n as [|n IH]; intros t Hb s s' H.
  - injection H as <-. apply hatched_refl.
  - cbn [for_down] in H. apply bind_inv in H as ([] & s1 & H1 & H).
    refine (hatched_trans _ _ _ _ _ _ _ (Hb t _ _ ltac:(lia) H1) _).
    apply (IH (t - 1)); [|exact H]. intros i s0 s0' Hi. apply Hb. lia.
Qed.

Lemma trace_row_hatched (b : FT_Bitmap) (x y linescale j : Z)
  (loc loc' : tracer) (s s' : state) :
  trace_row b x y linescale j loc s = Ret loc' s' ->
  hatched y linescale j (j + 1) s s'.
Proof.
  intros H. unfold trace_row in H.
  apply bind_inv in H as ([] & s1 & [= <-] & H).
  apply bind_inv in H as (loc1 & s2 & H1 & H).
  assert (I1 : row_inv (row_y y linescale j) loc1).
  { refine (trace_row_bits_inv _ _ _ _ _ _ _ _ _ _ H1).
    split; cbn [spans v]; [intros k Hk; lia|discriminate]. }
  assert (F1 : hatched y linescale j (j + 1) s s2).
  { apply hatched_frame.
    - now rewrite (keeps_trace_row_bits out _ _ _ _ _ _ ltac:(reflexivity) _ _ _ H1).
    - now rewrite (keeps_trace_row_bits genfont _ _ _ _ _ _ ltac:(reflexivity) _ _ _ H1).
    - now rewrite (keeps_trace_row_bits charcode _ _ _ _ _ _ ltac:(reflexivity) _ _ _ H1).
    - now rewrite (keeps_trace_row_bits layer _ _ _ _ _ _ ltac:(reflexivity) _ _ _ H1). }
  apply bind_inv in H as (s2' & s2'' & [= <- <-] & H).
  apply bind_inv in H as (loc2 & s3 & H2 & H).
  assert (I2 : row_inv (row_y y linescale j) loc2 /\ s3 = s2).
  { destruct (negb (oldbit s2 =? 0)).
    - destruct (v loc1) as [w|] eqn:Ev; [|discriminate].
      refine (push_span_inv _ (mkV (vx w - 8) (vy w)) _ _ _ _ _ (proj2 I1 w Ev) H2).
      split; [exact (proj1 I1)|]. intros w0 [= <-]. exact (proj2 I1 w Ev).
    - injection H2 as <- <-. split; [exact I1|reflexivity]. }
  destruct I2 as [I2 ->].
  apply bind_inv in H as ([] & s4 & [= <-] & H).
  apply bind_inv in H as (s4' & s4'' & [= <- <-] & H).
  apply bind_inv in H as ([] & s5 & H5 & [= _ <-]).
  refine (hatched_trans _ _ _ _ _ _ _ F1 _).
  match type of H5 with
  | _ ?st = _ =>
      refine (hatched_trans _ _ _ _ _ st _
                (hatched_frame _ _ _ _ s2 st eq_refl eq_refl eq_refl eq_refl) _)
  end.
  cbn [spans] in H5.
  assert (Q : forall i, 0 <= i < Z.quot (spans loc2) 2 ->
                0 <= i * 2 < spans loc2 /\ 0 <= 1 + i * 2 < spans loc2).
  { intros i Hi.
    assert (0 <= spans loc2).
    { destruct (Z.le_gt_cases 0 (spans loc2)) as [|N]; [assumption|].
      pose proof (Z.quot_opp_l (- spans loc2) 2 ltac:(lia)) as Qo.
      rewrite Z.opp_involutive in Qo.
      pose proof (Z.quot_pos (- spans loc2) 2 ltac:(lia) ltac:(lia)). lia. }
    pose proof (Z.quot_rem' (spans loc2) 2) as E.
    pose proof (Z.rem_bound_pos (spans loc2) 2 ltac:(lia) ltac:(lia)). lia. }
  destruct (negb _).
  - refine (for_down_hatched _ _ _ _ _ _ _ _ _ _ H5).
    intros i s0 s0' Hi Hb.
    destruct (Q i ltac:(lia)) as [Qa Qc].
    exact (stroke_hatched y linescale j _ (spans loc2) _ _ _ _ (proj1 I2) Qc Qa Hb).
  - refine (for_up_hatched _ _ _ _ _ _ _ _ _ _ H5).
    intros i s0 s0' Hi Hb.
    destruct (Q i ltac:(lia)) as [Qa Qc].
    exact (stroke_hatched y linescale j _ (spans loc2) _ _ _ _ (proj1 I2) Qa Qc Hb).
Qed.

Lemma trace_rows_hatched (b : FT_Bitmap) (x y linescale : Z) (n : nat) :
  forall t loc s loc' s',
    for_acc n t loc (trace_row b x y linescale) s = Ret loc' s' ->
    hatched y linescale t (t + Z.of_nat n) s s'.
Proof.
  induction n as [|n IH]; intros t loc s loc' s' H.
  - injection H as _ <-. apply hatched_refl.
  - cbn [for_acc] in H. apply bind_inv in H as (loc1 & s1 & H1 & H).
    apply trace_row_hatched in H1. apply IH in H.
    refine (hatched_trans _ _ _ _ _ s1 _ _ _).
    + refine (hatched_wider _ _ _ _ _ _ _ _ _ _ H1); lia.
    + refine (hatched_wider _ _ _ _ _ _ _ _ _ _ H); lia.
Qed.

(** X14. [my_draw_bitmap] (source lines 341-391) where no [int]
    expression of it overflows; beyond that the arithmetic of the
    program is undefined, and this development, which computes in
    mathematical integers, says nothing of it.  All that a call that
    returns has added to stdout is a sequence of hatch lines: polylines
    of exactly two vertices, a start (with the layer tag of the glyph)
    and one more vertex, both at the height computed for one of the
    rows of the bitmap, [(y-j)*64*64/linescale - 64*32/linescale] with
    [0 <= j < rows], which is a value of the type [int].  The tracer
    never prints a third vertex, a bulge or a vertex at another
    height. *)
Theorem bitmap_hatch_lines (b : FT_Bitmap) (x y linescale : Z) (s s' : state) :
  tracer_ints b x y linescale ->
  my_draw_bitmap b x y linescale s = Ret tt s' ->
  exists hs : list (Z * Z * Z),
    out s' = out s ++
      flat_map (hatch (layer_tag (genfont s) (charcode s) (layer s)) y linescale) hs /\
    Forall (fun h => 0 <= fst (fst h) < rows b /\
                     is_int (row_y y linescale (fst (fst h)))) hs.
Proof.
  intros Hi H. unfold my_draw_bitmap in H.
  apply bind_inv in H as (loc' & s1 & H1 & [= <-]).
  apply trace_rows_hatched in H1. destruct H1 as ((hs & Ho & F) & _).
  exists hs. split; [exact Ho|].
  revert F. apply Forall_impl. intros h Hh.
  assert (Hj : 0 <= fst (fst h) < rows b) by lia.
  split; [exact Hj|].
  destruct Hi as (_ & _ & _ & _ & _ & Hrows).
  destruct (Hrows _ Hj) as (_ & _ & _ & _ & Hy & _). exact Hy.
Qed.

(** The bitmap of one row of four bytes, drawn from row 3 with the
    scale 64: every [int] expression stays small. *)
Lemma bitmap_hatch_lines_witness :
  exists s' hs,
    my_draw_bitmap bar 0 3 64 (configured plain_options) = Ret tt s' /\
    out s' = flat_map (hatch (layer_tag 1 0 None) 3 64) hs /\
    Forall (fun h => 0 <= fst (fst h) < 1 /\
                     is_int (row_y 3 64 (fst (fst h)))) hs.
Proof.
  assert (Hi : tracer_ints bar 0 3 64).
  { unfold tracer_ints, is_int, Num.INT_MIN, Num.INT_MAX. simpl.
    do 5 (split; [lia|]).
    intros j Hj. assert (j = 0) as -> by lia. simpl.
    change (Z.quot 12288 64) with 192.
    do 5 (split; [lia|]).
    intros i bits Hb Hbits. lia. }
  destruct (my_draw_bitmap bar 0 3 64 (configured plain_options))
    as [[] s'| | |] eqn:E.
  - destruct (bitmap_hatch_lines _ _ _ _ _ _ Hi E) as (hs & Ho & F).
    exists s', hs. split; [reflexivity|]. split; [exact Ho|exact F].
  - vm_compute in E. discriminate.
  - vm_compute in E. discriminate.
  - vm_compute in E. discriminate.
Defined.

(** ** The group structure of the output *)

Lemma lines_of_line (l : list ochar) :
  newline_free l = true ->
  forall cur rest,
    lines_of cur (l ++ Ch (ascii_of_nat 10) :: rest)
    = (rev cur ++ l) :: lines_of [] rest.
Proof.
  induction l as [|c l IH]; intros Hl cur rest.
  - cbn [app lines_of]. rewrite Ascii.eqb_refl, app_nil_r. reflexivity.
  - cbn [newline_free forallb] in Hl. apply andb_prop in Hl as [Hc Hl].
    cbn [app lines_of]. destruct c as [a|d].
    + apply negb_true_iff in Hc. rewrite Hc, (IH Hl). cbn [rev].
      now rewrite <- app_assoc.
    + rewrite (IH Hl). cbn [rev]. now rewrite <- app_assoc.
Qed.

Lemma newline_free_app (a b : list ochar) :
  newline_free (a ++ b) = newline_free a && newline_free b.
Proof. apply forallb_app. Qed.

Lemma newline_free_code (c : string) :
  In c dxf_codes -> newline_free (text c) = true.
Proof.
  unfold dxf_codes. cbn [In].
  intros H. repeat (destruct H as [<-|H]; [reflexivity|]). destruct H.
Qed.

Lemma lines_of_groups (ps : list (string * list ochar)) :
  Forall well_formed ps ->
  lines_of [] (dxf_groups ps) = flat_map (fun p => [text (fst p); snd p]) ps.
Proof.
  induction 1 as [|[c v] ps [Hc Hv] _ IH]; [reflexivity|].
  cbn [fst snd] in Hc, Hv.
  change (dxf_groups ((c, v) :: ps)) with (dxf_group (c, v) ++ dxf_groups ps).
  unfold dxf_group at 1. cbn [fst snd flat_map].
  rewrite <- app_assoc. cbn [app].
  rewrite (lines_of_line _ (newline_free_code c Hc)). cbn [rev app].
  rewrite <- app_assoc. cbn [app].
  rewrite (lines_of_line _ Hv). cbn [rev app]. now rewrite IH.
Qed.

Lemma group_codes_groups (ps : list (string * list ochar)) :
  Forall well_formed ps ->
  group_codes (dxf_groups ps) = map (fun p => unblank (text (fst p))) ps.
Proof.
  intros H. unfold group_codes. rewrite (lines_of_groups ps H). clear H.
  induction ps as [|p ps IH]; [reflexivity|].
  cbn [flat_map app every_other map]. now rewrite IH.
Qed.

(** The digits of a number hold no line feed. *)
Lemma newline_free_uint (d : Decimal.uint) :
  newline_free (text (NilEmpty.string_of_uint d)) = true.
Proof. induction d; cbn; try reflexivity; exact IHd. Qed.

Lemma newline_free_nat (d : Decimal.uint) :
  newline_free (text (NilZero.string_of_uint d)) = true.
Proof.
  unfold NilZero.string_of_uint.
  destruct d; try reflexivity;
    match goal with
    | |- context [NilEmpty.string_of_uint ?u] => apply (newline_free_uint u)
    end.
Qed.

Lemma newline_free_decimal (z : Z) : newline_free (text (decimal z)) = true.
Proof.
  unfold decimal, NilZero.string_of_int.
  destruct (Z.to_int z) as [d|d].
  - apply newline_free_nat.
  - rewrite text_cons. cbn [newline_free forallb].
    exact (newline_free_nat d).
Qed.

Lemma newline_free_coordinate (z : Z) :
  newline_free (text (decimal z ++ ".000")) = true.
Proof. now rewrite text_app, newline_free_app, newline_free_decimal. Qed.

Lemma group_eq (c v : string) : group c v = dxf_group (c, text v).
Proof.
  unfold group, dxf_group, nl. cbn [fst snd].
  rewrite !text_app. reflexivity.
Qed.

Lemma dxf_groups_app (ps qs : list (string * list ochar)) :
  dxf_groups (ps ++ qs) = dxf_groups ps ++ dxf_groups qs.
Proof. apply flat_map_app. Qed.

Lemma dxf_groups_one (c v : string) : group c v = dxf_groups [(c, text v)].
Proof. rewrite group_eq. cbn [dxf_groups flat_map]. now rewrite app_nil_r. Qed.

(** [groups o]: the stretch [o] is a sequence of well-formed groups. *)
Lemma grouped_intro (s s' : state) (ps : list (string * list ochar)) :
  out s' = out s ++ dxf_groups ps -> Forall well_formed ps ->
  genfont s' = genfont s -> layer s' = layer s -> grouped s s'.
Proof. intros Ho F Hg Hl. split; [now exists ps|now split]. Qed.

Lemma grouped_refl (s : state) : grouped s s.
Proof.
  apply (grouped_intro s s []); try reflexivity; [|constructor].
  cbn. now rewrite app_nil_r.
Qed.

Lemma grouped_trans (s1 s2 s3 : state) :
  grouped s1 s2 -> grouped s2 s3 -> grouped s1 s3.
Proof.
  intros ((p1 & O1 & F1) & G1 & L1) ((p2 & O2 & F2) & G2 & L2).
  apply (grouped_intro s1 s3 (p1 ++ p2)); try congruence.
  - now rewrite O2, O1, dxf_groups_app, app_assoc.
  - now apply Forall_app.
Qed.

Lemma grouped_frame (s s' : state) :
  out s' = out s -> genfont s' = genfont s -> layer s' = layer s ->
  grouped s s'.
Proof.
  intros Ho Hg Hl. apply (grouped_intro s s' []); try assumption; [|constructor].
  cbn. now rewrite app_nil_r.
Qed.

(** The records of the program as sequences of groups. *)
Ltac well_formed_groups :=
  repeat (apply Forall_cons; [split; cbn [fst snd]|]); try apply Forall_nil;
  first [cbn; tauto | reflexivity | apply newline_free_coordinate
        | apply newline_free_decimal].

Lemma polyline_start_groups (to : FT_Vector) :
  exists ps, polyline_start to = dxf_groups ps /\ Forall well_formed ps.
Proof.
  exists [("  0"%string, text "LWPOLYLINE");
          ("  10"%string, text (decimal (vx to) ++ ".000"));
          (" 20"%string, text (decimal (vy to) ++ ".000"))].
  split.
  - unfold polyline_start. rewrite !group_eq. cbn [dxf_groups flat_map].
    now rewrite app_nil_r.
  - well_formed_groups.
Qed.

Lemma plain_vertex_groups (to : FT_Vector) :
  exists ps, plain_vertex to = dxf_groups ps /\ Forall well_formed ps.
Proof.
  exists [("  10"%string, text (decimal (vx to) ++ ".000"));
          (" 20"%string, text (decimal (vy to) ++ ".000"))].
  split.
  - unfold plain_vertex. rewrite !group_eq. cbn [dxf_groups flat_map].
    now rewrite app_nil_r.
  - well_formed_groups.
Qed.

Lemma printable_not_newline (c : Z) :
  32 <= c <= 126 -> Ascii.eqb (ascii_of_N (Z.to_N c)) (ascii_of_nat 10) = false.
Proof.
  intros Hc. apply Ascii.eqb_neq. intros E.
  apply (f_equal N_of_ascii) in E.
  rewrite N_ascii_embedding in E by lia.
  change (N_of_ascii (ascii_of_nat 10)) with 10%N in E. lia.
Qed.

Lemma layer_tag_groups (g c : Z) (l : option string) :
  g <> 0 ->
  exists ps, layer_tag g c l = dxf_groups ps /\ Forall well_formed ps.
Proof.
  intros Hg. unfold layer_tag.
  destruct (Z.eqb_spec g 0) as [|_]; [contradiction|].
  destruct ((32 <=? c) && (c <=? 126)) eqn:Hc.
  - eexists [(_, _)]. split; [apply dxf_groups_one|].
    apply Forall_cons; [split|apply Forall_nil]; [cbn; tauto|].
    cbn [snd text newline_free forallb].
    rewrite printable_not_newline; [reflexivity|lia].
  - eexists [(_, _)]. split; [apply dxf_groups_one|].
    apply Forall_cons; [split|apply Forall_nil]; [cbn; tauto|]. cbn [snd].
    rewrite text_app, newline_free_app, newline_free_decimal. reflexivity.
Qed.

Lemma groups_app (a b : list ochar) :
  (exists ps, a = dxf_groups ps /\ Forall well_formed ps) ->
  (exists ps, b = dxf_groups ps /\ Forall well_formed ps) ->
  exists ps, a ++ b = dxf_groups ps /\ Forall well_formed ps.
Proof.
  intros (p1 & -> & F1) (p2 & -> & F2). exists (p1 ++ p2).
  split; [now rewrite dxf_groups_app|now apply Forall_app].
Qed.

Lemma groups_nil : exists ps, [] = dxf_groups ps /\ Forall well_formed ps.
Proof. exists []. split; [reflexivity|constructor]. Qed.

Lemma straight_records_groups (tag : list ochar) (walk : list segment) :
  (exists ps, tag = dxf_groups ps /\ Forall well_formed ps) ->
  forallb is_straight walk = true ->
  exists ps, flat_map (straight_record tag) walk = dxf_groups ps /\
             Forall well_formed ps.
Proof.
  intros Ht. induction walk as [|seg walk IH]; intros Hs; [apply groups_nil|].
  cbn [forallb] in Hs. apply andb_prop in Hs as [Hseg Hw].
  cbn [flat_map]. apply groups_app; [|exact (IH Hw)].
  destruct seg as [to|to| |]; try discriminate; cbn [straight_record].
  - apply groups_app; [apply polyline_start_groups|exact Ht].
  - apply plain_vertex_groups.
Qed.

Lemma hatches_groups (tag : list ochar) (y linescale : Z)
  (hs : list (Z * Z * Z)) :
  (exists ps, tag = dxf_groups ps /\ Forall well_formed ps) ->
  exists ps, flat_map (hatch tag y linescale) hs = dxf_groups ps /\
             Forall well_formed ps.
Proof.
  intros Ht. induction hs as [|[[j x1] x2] hs IH]; [apply groups_nil|].
  cbn [flat_map hatch]. apply groups_app; [|exact IH].
  apply groups_app; [apply polyline_start_groups|].
  apply groups_app; [exact Ht|apply plain_vertex_groups].
Qed.

Lemma dimension_record_groups (flag name code : string) (value : Z) :
  In code dxf_codes -> newline_free (text flag) = true ->
  newline_free (text name) = true ->
  exists ps, dimension_record flag name code value = dxf_groups ps /\
             Forall well_formed ps.
Proof.
  intros Hc Hf Hn.
  exists [(" 0"%string, text "DIMENSION"); (" 70"%string, text flag);
          (" 1"%string, text name); (code, text (decimal value))].
  split.
  - unfold dimension_record. rewrite !group_eq. cbn [dxf_groups flat_map].
    now rewrite app_nil_r.
  - repeat (apply Forall_cons; [split; cbn [fst snd]|]); try apply Forall_nil;
      try (cbn; tauto); try assumption; try reflexivity.
    apply newline_free_decimal.
Qed.

Lemma glyph_dimensions_groups (e : extents) (adv : FT_Vector) (tag : list ochar) :
  (exists ps, tag = dxf_groups ps /\ Forall well_formed ps) ->
  exists ps, glyph_dimensions e adv tag = dxf_groups ps /\
             Forall well_formed ps.
Proof.
  intros Ht. unfold glyph_dimensions.
  repeat (apply groups_app;
          [apply dimension_record_groups; [cbn; tauto|reflexivity|reflexivity]|];
          apply groups_app; [exact Ht|]).
  apply groups_app; [|exact Ht].
  apply dimension_record_groups; [cbn; tauto|reflexivity|reflexivity].
Qed.

(** The program, piece by piece. *)
Lemma Ret_inj {A} (a a' : A) (s s' : state) :
  Ret a s = Ret a' s' -> a = a' /\ s = s'.
Proof. intros [= -> ->]. split; reflexivity. Qed.

Lemma grouped_genfont (s s' : state) :
  grouped s s' -> genfont s <> 0 -> genfont s' <> 0.
Proof. intros (_ & Hg & _) H. now rewrite Hg. Qed.

Lemma grouped_output (s s' : state) (o : list ochar) :
  out s' = out s ++ o -> genfont s' = genfont s -> layer s' = layer s ->
  (exists ps, o = dxf_groups ps /\ Forall well_formed ps) ->
  grouped s s'.
Proof.
  intros Ho Hg Hl (ps & -> & F). exact (grouped_intro s s' ps Ho F Hg Hl).
Qed.

Lemma my_draw_bitmap_grouped (b : FT_Bitmap) (x y linescale : Z) (s s' : state) :
  genfont s <> 0 ->
  my_draw_bitmap b x y linescale s = Ret tt s' -> grouped s s'.
Proof.
  intros Hg H. unfold my_draw_bitmap in H.
  apply bind_inv in H as (loc' & s1 & H1 & [= <-]).
  apply trace_rows_hatched in H1.
  destruct H1 as ((hs & Ho & _) & G & _ & Ly).
  apply (grouped_output s s1 _ Ho G Ly).
  apply hatches_groups, layer_tag_groups, Hg.
Qed.

Lemma out_after_walk (e : extents) (p : FT_Vector) (o : list ochar) (s : state) :
  let s' := set_glyph_extents e (set_last_point p (set_out o s)) in
  out s' = o /\ genfont s' = genfont s /\ layer s' = layer s.
Proof. destruct s. cbn. repeat split. Qed.

Lemma decompose_grouped (L : libm) (fuel : nat) (walk : list segment)
  (final e : Z) (s s' : state) :
  genfont s <> 0 -> forallb is_straight walk = true ->
  FT_Outline_Decompose L fuel walk final s = Ret e s' -> grouped s s'.
Proof.
  intros Hg Hs H. rewrite (decompose_straight L fuel walk final Hs s) in H.
  injection H as _ <-.
  match goal with
  | |- grouped s (set_glyph_extents ?e (set_last_point ?p (set_out ?o s))) =>
      destruct (out_after_walk e p o s) as (Ho & G & Ly)
  end.
  cbv zeta in Ho, G, Ly.
  apply (grouped_output _ _ _ Ho G Ly).
  apply straight_records_groups; [apply layer_tag_groups, Hg|exact Hs].
Qed.

Lemma check_grouped (ft_errors : list (Z * string)) (where_ : string)
  (error line_ : Z) (s s' : state) :
  check ft_errors where_ error line_ s = Ret tt s' -> s' = s.
Proof. intros H. now apply check_returns in H. Qed.

Lemma render_char_grouped (L : libm) (fuel : nat) (ft_errors : list (Z * string))
  (face : FT_Face) (c offset linescale r : Z) (s s' : state) :
  straight_face face -> genfont s <> 0 ->
  render_char L fuel ft_errors face c offset linescale s = Ret r s' ->
  grouped s s'.
Proof.
  intros Hf Hg H. unfold render_char in H.
  apply bind_inv in H as ([] & s0 & [= <-] & H).
  refine (grouped_trans _ (set_charcode c s) _
            (grouped_frame _ _ eq_refl eq_refl eq_refl) _).
  assert (Hg0 : genfont (set_charcode c s) <> 0) by exact Hg.
  revert H Hg0. generalize (set_charcode c s). clear s Hg. intros s H Hg.
  apply bind_inv in H as ([] & sa & Ha & H). apply check_grouped in Ha. subst sa.
  revert H. destruct (FT_Get_Char_Index face c =? 0).
  { intros [= _ <-]. apply grouped_refl. }
  intros H.
  apply bind_inv in H as ([] & sb & Hb & H). apply check_grouped in Hb. subst sb.
  apply bind_inv in H as ([] & sc & Hc & H). apply check_grouped in Hc. subst sc.
  apply bind_inv in H as ([] & sd & Hd & H).
  assert (Gd : grouped s sd).
  { destruct (0 <? linescale).
    - exact (my_draw_bitmap_grouped _ _ _ _ _ _ Hg Hd).
    - injection Hd as <-. apply grouped_refl. }
  apply bind_inv in H as ([] & se & He & H). apply check_grouped in He. subst se.
  apply bind_inv in H as ([] & sf & Hf' & H). apply check_grouped in Hf'. subst sf.
  apply bind_inv in H as (e & sg & Hw & H).
  apply (decompose_grouped _ _ _ _ _ _ _ (grouped_genfont _ _ Gd Hg) (Hf _ _)) in Hw.
  apply bind_inv in H as ([] & sh & Hh & H). apply check_grouped in Hh. subst sh.
  apply bind_inv in H as ([] & si & [= <-] & [= _ <-]).
  refine (grouped_trans _ _ _ Gd (grouped_trans _ _ _ Hw _)).
  apply grouped_frame; reflexivity.
Qed.

Lemma dimension_grouped (fmt flag name code : string) (value : Z) (s s' : state) :
  format fmt [AInt value] = dimension_record flag name code value ->
  In code dxf_codes -> newline_free (text flag) = true ->
  newline_free (text name) = true -> genfont s <> 0 ->
  dimension fmt value s = Ret tt s' -> grouped s s'.
Proof.
  intros Hfmt Hc Hfl Hn Hg H.
  rewrite (dimension_record_eq fmt flag name code value s Hfmt) in H.
  apply Ret_inj in H as [_ <-].
  eapply grouped_output; [reflexivity|reflexivity|reflexivity|].
  apply groups_app; [now apply dimension_record_groups|].
  apply layer_tag_groups, Hg.
Qed.

Lemma genfont_char_grouped (L : libm) (fuel : nat) (ft_errors : list (Z * string))
  (face : FT_Face) (offset linescale wc : Z) (s s' : state) :
  straight_face face -> genfont s <> 0 ->
  genfont_char L fuel ft_errors face offset linescale wc s = Ret tt s' ->
  grouped s s'.
Proof.
  intros Hf Hg H. unfold genfont_char in H.
  apply bind_inv in H as (r & s1 & H1 & H).
  apply (render_char_grouped _ _ _ _ _ _ _ _ _ _ Hf Hg) in H1.
  refine (grouped_trans _ _ _ H1 _).
  pose proof (grouped_genfont _ _ H1 Hg) as Hg1. clear H1 Hg.
  destruct (r <? 0); [injection H as <-; apply grouped_refl|].
  apply bind_inv in H as ([] & s2 & E2 & H).
  assert (F2 : grouped s1 s2 /\ genfont s2 <> 0).
  { apply Ret_inj in E2 as [_ <-]. split; [|exact Hg1].
    apply grouped_frame; reflexivity. }
  destruct F2 as [F2 Hg2].
  refine (grouped_trans _ _ _ F2 _).
  clear E2 F2 Hg1 s s1. revert H Hg2. generalize s2. clear s2. intros s H Hg.
  apply bind_inv in H as (s0 & s0' & [= <- <-] & H).
  apply bind_inv in H as ([] & sa & Ha & H).
  apply (dimension_grouped _ _ _ _ _ _ _
           (proj1 (format_dimensions _))
           ltac:(cbn; tauto) eq_refl eq_refl Hg) in Ha.
  apply bind_inv in H as ([] & sb & Hb & H).
  apply (dimension_grouped _ _ _ _ _ _ _
           (proj1 (proj2 (format_dimensions _)))
           ltac:(cbn; tauto) eq_refl eq_refl (grouped_genfont _ _ Ha Hg)) in Hb.
  pose proof (grouped_trans _ _ _ Ha Hb) as Gb.
  apply bind_inv in H as ([] & sc & Hc & H).
  apply (dimension_grouped _ _ _ _ _ _ _
           (proj1 (proj2 (proj2 (format_dimensions _))))
           ltac:(cbn; tauto) eq_refl eq_refl (grouped_genfont _ _ Gb Hg)) in Hc.
  pose proof (grouped_trans _ _ _ Gb Hc) as Gc.
  apply bind_inv in H as ([] & sd & Hd & H).
  apply (dimension_grouped _ _ _ _ _ _ _
           (proj1 (proj2 (proj2 (proj2 (format_dimensions _)))))
           ltac:(cbn; tauto) eq_refl eq_refl (grouped_genfont _ _ Gc Hg)) in Hd.
  pose proof (grouped_trans _ _ _ Gc Hd) as Gd.
  apply bind_inv in H as ([] & se & He & H).
  apply (dimension_grouped _ _ _ _ _ _ _
           (proj1 (proj2 (proj2 (proj2 (proj2 (format_dimensions _))))))
           ltac:(cbn; tauto) eq_refl eq_refl (grouped_genfont _ _ Gd Hg)) in He.
  pose proof (grouped_trans _ _ _ Gd He) as Ge.
  apply (dimension_grouped _ _ _ _ _ _ _
           (proj2 (proj2 (proj2 (proj2 (proj2 (format_dimensions _))))))
           ltac:(cbn; tauto) eq_refl eq_refl (grouped_genfont _ _ Ge Hg)) in H.
  exact (grouped_trans _ _ _ Ge H).
Qed.

Lemma for_up_grouped (body : Z -> M unit) (n : nat) :
  (forall t s s', genfont s <> 0 -> body t s = Ret tt s' -> grouped s s') ->
  forall t s s',
    genfont s <> 0 -> for_up n t body s = Ret tt s' -> grouped s s'.
Proof.
  intros Hb. induction n as [|n IH]; intros t s s' Hg H.
  - injection H as <-. apply grouped_refl.
  - cbn [for_up] in H. apply bind_inv in H as ([] & s1 & H1 & H).
    apply (Hb _ _ _ Hg) in H1.
    exact (grouped_trans _ _ _ H1 (IH _ _ _ (grouped_genfont _ _ H1 Hg) H)).
Qed.

Lemma text_loop_grouped (L : libm) (fuel : nat) (ft_errors : list (Z * string))
  (face : FT_Face) (linescale : Z) (txt : list mbchar) :
  straight_face face ->
  forall offset s off' s',
    genfont s <> 0 ->
    text_loop L fuel ft_errors face linescale txt offset s = Ret off' s' ->
    grouped s s'.
Proof.
  intros Hf. induction txt as [|[wc|] txt IH]; intros offset s off' s' Hg H.
  - injection H as _ <-. apply grouped_refl.
  - cbn [text_loop] in H.
    apply bind_inv in H as ([] & s1 & [= <-] & H).
    apply bind_inv in H as (off & s2 & H2 & H).
    apply (render_char_grouped _ _ _ _ _ _ _ _
             (set_glyph_extents (extents_reset (glyph_extents s)) s) _ Hf Hg)
      in H2.
    apply bind_inv in H as (offset1 & s3 & H3 & H).
    assert (G3 : grouped s2 s3).
    { destruct (0 <=? off).
      - apply bind_inv in H3 as (s2' & s2'' & [= <- <-] & H3).
        apply bind_inv in H3 as ([] & s4 & [= <-] & [= _ <-]).
        apply grouped_frame; reflexivity.
      - injection H3 as _ <-. apply grouped_refl. }
    pose proof (grouped_trans _ _ _ H2 G3) as G.
    refine (grouped_trans _ _ _
              (grouped_frame s _ eq_refl eq_refl eq_refl)
              (grouped_trans _ _ _ G (IH _ _ _ _ (grouped_genfont _ _ G Hg) H))).
  - cbn [text_loop] in H. exact (IH _ _ _ _ Hg H).
Qed.

Lemma main_grouped (L : libm) (fuel : nat) (ft_errors : list (Z * string))
  (o : options) (lib : FT_Library) (s s' : state) (r : Z) :
  straight_face (the_face lib) -> genfont s <> 0 ->
  main L fuel ft_errors o lib s = Ret r s' ->
  exists ps, out s' = out s ++ dxf_groups ps /\ Forall well_formed ps.
Proof.
  intros Hf Hg H. unfold main in H. destruct (opt_f o) as [font_file|].
  - cbv zeta in H.
    apply bind_inv in H as ([] & sa & Ha & H). apply check_grouped in Ha. subst sa.
    apply bind_inv in H as ([] & sb & Hb & H). apply check_grouped in Hb. subst sb.
    apply bind_inv in H as ([] & sc & Hc & H). apply check_grouped in Hc. subst sc.
    apply bind_inv in H as ([] & sd & Hd & H).
    rewrite printf_eq, preamble_eq in Hd. injection Hd as <-.
    apply bind_inv in H as ([] & se & [= <-] & H).
    apply bind_inv in H as ([] & sf & H1 & H).
    apply bind_inv in H as (off & sg & H2 & H).
    apply bind_inv in H as ([] & sh & Hh & H).
    rewrite printf_eq, postamble_eq in Hh. injection Hh as <-.
    injection H as _ <-.
    assert (G0 : grouped s
                   (set_line_extents (extents_reset (line_extents s))
                      (set_out (out s ++ group "  0" "SECTION"
                                ++ group "  2" "ENTITIES") s))).
    { eapply grouped_output; [reflexivity|reflexivity|reflexivity|].
      exists [("  0"%string, text "SECTION"); ("  2"%string, text "ENTITIES")].
      split; [rewrite !group_eq; cbn [dxf_groups flat_map]; now rewrite app_nil_r|].
      well_formed_groups. }
    assert (G1 : grouped s sf).
    { refine (grouped_trans _ _ _ G0 _).
      unfold genfont_loop in H1.
      apply bind_inv in H1 as (s0 & s0' & [= <- <-] & H1).
      destruct (negb _) eqn:Ng.
      - refine (for_up_grouped _ _ _ _ _ _ (grouped_genfont _ _ G0 Hg) H1).
        intros t s1 s1' Hg1. now apply genfont_char_grouped.
      - injection H1 as <-. apply grouped_refl. }
    assert (G2 : grouped s sg).
    { refine (grouped_trans _ _ _ G1 _).
      exact (text_loop_grouped _ _ _ _ _ _ Hf _ _ _ _
               (grouped_genfont _ _ G1 Hg) H2). }
    assert (G3 : grouped s (set_out (out sg ++ group "  0" "ENDSEC"
                                     ++ group "  0" "EOF") sg)).
    { refine (grouped_trans _ _ _ G2 _).
      eapply grouped_output; [reflexivity|reflexivity|reflexivity|].
      exists [("  0"%string, text "ENDSEC"); ("  0"%string, text "EOF")].
      split; [rewrite !group_eq; cbn [dxf_groups flat_map]; now rewrite app_nil_r|].
      well_formed_groups. }
    destruct G3 as (G3 & _). exact G3.
  - apply bind_inv in H as ([] & sa & [= <-] & [= _ <-]).
    exists []. split; [cbn; now rewrite app_nil_r|constructor].
Qed.

Lemma unblank_codes (c : string) :
  In c dxf_codes ->
  In (unblank (text c))
     (map text ["0"; "2"; "8"; "10"; "20"; "70"; "1"; "13"; "23"]%string).
Proof.
  unfold dxf_codes. cbn [In].
  intros H. repeat (destruct H as [<-|H]; [cbn; tauto|]). destruct H.
Qed.

Lemma straight_face_font : straight_face (font 0 0).
Proof.
  intros g offset. unfold font. cbn [outline_walk].
  destruct (g =? 36); reflexivity.
Qed.

(** X15. A font whose outlines hold no curve gives a well-formed group
    stream.  When every outline of the face is made of straight segments
    and [genfont] is set (as [main] sets it), what a run of [main] that
    returns has added to stdout is a sequence of DXF groups, each a code
    line followed by one value line, whether the strokes come from the
    outlines or from the bitmap tracer: read two lines at a time, the
    first lines are exactly the codes written by the program, and every
    one of them is one of the numbers 0, 2, 8, 10, 20, 70, 1, 13, 23 once
    its leading blanks are removed. *)
Theorem straight_font_groups (L : libm) (fuel : nat)
  (ft_errors : list (Z * string)) (o : options) (lib : FT_Library)
  (s s' : state) (r : Z) :
  straight_face (the_face lib) -> genfont s <> 0 ->
  main L fuel ft_errors o lib s = Ret r s' ->
  exists ps,
    out s' = out s ++ dxf_groups ps /\
    Forall well_formed ps /\
    group_codes (dxf_groups ps) = map (fun p => unblank (text (fst p))) ps /\
    (forall code, In code (group_codes (dxf_groups ps)) ->
       In code (map text ["0"; "2"; "8"; "10"; "20"; "70"; "1"; "13"; "23"]%string)).
Proof.
  intros Hf Hg H.
  destruct (main_grouped _ _ _ _ _ _ _ _ Hf Hg H) as (ps & Ho & F).
  exists ps. split; [exact Ho|]. split; [exact F|].
  rewrite (group_codes_groups ps F). split; [reflexivity|].
  intros code Hc. apply in_map_iff in Hc as (p & <- & Hp).
  rewrite Forall_forall in F. apply unblank_codes, (F p Hp).
Qed.

Lemma straight_font_groups_witness :
  exists s' ps,
    main sample_libm 4 sample_errors plain_options sample_library
      (configured plain_options) = Ret 0 s' /\
    out s' = dxf_groups ps /\
    group_codes (dxf_groups ps) = map (fun p => unblank (text (fst p))) ps.
Proof.
  destruct (main sample_libm 4 sample_errors plain_options sample_library
              (configured plain_options)) as [r s'| | |] eqn:E.
  - destruct (straight_font_groups sample_libm 4 sample_errors plain_options
                sample_library (configured plain_options) s' r
                straight_face_font ltac:(discriminate) E)
      as (ps & Ho & _ & Hc & _).
    exists s', ps.
    assert (Hr : r = 0).
    { vm_compute in E. now injection E as <- _. }
    subst r. split; [reflexivity|]. split; [exact Ho|exact Hc].
  - vm_compute in E. discriminate.
  - vm_compute in E. discriminate.
  - vm_compute in E. discriminate.
Defined.

(** ** Everything the program prints *)

Lemma drawn_refl (s : state) : drawn s s.
Proof.
  split; [|split; reflexivity].
  exists []. split; [cbn; now rewrite app_nil_r|constructor].
Qed.

Lemma drawn_trans (s1 s2 s3 : state) : drawn s1 s2 -> drawn s2 s3 -> drawn s1 s3.
Proof.
  intros ((i1 & O1 & F1) & G1 & L1) ((i2 & O2 & F2) & G2 & L2).
  split; [|split; congruence].
  exists (i1 ++ i2). split; [|now apply Forall_app].
  now rewrite O2, O1, flat_map_app, app_assoc.
Qed.

Lemma drawn_frame (s s' : state) :
  out s' = out s -> genfont s' = genfont s -> layer s' = layer s -> drawn s s'.
Proof.
  intros Ho Hg Hl. split; [|split; assumption].
  exists []. split; [cbn; now rewrite app_nil_r|constructor].
Qed.

Lemma render_groups (ps : list (string * list ochar)) :
  flat_map render (map (fun p => Group (fst p) (snd p)) ps) = dxf_groups ps.
Proof.
  induction ps as [|[c v] ps IH]; [reflexivity|].
  cbn [map flat_map render fst snd dxf_groups]. now rewrite IH.
Qed.

Lemma grouped_drawn (s s' : state) : grouped s s' -> drawn s s'.
Proof.
  intros ((ps & Ho & F) & G & Ly). split; [|split; assumption].
  exists (map (fun p => Group (fst p) (snd p)) ps).
  split; [now rewrite render_groups|].
  apply Forall_map. revert F. apply Forall_impl.
  intros [c v] [Hc Hv]. split; [|exact Hv].
  unfold all_codes. apply in_or_app. now left.
Qed.

Lemma drawn_output (s : state) (items : list item) :
  Forall item_ok items ->
  drawn s (set_out (out s ++ flat_map render items) s).
Proof. intros F. split; [now exists items|split; reflexivity]. Qed.

Lemma fgroup_eq (code : string) (d : float) :
  fgroup code d = render (Group code [F4 d]).
Proof.
  unfold fgroup, render, dxf_group, nl. cbn [fst snd].
  rewrite text_app. cbn [text app]. now rewrite <- app_assoc.
Qed.

Lemma drawn_vertex (p : P) (s : state) :
  drawn s (set_out (out s ++ vertex p) s).
Proof.
  unfold vertex. rewrite !fgroup_eq.
  replace (render (Group "  10" [F4 (px p)]) ++ render (Group " 20" [F4 (py p)]))
    with (flat_map render [Group "  10" [F4 (px p)]; Group " 20" [F4 (py p)]])
    by (cbn [flat_map]; now rewrite app_nil_r).
  apply drawn_output.
  repeat (apply Forall_cons; [split; [cbn; tauto|reflexivity]|]). constructor.
Qed.

Lemma drawn_bulge_vertex (bulge : float) (p : P) (s : state) :
  drawn s (set_out (out s ++ bulge_vertex bulge p) s).
Proof.
  unfold bulge_vertex. rewrite !fgroup_eq.
  replace (render (Group "  42" [F4 bulge]) ++ render (Group " 10" [F4 (px p)])
           ++ render (Group "  20" [F4 (py p)]))
    with (flat_map render [Group "  42" [F4 bulge]; Group " 10" [F4 (px p)];
                           Group "  20" [F4 (py p)]])
    by (cbn [flat_map]; now rewrite app_nil_r).
  apply drawn_output.
  repeat (apply Forall_cons; [split; [cbn; tauto|reflexivity]|]). constructor.
Qed.

Lemma drawn_gcode_move (p : P) (s : state) :
  drawn s (set_out (out s ++ gcode_move p) s).
Proof.
  replace (gcode_move p) with (flat_map render [Gcode p])
    by (cbn [flat_map render]; now rewrite app_nil_r).
  apply drawn_output. repeat constructor.
Qed.

Section Draws.

Lemma draws_ret {A} (a : A) : draws (ret a).
Proof. intros s a' s' _ [= _ <-]. apply drawn_refl. Qed.

Lemma draws_get : draws get.
Proof. intros s a' s' _ [= _ <-]. apply drawn_refl. Qed.

Lemma draws_undefined {A} : draws (@undefined A).
Proof. intros s a s' _ H. discriminate. Qed.

Lemma draws_defined {A} (o : option A) : draws (defined o).
Proof. destruct o; [apply draws_ret|apply draws_undefined]. Qed.

Lemma draws_budget {A} (o : option A) : draws (budget o).
Proof. destruct o; [apply draws_ret|intros s a s' _ H; discriminate]. Qed.

Lemma draws_counts_to (n : Z) : draws (counts_to n).
Proof.
  unfold counts_to.
  destruct (n <? Num.INT_MAX); [apply draws_ret|apply draws_undefined].
Qed.

Lemma draws_modify (g : state -> state) :
  (forall s, out (g s) = out s /\ genfont (g s) = genfont s /\ layer (g s) = layer s) ->
  draws (modify g).
Proof.
  intros H s a s' _ [= _ <-]. destruct (H s) as (Ho & Hg & Hl).
  now apply drawn_frame.
Qed.

Lemma draws_bind {A C} (m : M A) (k : A -> M C) :
  draws m -> (forall a, draws (k a)) -> draws (bind m k).
Proof.
  intros Hm Hk s c s2 Hg H. apply bind_inv in H as (a & s1 & H1 & H2).
  pose proof (Hm _ _ _ Hg H1) as D1.
  refine (drawn_trans _ _ _ D1 (Hk a s1 c s2 _ H2)).
  destruct D1 as (_ & G & _). now rewrite G.
Qed.

Lemma draws_for_acc {A} (n : nat) (body : Z -> A -> M A) :
  (forall t a, draws (body t a)) -> forall t a, draws (for_acc n t a body).
Proof.
  intros Hb. induction n as [|n IH]; intros t a; simpl.
  - apply draws_ret.
  - apply draws_bind; [apply Hb|intros a'; apply IH].
Qed.

Lemma draws_for_up (n : nat) (body : Z -> M unit) :
  (forall t, draws (body t)) -> forall t, draws (for_up n t body).
Proof.
  intros Hb. induction n as [|n IH]; intros t; simpl.
  - apply draws_ret.
  - apply draws_bind; [apply Hb|intros _; apply IH].
Qed.

Lemma draws_check (ft_errors : list (Z * string)) (where_ : string)
  (error line_ : Z) :
  draws (check ft_errors where_ error line_).
Proof.
  intros s [] s' _ H. apply check_returns in H as [_ ->]. apply drawn_refl.
Qed.

Lemma draws_grouped {A} (m : M A) :
  (forall s a s', genfont s <> 0 -> m s = Ret a s' -> grouped s s') -> draws m.
Proof. intros H s a s' Hg E. exact (grouped_drawn _ _ (H s a s' Hg E)). Qed.

End Draws.

Lemma draws_line (p : P) : draws (line p).
Proof.
  intros s [] s' _ H. rewrite line_eq in H. apply Ret_inj in H as [_ <-].
  apply drawn_vertex.
Qed.

Lemma draws_arc (L : libm) (fuel : nat) (p1 p2 d : P) : draws (arc L fuel p1 p2 d).
Proof.
  intros s [] s' _ H.
  apply arc_one_record in H as (rec & -> & [-> | (bulge & ->)]).
  - apply drawn_gcode_move.
  - apply drawn_bulge_vertex.
Qed.

Lemma my_move_to_grouped (to : FT_Vector) (s s' : state) (r : Z) :
  genfont s <> 0 -> my_move_to to s = Ret r s' -> grouped s s'.
Proof.
  intros Hg H. rewrite my_move_to_eq in H. apply Ret_inj in H as [_ <-].
  match goal with
  | |- grouped s (set_glyph_extents ?e (set_last_point ?p (set_out ?o s))) =>
      destruct (out_after_walk e p o s) as (Ho & G & Ly)
  end.
  cbv zeta in Ho, G, Ly. apply (grouped_output _ _ _ Ho G Ly).
  apply groups_app; [apply polyline_start_groups|apply layer_tag_groups, Hg].
Qed.

Lemma my_line_to_grouped (to : FT_Vector) (s s' : state) (r : Z) :
  genfont s <> 0 -> my_line_to to s = Ret r s' -> grouped s s'.
Proof.
  intros Hg H. rewrite my_line_to_eq in H. apply Ret_inj in H as [_ <-].
  match goal with
  | |- grouped s (set_glyph_extents ?e (set_last_point ?p (set_out ?o s))) =>
      destruct (out_after_walk e p o s) as (Ho & G & Ly)
  end.
  cbv zeta in Ho, G, Ly. apply (grouped_output _ _ _ Ho G Ly).
  apply plain_vertex_groups.
Qed.

Create HintDb draws discriminated.

#[local] Hint Resolve draws_ret draws_get draws_undefined draws_defined
  draws_budget draws_counts_to draws_check draws_line draws_arc : draws.

Ltac draws_step :=
  lazymatch goal with
  | |- draws (bind _ _) => apply draws_bind; [|intros ?]
  | |- draws (modify _) => apply draws_modify; intros ?; repeat split
  | |- draws (for_acc _ _ _ _) => apply draws_for_acc; intros ? ?
  | |- draws (for_up _ _ _) => apply draws_for_up; intros ?
  | |- draws (if ?c then _ else _) => destruct c
  | |- draws (match ?x with _ => _ end) => destruct x
  | |- draws (let _ := _ in _) => cbv zeta
  end.

Ltac draws_auto := repeat draws_step; auto with draws.

Lemma draws_biarc (L : libm) (fuel : nat) (p0 ts p4 te : P) (r : float) :
  draws (biarc L fuel p0 ts p4 te r).
Proof. unfold biarc. draws_auto. Qed.

Lemma draws_sample (L : libm) (x y : float) (loc : FT_Vector * float) :
  draws (sample L x y loc).
Proof. unfold sample. draws_auto. Qed.

#[local] Hint Resolve draws_biarc draws_sample : draws.

Lemma draws_my_conic_to (L : libm) (fuel : nat) (control to : FT_Vector) :
  draws (my_conic_to L fuel control to).
Proof. unfold my_conic_to, conic_length. draws_auto. Qed.

Lemma draws_my_cubic_to (L : libm) (fuel : nat)
  (control1 control2 to : FT_Vector) :
  draws (my_cubic_to L fuel control1 control2 to).
Proof. unfold my_cubic_to, cubic_length. draws_auto. Qed.

Lemma draws_emit (L : libm) (fuel : nat) (seg : segment) :
  draws (emit L fuel seg).
Proof.
  destruct seg; cbn [emit].
  - apply draws_grouped. intros s a s'. apply my_move_to_grouped.
  - apply draws_grouped. intros s a s'. apply my_line_to_grouped.
  - apply draws_my_conic_to.
  - apply draws_my_cubic_to.
Qed.

Lemma draws_FT_Outline_Decompose (L : libm) (fuel : nat)
  (walk : list segment) (final : Z) :
  draws (FT_Outline_Decompose L fuel walk final).
Proof.
  induction walk as [|seg walk IH]; cbn [FT_Outline_Decompose].
  - apply draws_ret.
  - apply draws_bind; [apply draws_emit|intros e].
    destruct (e =? 0); [exact IH|apply draws_ret].
Qed.

Lemma draws_my_draw_bitmap (b : FT_Bitmap) (x y linescale : Z) :
  draws (my_draw_bitmap b x y linescale).
Proof.
  apply draws_grouped. intros s [] s'. apply my_draw_bitmap_grouped.
Qed.

#[local] Hint Resolve draws_FT_Outline_Decompose draws_my_draw_bitmap : draws.

Lemma draws_render_char (L : libm) (fuel : nat) (ft_errors : list (Z * string))
  (face : FT_Face) (c offset linescale : Z) :
  draws (render_char L fuel ft_errors face c offset linescale).
Proof. unfold render_char. draws_auto. Qed.

Lemma draws_dimension (fmt flag name code : string) (value : Z) :
  format fmt [AInt value] = dimension_record flag name code value ->
  In code dxf_codes -> newline_free (text flag) = true ->
  newline_free (text name) = true ->
  draws (dimension fmt value).
Proof.
  intros Hfmt Hc Hfl Hn. apply draws_grouped. intros s [] s'.
  now apply (dimension_grouped fmt flag name code).
Qed.

#[local] Hint Resolve draws_render_char : draws.

Lemma draws_genfont_char (L : libm) (fuel : nat) (ft_errors : list (Z * string))
  (face : FT_Face) (offset linescale wc : Z) :
  draws (genfont_char L fuel ft_errors face offset linescale wc).
Proof.
  unfold genfont_char. repeat draws_step; auto with draws.
  - eapply draws_dimension;
      [exact (proj1 (format_dimensions _))|cbn; tauto|reflexivity|reflexivity].
  - eapply draws_dimension;
      [exact (proj1 (proj2 (format_dimensions _)))|cbn; tauto
      |reflexivity|reflexivity].
  - eapply draws_dimension;
      [exact (proj1 (proj2 (proj2 (format_dimensions _))))|cbn; tauto
      |reflexivity|reflexivity].
  - eapply draws_dimension;
      [exact (proj1 (proj2 (proj2 (proj2 (format_dimensions _)))))|cbn; tauto
      |reflexivity|reflexivity].
  - eapply draws_dimension;
      [exact (proj1 (proj2 (proj2 (proj2 (proj2 (format_dimensions _))))))
      |cbn; tauto|reflexivity|reflexivity].
  - eapply draws_dimension;
      [exact (proj2 (proj2 (proj2 (proj2 (proj2 (format_dimensions _))))))
      |cbn; tauto|reflexivity|reflexivity].
Qed.

#[local] Hint Resolve draws_genfont_char : draws.

Lemma draws_genfont_loop (L : libm) (fuel : nat) (ft_errors : list (Z * string))
  (face : FT_Face) (offset linescale : Z) :
  draws (genfont_loop L fuel ft_errors face offset linescale).
Proof. unfold genfont_loop. draws_auto. Qed.

Lemma draws_text_loop (L : libm) (fuel : nat) (ft_errors : list (Z * string))
  (face : FT_Face) (linescale : Z) (txt : list mbchar) :
  forall offset, draws (text_loop L fuel ft_errors face linescale txt offset).
Proof.
  induction txt as [|[wc|] txt IH]; intros offset; cbn [text_loop].
  - apply draws_ret.
  - draws_auto.
  - apply IH.
Qed.

Lemma draws_main (L : libm) (fuel : nat) (ft_errors : list (Z * string))
  (o : options) (lib : FT_Library) (s s' : state) (r : Z) :
  genfont s <> 0 -> main L fuel ft_errors o lib s = Ret r s' ->
  exists items, out s' = out s ++ flat_map render items /\ Forall item_ok items.
Proof.
  intros Hg H. unfold main in H. destruct (opt_f o) as [font_file|].
  - cbv zeta in H.
    apply bind_inv in H as ([] & sa & Ha & H). apply check_grouped in Ha. subst sa.
    apply bind_inv in H as ([] & sb & Hb & H). apply check_grouped in Hb. subst sb.
    apply bind_inv in H as ([] & sc & Hc & H). apply check_grouped in Hc. subst sc.
    apply bind_inv in H as ([] & sd & Hd & H).
    rewrite printf_eq, preamble_eq in Hd. apply Ret_inj in Hd as [_ <-].
    apply bind_inv in H as ([] & se & He & H). apply Ret_inj in He as [_ <-].
    apply bind_inv in H as ([] & sf & H1 & H).
    apply bind_inv in H as (off & sg & H2 & H).
    apply bind_inv in H as ([] & sh & Hh & H).
    rewrite printf_eq, postamble_eq in Hh. apply Ret_inj in Hh as [_ <-].
    apply Ret_inj in H as [_ <-].
    assert (G0 : drawn s
                   (set_line_extents (extents_reset (line_extents s))
                      (set_out (out s ++ group "  0" "SECTION"
                                ++ group "  2" "ENTITIES") s))).
    { apply grouped_drawn.
      eapply grouped_output; [reflexivity|reflexivity|reflexivity|].
      exists [("  0"%string, text "SECTION"); ("  2"%string, text "ENTITIES")].
      split; [rewrite !group_eq; cbn [dxf_groups flat_map]; now rewrite app_nil_r|].
      well_formed_groups. }
    pose proof (draws_genfont_loop _ _ _ _ _ _ _ _ _
                  ltac:(destruct G0 as (_ & G & _); now rewrite G) H1) as G1.
    pose proof (drawn_trans _ _ _ G0 G1) as G01.
    pose proof (draws_text_loop _ _ _ _ _ _ _ _ _ _
                  ltac:(destruct G01 as (_ & G & _); now rewrite G) H2) as G2.
    pose proof (drawn_trans _ _ _ G01 G2) as G02.
    assert (G3 : drawn sg (set_out (out sg ++ group "  0" "ENDSEC"
                                    ++ group "  0" "EOF") sg)).
    { apply grouped_drawn.
      eapply grouped_output; [reflexivity|reflexivity|reflexivity|].
      exists [("  0"%string, text "ENDSEC"); ("  0"%string, text "EOF")].
      split; [rewrite !group_eq; cbn [dxf_groups flat_map]; now rewrite app_nil_r|].
      well_formed_groups. }
    exact (proj1 (drawn_trans _ _ _ G02 G3)).
  - apply bind_inv in H as ([] & sa & Ha & H).
    apply Ret_inj in Ha as [_ <-]. apply Ret_inj in H as [_ <-].
    exists []. split; [cbn; now rewrite app_nil_r|constructor].
Qed.

(** X16. Everything the program prints.  With [genfont] set (as [main]
    sets it), whatever the font, the text and the options, what a run of
    [main] that returns has added to stdout is a sequence of pieces of two
    kinds only: DXF groups, each a code line with one of the codes of the
    program's format strings followed by one value line, and the G-code
    moves [G1 X[..*#3+#5] Y[..*#3+#6]] that [arc] prints when its
    denominator vanishes.  The same holds of every walk over an outline.
    So those G-code lines are the only text that can break the pairing of
    code and value lines. *)
Theorem output_records (L : libm) (fuel : nat) (ft_errors : list (Z * string)) :
  (forall walk final s e s',
     genfont s <> 0 ->
     FT_Outline_Decompose L fuel walk final s = Ret e s' ->
     exists items,
       out s' = out s ++ flat_map render items /\ Forall item_ok items) /\
  (forall o lib s r s',
     genfont s <> 0 ->
     main L fuel ft_errors o lib s = Ret r s' ->
     exists items,
       out s' = out s ++ flat_map render items /\ Forall item_ok items).
Proof.
  split.
  - intros walk final s e s' Hg H.
    exact (proj1 (draws_FT_Outline_Decompose L fuel walk final s e s' Hg H)).
  - intros o lib s r s' Hg H.
    exact (draws_main L fuel ft_errors o lib s s' r Hg H).
Qed.

Lemma output_records_witness :
  exists s' items,
    FT_Outline_Decompose sample_libm 0
      [MoveTo (mkV 0 0); ConicTo (mkV 200 0) (mkV 100 0)] 0
      (configured plain_options) = Ret 0 s' /\
    out s' = flat_map render items /\ Forall item_ok items.
Proof.
  destruct (FT_Outline_Decompose sample_libm 0
              [MoveTo (mkV 0 0); ConicTo (mkV 200 0) (mkV 100 0)] 0
              (configured plain_options)) as [r s'| | |] eqn:E.
  - assert (Hg : genfont (configured plain_options) <> 0) by discriminate.
    destruct (proj1 (output_records sample_libm 0 sample_errors)
                [MoveTo (mkV 0 0); ConicTo (mkV 200 0) (mkV 100 0)] 0
                (configured plain_options) r s' Hg E) as (items & Ho & F).
    exists s', items.
    destruct (decompose_ends sample_libm 0 _ _ _ _ _ E) as [-> _].
    split; [reflexivity|]. split; [exact Ho|exact F].
  - vm_compute in E. discriminate.
  - vm_compute in E. discriminate.
  - vm_compute in E. discriminate.
Defined.

(** ** The step count at the edges *)

Lemma div_pos_zero (len : float) :
  (0 <? len)%float = true -> Prim2SF (len / 0) = S754_infinity false.
Proof.
  rewrite ltb_spec, div_spec.
  change (Prim2SF 0) with (S754_zero false).
  destruct (Prim2SF len) as [sg|sg| |sg m e]; try discriminate;
    destruct sg; try discriminate; reflexivity.
Qed.

Lemma curve_steps_infinite (q : float) :
  Prim2SF q = S754_infinity false ->
  Num.int_of_double (Vec.max 2 q) = None.
Proof.
  intros Hq. unfold Vec.max.
  assert (E : (2 <? q)%float = true).
  { rewrite ltb_spec, Hq.
    set (two := Prim2SF 2). vm_compute in two. subst two. reflexivity. }
  rewrite E. unfold Num.int_of_double, Num.trunc_double. now rewrite Hq.
Qed.

Lemma curve_steps_low (len d : float) :
  (2 <? len / d)%float = false -> curve_steps len d = Some 2.
Proof.
  intros H. unfold curve_steps, Vec.max. rewrite H.
  vm_compute. reflexivity.
Qed.

(** X17. The number of subdivisions at the edges of its range (source
    lines 273 and 320, [(int)max(2, len/dsteps)]).  A quotient that does
    not compare greater than 2 gives two steps: so does a negative step
    length, and so does a NaN.  A step length of zero (option [-s 0]) with
    a curve of positive length makes the quotient infinite, and the
    conversion to [int] is then undefined: [my_conic_to] and
    [my_cubic_to] have no defined behaviour on any such curve. *)
Theorem step_count_edges (L : libm) (fuel : nat) (s : state) :
  (forall len d, (2 <? len / d)%float = false -> curve_steps len d = Some 2) /\
  (forall len, (0 <? len)%float = true -> curve_steps len 0 = None) /\
  (dsteps s = 0%float ->
   (forall control to len s1,
      conic_length L control to s = Ret len s1 -> (0 <? len)%float = true ->
      my_conic_to L fuel control to s = Undefined) /\
   (forall control1 control2 to len s1,
      cubic_length L control1 control2 to s = Ret len s1 ->
      (0 <? len)%float = true ->
      my_cubic_to L fuel control1 control2 to s = Undefined)).
Proof.
  split; [exact curve_steps_low|]. split.
  - intros len H. unfold curve_steps.
    apply curve_steps_infinite, div_pos_zero, H.
  - intros Hd. split.
    + intros control to len s1 Hlen Hpos. unfold my_conic_to.
      unfold bind at 1. unfold get at 1.
      destruct (csteps s + 1 <=? 0); [reflexivity|].
      unfold bind at 1. unfold ret at 1.
      rewrite (bind_ret_eq _ _ _ _ _ Hlen). rewrite Hd. unfold curve_steps.
      rewrite (curve_steps_infinite _ (div_pos_zero len Hpos)). reflexivity.
    + intros control1 control2 to len s1 Hlen Hpos. unfold my_cubic_to.
      unfold bind at 1. unfold get at 1.
      rewrite (bind_ret_eq _ _ _ _ _ Hlen). rewrite Hd. unfold curve_steps.
      rewrite (curve_steps_infinite _ (div_pos_zero len Hpos)). reflexivity.
Qed.

Lemma step_count_edges_witness :
  my_conic_to sample_libm 4 (mkV 200 0) (mkV 100 0)
    (configured (mkOptions (Some 0%float) (Some "font.ttf"%string) None None []))
  = Undefined.
Proof.
  destruct (conic_length sample_libm (mkV 200 0) (mkV 100 0)
              (configured (mkOptions (Some 0%float) (Some "font.ttf"%string)
                             None None [])))
    as [len s1| | |] eqn:E.
  - refine (proj1 (proj2 (proj2 (step_count_edges sample_libm 4
              (configured (mkOptions (Some 0%float) (Some "font.ttf"%string)
                             None None [])))) eq_refl) _ _ len s1 E _).
    vm_compute in E. injection E as <- _. vm_compute. reflexivity.
  - vm_compute in E. discriminate.
  - vm_compute in E. discriminate.
  - vm_compute in E. discriminate.
Defined.
